(** * The lea command-line client: result serialization, prev-hash prefetch,
      reporting, dispatch and the keygen proxy

    A shallow embedding of the CLI [bin/lea.mjs] of LEA-Blockchain/lea.

    JavaScript data is represented as follows.
    - Primitive values are the constructors of [prim].  A number is an
      integer-valued double ([NInt], with -0 identified with 0), [NNaN], an
      infinity, or a non-integer dyadic fraction.  Strings are sequences of
      8-bit code units.  Symbols are left out.
    - Objects live in a read-only store ([heap]) indexed by locations, so that
      identity, sharing and cycles are those of the program.  A location the
      store does not list is an empty plain object.  The objects are plain
      data with their ordinary prototypes: own enumerable string-keyed data
      properties listed in enumeration order (no accessors, no proxies, no
      [toJSON]), dense arrays, Maps with string keys, typed arrays and
      DataViews given by the bytes of their window (never detached, elements
      in little-endian byte order).
    - Values the program itself creates (argument lists, option objects, the
      converted results) and parsed JSON have no sharing and are trees.
    - The SDK, the file system, the module loader and child processes are an
      environment ([runtime]) answering each call as a function of the calls
      made so far.  A child process ends with a ['close'] event, with an
      ['error'] event, or with an ['error'] event followed by a ['close']
      event. *)

From Stdlib Require Import ZArith String Ascii List Lia Bool.
From Stdlib Require Import DecimalString DecimalZ.
From stdpp Require Import base option list gmap sets.

Set Warnings "-register-all,-clear-no-such-hyp".

Local Open Scope string_scope.
Local Open Scope list_scope.
Local Open Scope Z_scope.

(** ** Values *)

Inductive number :=
| NInt (z : Z)
| NNaN
| NInf (neg : bool)
| NFrac (neg : bool) (m e : Z).

Inductive prim :=
| PUndef
| PNull
| PBool (b : bool)
| PNum (n : number)
| PBigInt (z : Z)
| PStr (s : string)
| PFun (f : nat).

Abbreviation loc := nat.

Inductive value :=
| VPrim (p : prim)
| VRef (l : loc).

Inductive elem_kind :=
| Int8 | Uint8 | Uint8Clamped | Int16 | Uint16 | Int32 | Uint32
| Float16 | Float32 | Float64 | BigInt64 | BigUint64.

Inductive obj :=
| OTyped (k : elem_kind) (bytes : list Byte.byte)
| ODataView (bytes : list Byte.byte)
| OMap (entries : list (string * value))
| OArray (elems : list value)
| OObject (props : list (string * value)).

Abbreviation heap := (gmap loc obj).

(** The object at a location; unlisted locations are [{}]. *)
Definition deref (h : heap) (l : loc) : obj := default (OObject []) (h !! l).

(** Values without sharing: what the program builds and what [JSON.parse]
    gives.  Leaves are primitives. *)
Inductive tree :=
| TPrim (p : prim)
| TArr (elems : list tree)
| TObj (props : list (string * tree)).

(** ** Typed-array elements *)

Definition byte_val (b : Byte.byte) : Z := Z.of_N (Byte.to_N b).

(** The unsigned integer a byte string encodes, least significant byte
    first. *)
Fixpoint le_uint (bs : list Byte.byte) : Z :=
  match bs with
  | [] => 0
  | b :: r => byte_val b + 256 * le_uint r
  end.

Definition to_signed (w u : Z) : Z := if u <? 2 ^ (w - 1) then u else u - 2 ^ w.

(** The double [±m·2^e] for [m >= 0]. *)
Definition dyadic (neg : bool) (m e : Z) : number :=
  let sg z := if neg then - z else z in
  if 0 <=? e then NInt (sg (m * 2 ^ e))
  else if m mod 2 ^ (- e) =? 0 then NInt (sg (m / 2 ^ (- e)))
  else NFrac neg m e.

(** IEEE 754 binary interchange format with [eb] exponent bits and [mb]
    fraction bits. *)
Definition decode_float (eb mb u : Z) : number :=
  let neg := Z.testbit u (eb + mb) in
  let e := Z.land (Z.shiftr u mb) (Z.ones eb) in
  let m := Z.land u (Z.ones mb) in
  let bias := 2 ^ (eb - 1) - 1 in
  if e =? Z.ones eb then (if m =? 0 then NInf neg else NNaN)
  else if e =? 0 then dyadic neg m (1 - bias - mb)
  else dyadic neg (m + 2 ^ mb) (e - bias - mb).

Definition elem_size (k : elem_kind) : nat :=
  match k with
  | Int8 | Uint8 | Uint8Clamped => 1
  | Int16 | Uint16 | Float16 => 2
  | Int32 | Uint32 | Float32 => 4
  | Float64 | BigInt64 | BigUint64 => 8
  end%nat.

Definition decode_elem (k : elem_kind) (bs : list Byte.byte) : prim :=
  let u := le_uint bs in
  match k with
  | Uint8 | Uint8Clamped | Uint16 | Uint32 => PNum (NInt u)
  | Int8 => PNum (NInt (to_signed 8 u))
  | Int16 => PNum (NInt (to_signed 16 u))
  | Int32 => PNum (NInt (to_signed 32 u))
  | Float16 => PNum (decode_float 5 10 u)
  | Float32 => PNum (decode_float 8 23 u)
  | Float64 => PNum (decode_float 11 52 u)
  | BigInt64 => PBigInt (to_signed 64 u)
  | BigUint64 => PBigInt u
  end.

(** [v.length] of a typed array. *)
Definition typed_length (k : elem_kind) (bs : list Byte.byte) : nat :=
  (length bs / elem_size k)%nat.

(** The elements a typed array iterates over: [Array.from(v)]. *)
Definition typed_elems (k : elem_kind) (bs : list Byte.byte) : list prim :=
  map (fun i => decode_elem k (take (elem_size k) (drop (i * elem_size k) bs)))
      (seq 0 (typed_length k bs)).

(** [Array.from(new Uint8Array(v.buffer, v.byteOffset, v.byteLength))]. *)
Definition view_bytes (bs : list Byte.byte) : list prim :=
  map (fun b => PNum (NInt (byte_val b))) bs.

(** ** Utilities *)

(** [BigInt.prototype.toString()]: decimal digits, [-] for negatives. *)
Definition BigInt_toString (z : Z) : string := NilZero.string_of_int (Z.to_int z).

(** ** serialize *)

Definition sentinel : tree := TPrim (PStr "[Circular]").

(** Setting or creating the own property [k]; the properties are kept in the
    order of their creation. *)
Fixpoint set_own (k : string) (v : tree) (o : list (string * tree)) : list (string * tree) :=
  match o with
  | [] => [(k, v)]
  | (k', v') :: r => if String.eqb k k' then (k, v) :: r else (k', v') :: set_own k v r
  end.

(** [obj[k] = v] on an object built from [{}].  The name [__proto__] is the
    accessor such an object inherits from [Object.prototype]: an assignment
    to it changes the prototype at most, throws nothing and creates no
    property, so the own properties stay as they are. *)
Definition set_prop (k : string) (v : tree) (o : list (string * tree)) : list (string * tree) :=
  if String.eqb k "__proto__" then o else set_own k v o.

Section conv.
Variable h : heap.

(** [v.map(conv)], threading the set of seen objects. *)
Fixpoint conv_list (f : gset loc -> value -> option (tree * gset loc))
    (vs : list value) (seen : gset loc) : option (list tree * gset loc) :=
  match vs with
  | [] => Some ([], seen)
  | v :: r =>
      match f seen v with
      | None => None
      | Some (o, seen1) =>
          match conv_list f r seen1 with
          | None => None
          | Some (os, seen2) => Some (o :: os, seen2)
          end
      end
  end.

(** [for (const [k, val] of entries) obj[k] = conv(val)]. *)
Fixpoint conv_props (f : gset loc -> value -> option (tree * gset loc))
    (es : list (string * value)) (acc : list (string * tree)) (seen : gset loc)
    : option (list (string * tree) * gset loc) :=
  match es with
  | [] => Some (acc, seen)
  | (k, v) :: r =>
      match f seen v with
      | None => None
      | Some (o, seen1) => conv_props f r (set_prop k o acc) seen1
      end
  end.

(** The inner function [conv] with the [WeakSet] it closes over made an
    explicit state.  [fuel] bounds the nesting depth of the calls. *)
Fixpoint conv (fuel : nat) (seen : gset loc) (v : value) : option (tree * gset loc) :=
  match fuel with
  | O => None
  | S n =>
      match v with
      | VPrim (PBigInt z) => Some (TPrim (PStr (BigInt_toString z)), seen)
      | VPrim p => Some (TPrim p, seen)
      | VRef l =>
          if decide (l ∈ seen) then Some (sentinel, seen)
          else
            let seen := {[l]} ∪ seen in
            match deref h l with
            | OTyped k bs => Some (TArr (map TPrim (typed_elems k bs)), seen)
            | ODataView bs => Some (TArr (map TPrim (view_bytes bs)), seen)
            | OMap es =>
                match conv_props (conv n) es [] seen with
                | None => None
                | Some (ps, seen') => Some (TObj ps, seen')
                end
            | OArray vs =>
                match conv_list (conv n) vs seen with
                | None => None
                | Some (os, seen') => Some (TArr os, seen')
                end
            | OObject es =>
                match conv_props (conv n) es [] seen with
                | None => None
                | Some (ps, seen') => Some (TObj ps, seen')
                end
            end
      end
  end.

(** [serialize(value)]: a fresh [seen] set, and nesting no deeper than one call
    per object of the store and one more. *)
Definition serialize (v : value) : option tree :=
  fst <$> conv (S (size (dom h))) ∅ v.
End conv.


(** ** Strings and amounts *)

Fixpoint string_rev (s : string) : string :=
  match s with
  | EmptyString => EmptyString
  | String c r => string_rev r ++ String c EmptyString
  end.

(** [s.startsWith(t)]. *)
Definition startsWith (s t : string) : bool := String.prefix t s.

(** [s.endsWith(t)]. *)
Definition endsWith (s t : string) : bool :=
  String.prefix (string_rev t) (string_rev s).

(** [s.slice(n)] for [n >= 0]. *)
Fixpoint string_drop (n : nat) (s : string) : string :=
  match n, s with
  | S n, String _ r => string_drop n r
  | _, _ => s
  end.

(** [s.slice(0, -1)]. *)
Definition drop_last (s : string) : string := string_rev (string_drop 1 (string_rev s)).

Definition lower_char (c : ascii) : ascii :=
  let n := nat_of_ascii c in
  if ((65 <=? n) && (n <=? 90))%nat then ascii_of_nat (n + 32) else c.

(** [s.toLowerCase()] on the ASCII letters. *)
Fixpoint toLowerCase (s : string) : string :=
  match s with
  | EmptyString => EmptyString
  | String c r => String (lower_char c) (toLowerCase r)
  end.

(** [isJsonPath(p)] for a string [p]. *)
Definition isJsonPath (p : string) : bool := endsWith (toLowerCase p) ".json".

(** White space and line terminators among the 8-bit code units. *)
Definition is_space (c : ascii) : bool :=
  let n := nat_of_ascii c in
  ((9 <=? n) && (n <=? 13) || (n =? 32) || (n =? 160))%nat.

Fixpoint trim_start (s : string) : string :=
  match s with
  | EmptyString => EmptyString
  | String c r => if is_space c then trim_start r else s
  end.

Definition trim (s : string) : string := string_rev (trim_start (string_rev (trim_start s))).

Definition digit_val (c : ascii) : option Z :=
  let n := nat_of_ascii c in
  if ((48 <=? n) && (n <=? 57))%nat then Some (Z.of_nat n - 48)
  else if ((97 <=? n) && (n <=? 102))%nat then Some (Z.of_nat n - 87)
  else if ((65 <=? n) && (n <=? 70))%nat then Some (Z.of_nat n - 55)
  else None.

(** Digits in base 2, 8 or 16, most significant first. *)
Fixpoint parse_digits (base acc : Z) (s : string) : option Z :=
  match s with
  | EmptyString => Some acc
  | String c r =>
      match digit_val c with
      | Some d => if d <? base then parse_digits base (acc * base + d) r else None
      | None => None
      end
  end.

Definition parse_radix (base : Z) (s : string) : option Z :=
  match s with
  | EmptyString => None
  | _ => parse_digits base 0 s
  end.

(** One or more decimal digits. *)
Definition parse_decimal (s : string) : option Z :=
  match s with
  | EmptyString => None
  | _ => Z.of_uint <$> NilEmpty.uint_of_string s
  end.

(** [StringToBigInt]: the value of [BigInt(s)], or [None] where it throws a
    [SyntaxError]. *)
Definition StringToBigInt (s : string) : option Z :=
  let t := trim s in
  if String.eqb t "" then Some 0
  else if startsWith t "0x" || startsWith t "0X" then parse_radix 16 (string_drop 2 t)
  else if startsWith t "0o" || startsWith t "0O" then parse_radix 8 (string_drop 2 t)
  else if startsWith t "0b" || startsWith t "0B" then parse_radix 2 (string_drop 2 t)
  else if startsWith t "-" then Z.opp <$> parse_decimal (string_drop 1 t)
  else if startsWith t "+" then parse_decimal (string_drop 1 t)
  else parse_decimal t.

(** ** Exceptions and the command monad *)

(** What is thrown: [new Error(msg)] by this program, its
    [new Error(`Invalid amount: ${x}`)], an error of the language runtime
    given by its name ([TypeError], [RangeError], [SyntaxError]), or any value
    thrown by a collaborator. *)
Inductive exn :=
| Error (msg : string)
| InvalidAmount (x : prim)
| RuntimeError (name : string)
| Thrown (v : value).

(** How a call ends. *)
Inductive completion (A : Type) :=
| Return (a : A)
| Throw (e : exn).
Arguments Return {A} a.
Arguments Throw {A} e.

(** [toBigInt(x)] for a primitive [x]. *)
Definition toBigInt (x : prim) : completion Z :=
  match x with
  | PBigInt z => Return z
  | PNum (NInt z) => Return z
  | PNum _ => Throw (RuntimeError "RangeError")
  | PStr s =>
      match StringToBigInt (if endsWith s "n" then drop_last s else s) with
      | Some z => Return z
      | None => Throw (RuntimeError "SyntaxError")
      end
  | _ => Throw (InvalidAmount x)
  end.

(** A [Uint8Array]: one found in a response, or a new one with the given
    contents. *)
Inductive u8array :=
| U8Same (l : loc)
| U8New (bytes : list Byte.byte).

(** A string the program passes on without looking at it: a known string or
    [String(t)] of a parsed value that is not a string. *)
Inductive text :=
| Lit (s : string)
| StringOf (t : tree).

(** The arguments the program gives to the SDK's builders. *)
Inductive arg :=
| ASigner (keyset : tree) (address : text)
| AString (s : text)
| ABigInt (z : Z)
| AOptions (props : list (string * u8array)).

Inductive builder :=
| publishKeyset | mint | transfer | burn | getBalance | getLastTxHash
| getAllowedMint | getCurrentSupply | mintWhitelist.

(** What is written to a stream or a file, kept as what it is the text of:
    [LText s] is [s];
    [LStatus ..] is the line
    [[lea] ok=${res.ok} status=${res.status} txId=.. exec=.. abort=..];
    [LErrorMsg e] is [[lea] error: ${errMsg}] with
    [errMsg = String(e?.message || e)];
    [LJson t] is [JSON.stringify(t) + '\n'];
    [LJsonError e] is [JSON.stringify({ error: errMsg }) + '\n']. *)
Inductive line :=
| LText (s : string)
| LStatus (ok status txId exec abort : value)
| LErrorMsg (e : exn)
| LJson (t : tree)
| LJsonError (e : exn).

(** The calls to the environment: [Connection(cluster)], a builder of
    [SystemProgram], [connection.sendTransaction(tx)], a call of a function
    value, [fs.readFile] followed by [JSON.parse], [fs.writeFile],
    [require.resolve], [require], and [spawn].  Paths are recorded as given to
    [path.resolve]. *)
Inductive call :=
| CConnection (cluster : string)
| CBuild (b : builder) (args : list arg)
| CSend (connection tx : value)
| CApply (f : nat) (this : value) (args : list value)
| CReadJson (path : string)
| CWriteFile (path : string) (content : line)
| CResolve (request : string)
| CRequire (path : string)
| CSpawn (cmd : string) (args : list string) (shell : bool).

(** How a child process ends: with a ['close'] event carrying an exit code
    or, the code being [null], a signal; or with an ['error'] event.  After
    the ['error'] event of a child that could not be spawned Node emits, in
    the same turn, a ['close'] event whose code is the negative error number
    ([-2] for [ENOENT]): [close] is the numeric code of that event, [None]
    when no ['close'] event with a numeric code follows the error. *)
Inductive spawn_outcome :=
| SpawnError (e : exn) (close : option Z)
| SpawnClose (code : option Z) (signal : option string).

(** The environment of a run: the store of the objects its answers refer to,
    the platform, [process.execPath],
    [path.resolve(path.dirname(pkgPath), relBin)], and the answer to every
    call given the calls made before it. *)
Record runtime := {
  rt_heap : heap;
  rt_win32 : bool;
  rt_execPath : string;
  rt_binPath : string -> string -> string;
  rt_Connection : list call -> string -> completion value;
  rt_build : list call -> builder -> list arg -> completion value;
  rt_send : list call -> value -> value -> completion value;
  rt_apply : list call -> nat -> value -> list value -> completion value;
  rt_readJson : list call -> string -> completion tree;
  rt_writeFile : list call -> string -> line -> completion unit;
  rt_resolve : list call -> string -> completion string;
  rt_require : list call -> string -> completion tree;
  rt_spawn : list call -> string -> list string -> bool -> spawn_outcome;
}.

(** The state of a run: the calls made so far, what was written to stdout
    and stderr, and [process.exitCode]. *)
Record world := {
  w_calls : list call;
  w_stdout : list line;
  w_stderr : list line;
  w_exitCode : option Z;
}.

Definition world0 : world :=
  {| w_calls := []; w_stdout := []; w_stderr := []; w_exitCode := None |}.

(** A step of a command: it ends by returning or throwing, in a new state. *)
Definition M (A : Type) : Type := world -> completion A * world.

Definition ret {A} (a : A) : M A := fun w => (Return a, w).
Definition throw {A} (e : exn) : M A := fun w => (Throw e, w).
Definition bind {A B} (m : M A) (k : A -> M B) : M B :=
  fun w => match m w with
           | (Return a, w') => k a w'
           | (Throw e, w') => (Throw e, w')
           end.
Definition lift {A} (c : completion A) : M A := fun w => (c, w).

(** [try { m } catch (e) { handler }]. *)
Definition try_catch {A} (m : M A) (handler : exn -> M A) : M A :=
  fun w => match m w with
           | (Return a, w') => (Return a, w')
           | (Throw e, w') => handler e w'
           end.

Notation "'let*' x ':=' m 'in' k" := (bind m (fun x => k))
  (at level 10, x name, m at level 100, k at level 200).
Notation "m '>>' k" := (bind m (fun _ => k)) (at level 90, right associativity).

(** A call to the environment: answered from the calls so far, then recorded. *)
Definition call_env {A} (c : call) (answer : list call -> completion A) : M A :=
  fun w => (answer (w_calls w),
            {| w_calls := w_calls w ++ [c]; w_stdout := w_stdout w;
               w_stderr := w_stderr w; w_exitCode := w_exitCode w |}).

Definition stdout_write (l : line) : M unit :=
  fun w => (Return tt,
            {| w_calls := w_calls w; w_stdout := w_stdout w ++ [l];
               w_stderr := w_stderr w; w_exitCode := w_exitCode w |}).

Definition stderr_write (l : line) : M unit :=
  fun w => (Return tt,
            {| w_calls := w_calls w; w_stdout := w_stdout w;
               w_stderr := w_stderr w ++ [l]; w_exitCode := w_exitCode w |}).

(** [process.exitCode = c]. *)
Definition set_exitCode (c : Z) : M unit :=
  fun w => (Return tt,
            {| w_calls := w_calls w; w_stdout := w_stdout w;
               w_stderr := w_stderr w; w_exitCode := Some c |}).

Definition when (b : bool) (m : M unit) : M unit := if b then m else ret tt.

(** The exit code of the process once [main()] has settled: Node exits with 1
    on an unhandled rejection, else with [process.exitCode], 0 if unset.  A
    parent process reads a code outside the range of the platform cut to
    that range ([wait_status] below, for POSIX). *)
Definition exit_status (r : completion unit * world) : Z :=
  match r with
  | (Throw _, _) => 1
  | (Return _, w) => default 0 (w_exitCode w)
  end.

(** ** Reading values *)

(** The property defined last under a name. *)
Fixpoint prop_lookup {A} (k : string) (ps : list (string * A)) : option A :=
  match ps with
  | [] => None
  | (k', v) :: r =>
      match prop_lookup k r with
      | Some x => Some x
      | None => if String.eqb k k' then Some v else None
      end
  end.

Definition undefined : value := VPrim PUndef.

(** [v?.k] for a property name [k] that no prototype defines. *)
Definition get_opt (h : heap) (v : value) (k : string) : value :=
  match v with
  | VRef l =>
      match deref h l with
      | OObject ps => default undefined (prop_lookup k ps)
      | _ => undefined
      end
  | VPrim _ => undefined
  end.

(** [v.k]: a [TypeError] on [undefined] and [null]. *)
Definition get_prop (h : heap) (v : value) (k : string) : completion value :=
  match v with
  | VPrim PUndef | VPrim PNull => Throw (RuntimeError "TypeError")
  | _ => Return (get_opt h v k)
  end.

Definition prim_truthy (p : prim) : bool :=
  match p with
  | PUndef | PNull => false
  | PBool b => b
  | PNum (NInt z) => negb (z =? 0)
  | PNum NNaN => false
  | PNum _ => true
  | PBigInt z => negb (z =? 0)
  | PStr s => negb (String.eqb s "")
  | PFun _ => true
  end.

Definition truthy (v : value) : bool :=
  match v with
  | VRef _ => true
  | VPrim p => prim_truthy p
  end.

Definition tree_truthy (t : tree) : bool :=
  match t with
  | TPrim p => prim_truthy p
  | _ => true
  end.

(** A truthy optional string. *)
Definition str_truthy (s : option string) : bool :=
  match s with
  | Some s => negb (String.eqb s "")
  | None => false
  end.

(** [typeof v === 'number' && v !== 0]. *)
Definition nonzero_number (v : value) : bool :=
  match v with
  | VPrim (PNum (NInt z)) => negb (z =? 0)
  | VPrim (PNum _) => true
  | _ => false
  end.

(** [Number.isInteger(n) && n >= 0 && n <= 255]. *)
Definition is_byte_number (v : value) : bool :=
  match v with
  | VPrim (PNum (NInt z)) => (0 <=? z) && (z <=? 255)
  | _ => false
  end.

Definition byte_of_Z (z : Z) : Byte.byte :=
  default Byte.x00 (Byte.of_N (Z.to_N (z mod 256))).

(** The conversion [ToUint8] of an array element stored into a
    [Uint8Array]; elements that are not numbers do not reach it here. *)
Definition ToUint8 (v : value) : Byte.byte :=
  match v with
  | VPrim (PNum (NInt z)) => byte_of_Z z
  | VPrim (PNum (NFrac neg m e)) =>
      let q := m / 2 ^ (- e) in byte_of_Z (if neg then - q else q)
  | _ => Byte.x00
  end.

(** [j.k] for a parsed JSON value. *)
Definition tree_get (j : tree) (k : string) : completion tree :=
  match j with
  | TPrim PUndef | TPrim PNull => Throw (RuntimeError "TypeError")
  | TObj ps => Return (default (TPrim PUndef) (prop_lookup k ps))
  | _ => Return (TPrim PUndef)
  end.

(** [String(t)]. *)
Definition String_ (t : tree) : text :=
  match t with
  | TPrim (PStr s) => Lit s
  | _ => StringOf t
  end.

(** [JSON.stringify] throws a [TypeError] on a BigInt. *)
Fixpoint has_bigint (t : tree) : bool :=
  match t with
  | TPrim (PBigInt _) => true
  | TPrim _ => false
  | TArr ts => existsb has_bigint ts
  | TObj ps => existsb (fun p => has_bigint (snd p)) ps
  end.

(** [JSON.stringify(t) + '\n']. *)
Definition JSON_line (t : tree) : completion line :=
  if has_bigint t then Throw (RuntimeError "TypeError") else Return (LJson t).

(** ** The prev-hash prefetch *)

Definition BASE_POD_HEX : string :=
  "1111111111111111111111111111111111111111111111111111111111111111".

Section program.
Variable rt : runtime.
Let h := rt_heap rt.

Definition SystemProgram (b : builder) (args : list arg) : M value :=
  call_env (CBuild b args) (fun cs => rt_build rt cs b args).

Definition sendTransaction (connection tx : value) : M value :=
  call_env (CSend connection tx) (fun cs => rt_send rt cs connection tx).

Definition readJson (filePath : string) : M tree :=
  call_env (CReadJson filePath) (fun cs => rt_readJson rt cs filePath).

Definition writeFile (path : string) (content : line) : M unit :=
  call_env (CWriteFile path content) (fun cs => rt_writeFile rt cs path content).

(** [decoded.get(BASE_POD_HEX)] guarded by
    [decoded && typeof decoded.get === 'function']: [None] when the guard
    fails. *)
Definition decoded_get (decoded : value) : M (option value) :=
  match decoded with
  | VRef l =>
      match deref h l with
      | OMap es => ret (Some (default undefined (prop_lookup BASE_POD_HEX es)))
      | OObject ps =>
          match prop_lookup "get" ps with
          | Some (VPrim (PFun f)) =>
              let args := [VPrim (PStr BASE_POD_HEX)] in
              let* r := call_env (CApply f decoded args)
                          (fun cs => rt_apply rt cs f decoded args) in
              ret (Some r)
          | _ => ret None
          end
      | _ => ret None
      end
  | VPrim _ => ret None
  end.

(** The two accepted shapes of [lastTxHash]. *)
Definition accept_last (last : value) : option u8array :=
  match last with
  | VRef l =>
      match deref h l with
      | OTyped Uint8 bs =>
          if (typed_length Uint8 bs =? 32)%nat then Some (U8Same l) else None
      | OArray vs =>
          if forallb is_byte_number vs then
            let bytes := map ToUint8 vs in
            if (length bytes =? 32)%nat then Some (U8New bytes) else None
          else None
      | _ => None
      end
  | VPrim _ => None
  end.

Definition fetchPrevTxHashFromNetwork (connection : value) (address : text)
    : M (option u8array) :=
  try_catch
    (let* tx := SystemProgram getLastTxHash [AString address] in
     let* res := sendTransaction connection tx in
     let exec := get_opt h res "executionStatus" in
     let abort := get_opt h res "abortCode" in
     if negb (truthy (get_opt h res "ok")) || nonzero_number exec || nonzero_number abort
     then ret None
     else
       let* decoded := lift (get_prop h res "decoded") in
       let* baseEntry := decoded_get decoded in
       match baseEntry with
       | Some baseEntry => ret (accept_last (get_opt h baseEntry "lastTxHash"))
       | None => ret None
       end)
    (fun _ => ret None).

(** [prevTxHash ? { prevTxHash } : {}]. *)
Definition prev_options (prevTxHash : option u8array) : list (string * u8array) :=
  match prevTxHash with
  | Some p => [("prevTxHash", p)]
  | None => []
  end.

Definition buildWithPrevHash (connection : value) (buildFn : list arg -> M value)
    (args : list arg) (signerAddress : text) : M value :=
  let* prevTxHash := fetchPrevTxHashFromNetwork connection signerAddress in
  buildFn (args ++ [AOptions (prev_options prevTxHash)]).

(** ** Addresses and signers *)

Definition resolveAddress (input : option string) : M text :=
  match input with
  | Some input =>
      if String.eqb input "" then throw (Error "Address is required")
      else if isJsonPath input then
        let* j := readJson input in
        let* a := lift (tree_get j "address") in
        if negb (tree_truthy a)
        then throw (Error ("Keyfile '" ++ input ++ "' missing 'address'"))
        else ret (String_ a)
      else ret (Lit input)
  | None => throw (Error "Address is required")
  end.

Record signer := { keyset : tree; address : text }.

Definition readSigner (keyfile : option string) : M signer :=
  match keyfile with
  | Some keyfile =>
      if String.eqb keyfile "" || negb (isJsonPath keyfile)
      then throw (Error "A --key <path.json> is required")
      else
        let* j := readJson keyfile in
        let* ks := lift (tree_get j "keyset") in
        let* a := lift (tree_get j "address") in
        if negb (tree_truthy ks) || negb (tree_truthy a)
        then throw (Error ("Keyfile '" ++ keyfile ++ "' must include 'keyset' and 'address'"))
        else ret {| keyset := ks; address := String_ a |}
  | None => throw (Error "A --key <path.json> is required")
  end.

(** ** Reporting *)

(** [x ?? '']. *)
Definition or_empty (v : value) : value :=
  match v with
  | VPrim PUndef | VPrim PNull => VPrim (PStr "")
  | _ => v
  end.

(** The status line; reading [res.ok] throws when [res] is nullish. *)
Definition status_line (res : value) : M unit :=
  let* ok := lift (get_prop h res "ok") in
  stderr_write (LStatus ok (get_opt h res "status") (or_empty (get_opt h res "txId"))
                  (or_empty (get_opt h res "executionStatus"))
                  (or_empty (get_opt h res "abortCode"))).

(** [serialize(v)] as a step of a command; running out of nesting depth is
    the engine's [RangeError]. *)
Definition serialize_step (v : value) : M tree :=
  match serialize h v with
  | Some t => ret t
  | None => throw (RuntimeError "RangeError")
  end.

Definition sendAndReport (connection txObject : value) (outfile : option string)
    (quiet : bool) : M unit :=
  try_catch
    (let* res := sendTransaction connection txObject in
     when (negb quiet) (status_line res) >>
     let* decoded := lift (get_prop h res "decoded") in
     let* decodedOnly := serialize_step decoded in
     let* jsonStr := lift (JSON_line decodedOnly) in
     when (str_truthy outfile) (writeFile (default "" outfile) jsonStr) >>
     stdout_write jsonStr >>
     let* ok := lift (get_prop h res "ok") in
     when (negb (truthy ok)) (set_exitCode 1))
    (fun e =>
       when (negb quiet) (stderr_write (LErrorMsg e)) >>
       when (str_truthy outfile) (writeFile (default "" outfile) (LJsonError e)) >>
       stdout_write (LJsonError e) >>
       set_exitCode 1).
End program.

(** ** Argument parsing *)

Record options := {
  o_cluster : option string;
  o_key : option string;
  o_to : option string;
  o_amount : option string;
  o_address : option string;
  o_quiet : bool;
  o_outfile : option string;
  o_help : bool;
}.

(** [{ cluster: 'mainnet-beta', outfile: null }]. *)
Definition opts0 : options :=
  {| o_cluster := Some "mainnet-beta"; o_key := None; o_to := None; o_amount := None;
     o_address := None; o_quiet := false; o_outfile := None; o_help := false |}.

(** The cases of the [switch] in [parseArgs]. *)
Inductive flag :=
| FCluster | FKey | FTo | FAmount | FAddress | FQuiet | FOutfile | FHelp | FOther.

Definition classify (a : string) : flag :=
  if String.eqb a "--cluster" then FCluster
  else if String.eqb a "--key" then FKey
  else if String.eqb a "--to" then FTo
  else if String.eqb a "--amount" then FAmount
  else if String.eqb a "--address" then FAddress
  else if String.eqb a "--quiet" then FQuiet
  else if String.eqb a "-o" || String.eqb a "--outfile" then FOutfile
  else if String.eqb a "--help" || String.eqb a "-h" then FHelp
  else FOther.

(** [opts.<name> = v] for the flags that take a value ([v] is [args.shift()],
    [undefined] on an empty rest); the two switches set [true]. *)
Definition set_opt (f : flag) (v : option string) (o : options) : options :=
  match f with
  | FCluster => {| o_cluster := v; o_key := o_key o; o_to := o_to o; o_amount := o_amount o;
                   o_address := o_address o; o_quiet := o_quiet o; o_outfile := o_outfile o;
                   o_help := o_help o |}
  | FKey => {| o_cluster := o_cluster o; o_key := v; o_to := o_to o; o_amount := o_amount o;
               o_address := o_address o; o_quiet := o_quiet o; o_outfile := o_outfile o;
               o_help := o_help o |}
  | FTo => {| o_cluster := o_cluster o; o_key := o_key o; o_to := v; o_amount := o_amount o;
              o_address := o_address o; o_quiet := o_quiet o; o_outfile := o_outfile o;
              o_help := o_help o |}
  | FAmount => {| o_cluster := o_cluster o; o_key := o_key o; o_to := o_to o; o_amount := v;
                  o_address := o_address o; o_quiet := o_quiet o; o_outfile := o_outfile o;
                  o_help := o_help o |}
  | FAddress => {| o_cluster := o_cluster o; o_key := o_key o; o_to := o_to o;
                   o_amount := o_amount o; o_address := v; o_quiet := o_quiet o;
                   o_outfile := o_outfile o; o_help := o_help o |}
  | FOutfile => {| o_cluster := o_cluster o; o_key := o_key o; o_to := o_to o;
                   o_amount := o_amount o; o_address := o_address o; o_quiet := o_quiet o;
                   o_outfile := v; o_help := o_help o |}
  | FQuiet => {| o_cluster := o_cluster o; o_key := o_key o; o_to := o_to o;
                 o_amount := o_amount o; o_address := o_address o; o_quiet := true;
                 o_outfile := o_outfile o; o_help := o_help o |}
  | FHelp => {| o_cluster := o_cluster o; o_key := o_key o; o_to := o_to o;
                o_amount := o_amount o; o_address := o_address o; o_quiet := o_quiet o;
                o_outfile := o_outfile o; o_help := true |}
  | FOther => o
  end.

(** The [while (args.length)] loop. *)
Fixpoint parse_loop (args : list string) (command : option string) (opts : options)
    : option string * options :=
  match args with
  | [] => (command, opts)
  | a :: rest =>
      match classify a with
      | FQuiet => parse_loop rest command (set_opt FQuiet None opts)
      | FHelp => parse_loop rest command (set_opt FHelp None opts)
      | FOther => parse_loop rest (if str_truthy command then command else Some a) opts
      | f =>
          match rest with
          | v :: rest' => parse_loop rest' command (set_opt f (Some v) opts)
          | [] => (command, set_opt f None opts)
          end
      end
  end.

Definition parseArgs (argv : list string) : option string * options :=
  match argv with
  | a :: rest => if startsWith a "-" then parse_loop argv None opts0
                 else parse_loop rest (Some a) opts0
  | [] => parse_loop [] None opts0
  end.

Definition newline : string := String (ascii_of_nat 10) EmptyString.

Definition helpText : string :=
  String.concat newline [
    "Usage: lea <command> [options]";
    "";
    "Global options:";
    "  --cluster <name|URL>   devnet|testnet|mainnet-beta|local|URL (default mainnet-beta)";
    "  -o, --outfile <path>   Write JSON result to a file (also printed to stdout)";
    "  --quiet                 Suppress stderr status line";
    "";
    "Output:";
    "  - stdout: decoded response as JSON only";
    "  - stderr: status line (ok, HTTP status, txId, exec, abort)";
    "";
    "Commands:";
    "  keygen                 Run the @getlea/keygen CLI (proxy)";
    "  publish-keyset         --key keyfile.json";
    "  mint                   --key minter.json --to <address|keyfile.json> --amount <uLEA>";
    "  transfer               --key sender.json --to <address|keyfile.json> --amount <uLEA>";
    "  burn                   --key account.json --amount <uLEA>";
    "  get-balance            --address <address|keyfile.json>";
    "  get-last-tx-hash       --address <address|keyfile.json>";
    "  get-allowed-mint       --address <address|keyfile.json>";
    "  get-current-supply";
    "  mint-whitelist         --key authority.json --to <address|keyfile.json> --amount <uLEA>"
  ].

Section commands.
Variable rt : runtime.

(** ** The keygen proxy *)

Definition spawnAndWait (cmd : string) (args : list string) (shell : bool) : M unit :=
  let* o := call_env (CSpawn cmd args shell)
              (fun cs => Return (rt_spawn rt cs cmd args shell)) in
  match o with
  | SpawnError e close =>
      (* [reject] settles the promise; the handler of the ['close'] event
         that follows still sets the exit code, and its [resolve] is void *)
      match close with
      | Some code => when (negb (code =? 0)) (set_exitCode code)
      | None => ret tt
      end >> throw e
  | SpawnClose (Some code) _ => when (negb (code =? 0)) (set_exitCode code)
  | SpawnClose None signal =>
      throw (Error ("Process terminated with signal "
                    ++ (if str_truthy signal then default "" signal else "UNKNOWN")))
  end.

(** [binField['lea-keygen'] || Object.values(binField)[0]], or [binField]
    itself when it is a string; [null] otherwise. *)
Definition relBin_of (binField : tree) : tree :=
  match binField with
  | TPrim (PStr s) => binField
  | TObj ps =>
      let named := default (TPrim PUndef) (prop_lookup "lea-keygen" ps) in
      if tree_truthy named then named
      else match ps with
           | (k, _) :: _ => default (TPrim PUndef) (prop_lookup k ps)
           | [] => TPrim PUndef
           end
  | TArr ts => default (TPrim PUndef) (head ts)
  | _ => TPrim PNull
  end.

(** [keygenPkg?.bin]. *)
Definition bin_field (keygenPkg : tree) : tree :=
  match keygenPkg with
  | TObj ps => default (TPrim PUndef) (prop_lookup "bin" ps)
  | _ => TPrim PUndef
  end.

(** The first [try] block of [runKeygen]; [true] stands for its [return]. *)
Definition keygen_installed (args : list string) : M bool :=
  let request := "@getlea/keygen/package.json" in
  let* pkgPath := call_env (CResolve request) (fun cs => rt_resolve rt cs request) in
  let* keygenPkg := call_env (CRequire pkgPath) (fun cs => rt_require rt cs pkgPath) in
  let relBin := relBin_of (bin_field keygenPkg) in
  if tree_truthy relBin then
    match relBin with
    | TPrim (PStr s) =>
        spawnAndWait (rt_execPath rt) (rt_binPath rt pkgPath s :: args) false >> ret true
    | _ => throw (RuntimeError "TypeError")
    end
  else ret false.

(** The second [try] block. *)
Definition keygen_on_path (args : list string) : M bool :=
  let cmd := if rt_win32 rt then "lea-keygen.cmd" else "lea-keygen" in
  spawnAndWait cmd args (rt_win32 rt) >> ret true.

Definition keygen_npx (args : list string) : M unit :=
  let npxCmd := if rt_win32 rt then "npx.cmd" else "npx" in
  spawnAndWait npxCmd ("-y" :: "@getlea/keygen" :: args) (rt_win32 rt).

Definition runKeygen (args : list string) : M unit :=
  let* done := try_catch (keygen_installed args) (fun _ => ret false) in
  if done then ret tt
  else
    let* done := try_catch (keygen_on_path args) (fun _ => ret false) in
    if done then ret tt
    else keygen_npx args.

(** ** Command handlers *)

Definition Connection (cluster : string) : M value :=
  call_env (CConnection cluster) (fun cs => rt_Connection rt cs cluster).

Definition amount_arg (amount : option string) : prim :=
  match amount with
  | Some s => PStr s
  | None => PUndef
  end.

Definition signer_arg (s : signer) : arg := ASigner (keyset s) (address s).

(** The transaction a [case] of the [switch (command)] builds before it
    reports; [None] for the [default] case. *)
Definition build_tx (connection : value) (command : string) (opts : options)
    : option (M value) :=
  let signed b :=
    let* signer := readSigner rt (o_key opts) in
    let* toAddr := resolveAddress rt (o_to opts) in
    let* amount := lift (toBigInt (amount_arg (o_amount opts))) in
    buildWithPrevHash rt connection (SystemProgram rt b)
      [signer_arg signer; AString toAddr; ABigInt amount] (address signer) in
  let query b :=
    let* addr := resolveAddress rt (o_address opts) in
    SystemProgram rt b [AString addr] in
  if String.eqb command "publish-keyset" then
    Some (let* signer := readSigner rt (o_key opts) in
          buildWithPrevHash rt connection (SystemProgram rt publishKeyset)
            [signer_arg signer] (address signer))
  else if String.eqb command "mint" then Some (signed mint)
  else if String.eqb command "transfer" then Some (signed transfer)
  else if String.eqb command "burn" then
    Some (let* signer := readSigner rt (o_key opts) in
          let* amount := lift (toBigInt (amount_arg (o_amount opts))) in
          buildWithPrevHash rt connection (SystemProgram rt burn)
            [signer_arg signer; ABigInt amount] (address signer))
  else if String.eqb command "get-balance" then Some (query getBalance)
  else if String.eqb command "get-last-tx-hash" then Some (query getLastTxHash)
  else if String.eqb command "get-allowed-mint" then Some (query getAllowedMint)
  else if String.eqb command "get-current-supply" then
    Some (SystemProgram rt getCurrentSupply [])
  else if String.eqb command "mint-whitelist" then Some (signed mintWhitelist)
  else None.

(** The body of the [switch (command)]: every case but the default builds
    its transaction and hands it to [sendAndReport]. *)
Definition handler (connection : value) (command : string) (opts : options) : M unit :=
  match build_tx connection command opts with
  | Some build =>
      let* tx := build in
      sendAndReport rt connection tx (o_outfile opts) (o_quiet opts)
  | None =>
      stderr_write (LText ("Unknown command: " ++ command ++ newline ++ newline)) >>
      stdout_write (LText (helpText ++ newline)) >>
      set_exitCode 1
  end.

(** [opts.cluster || 'mainnet-beta']. *)
Definition cluster_of (opts : options) : string :=
  if str_truthy (o_cluster opts) then default "" (o_cluster opts) else "mainnet-beta".

(** [main] past the keygen fast path. *)
Definition dispatch (argv : list string) : M unit :=
  let '(command, opts) := parseArgs argv in
  if negb (str_truthy command) || o_help opts
  then stdout_write (LText (helpText ++ newline))
  else
    let* connection := Connection (cluster_of opts) in
    try_catch (handler connection (default "" command) opts)
      (fun err =>
         when (str_truthy (o_outfile opts))
           (writeFile rt (default "" (o_outfile opts)) (LJsonError err)) >>
         stdout_write (LJsonError err) >>
         set_exitCode 1).

(** [argv[0] === 'keygen']. *)
Definition is_keygen (argv : list string) : bool :=
  match argv with
  | a :: _ => String.eqb a "keygen"
  | [] => false
  end.

Definition main (argv : list string) : M unit :=
  if is_keygen argv then runKeygen (tail argv) else dispatch argv.
End commands.

(** ** Positions in a value and in its conversion *)

(** One step down from a composite: an array index or a property name (a Map
    key). *)
Inductive step :=
| SIdx (i : nat)
| SKey (k : string).

(** The value an array, Map or object holds at a step. *)
Definition child (h : heap) (v : value) (s : step) : option value :=
  match v with
  | VRef l =>
      match deref h l, s with
      | OArray vs, SIdx i => vs !! i
      | OMap es, SKey k | OObject es, SKey k => prop_lookup k es
      | _, _ => None
      end
  | VPrim _ => None
  end.

Definition tree_child (t : tree) (s : step) : option tree :=
  match t, s with
  | TArr ts, SIdx i => ts !! i
  | TObj ps, SKey k => prop_lookup k ps
  | _, _ => None
  end.

(** The value reached from [v] along a path. *)
Fixpoint walk (h : heap) (v : value) (p : list step) : option value :=
  match p with
  | [] => Some v
  | s :: p' =>
      match child h v s with
      | Some c => walk h c p'
      | None => None
      end
  end.

Fixpoint tree_at (t : tree) (p : list step) : option tree :=
  match p with
  | [] => Some t
  | s :: p' =>
      match tree_child t s with
      | Some c => tree_at c p'
      | None => None
      end
  end.

(** The place of the property defined last under a name, counted from the
    first entry. *)
Fixpoint prop_rank {A} (k : string) (ps : list (string * A)) : option nat :=
  match ps with
  | [] => None
  | (k', _) :: r =>
      match prop_rank k r with
      | Some i => Some (S i)
      | None => if String.eqb k k' then Some O else None
      end
  end.

(** The turn of a step among the steps of a composite: elements by index,
    properties and Map entries in the order of the entries. *)
Definition step_rank (h : heap) (v : value) (s : step) : option nat :=
  match v with
  | VRef l =>
      match deref h l, s with
      | OArray vs, SIdx i => if decide (i < length vs)%nat then Some i else None
      | OMap es, SKey k | OObject es, SKey k => prop_rank k es
      | _, _ => None
      end
  | VPrim _ => None
  end.

(** The object [l] lies on the path [p] from [v], ends included. *)
Definition on_path (h : heap) (v : value) (p : list step) (l : loc) : Prop :=
  exists p1 p2, p = p1 ++ p2 /\ walk h v p1 = Some (VRef l).

(** A converted array or object, as opposed to a leaf. *)
Definition expanded (t : tree) : Prop :=
  match t with
  | TPrim _ => False
  | _ => True
  end.

Definition grows (f : gset loc -> value -> option (tree * gset loc)) : Prop :=
  forall seen v o seen', f seen v = Some (o, seen') -> seen ⊆ seen'.

Definition returns (f : gset loc -> value -> option (tree * gset loc)) (seen0 : gset loc) : Prop :=
  forall seen v, seen0 ⊆ seen -> is_Some (f seen v).

(** ** The order of the traversal *)

(** The object a value is, if it is one. *)
Definition own (v : value) : list loc :=
  match v with
  | VRef l => [l]
  | VPrim _ => []
  end.

(** The objects on the way from [v] along the path [p], ends included. *)
Fixpoint trail (h : heap) (v : value) (p : list step) : list loc :=
  own v ++
  match p with
  | [] => []
  | s :: p' =>
      match child h v s with
      | Some c => trail h c p'
      | None => []
      end
  end.

(** The object [m] stands in the value [v] at a position whose way passes no
    object twice and no object of [seen]. *)
Definition reach (h : heap) (seen : gset loc) (v : value) (m : loc) : Prop :=
  exists q, walk h v q = Some (VRef m) /\ NoDup (trail h v q) /\
            forall x, x ∈ trail h v q -> x ∉ seen.

(** The position [q] is strictly above the position [p]. *)
Definition above (q p : list step) : Prop := exists s r, p = q ++ s :: r.

(** The position [q] is to the left of the position [p]: the two part below
    a common position, and the step towards [q] takes its turn before the
    step towards [p]. *)
Definition left_of (h : heap) (v : value) (q p : list step) : Prop :=
  exists p0 v0 s1 s2 r1 r2 q' p',
    q = p0 ++ s1 :: q' /\ p = p0 ++ s2 :: p' /\ walk h v p0 = Some v0 /\
    step_rank h v0 s1 = Some r1 /\ step_rank h v0 s2 = Some r2 /\ (r1 < r2)%nat.

(** The position [q] comes before the position [p] when the value is
    traversed depth first, every composite in the order of its steps. *)
Definition earlier (h : heap) (v : value) (q p : list step) : Prop :=
  above q p \/ left_of h v q p.

(** Every object strictly above the position [p] is met there for the first
    time by a traversal that has seen the objects of [seen] when it starts:
    the object is not in [seen], and it stands at no earlier position whose
    way passes no object twice and no object of [seen]. *)
Definition opens (h : heap) (seen : gset loc) (v : value) (p : list step) : Prop :=
  forall p1 p2 l, p = p1 ++ p2 -> p2 <> [] -> walk h v p1 = Some (VRef l) ->
    (l ∉ seen) /\
    forall q, earlier h v q p1 -> NoDup (trail h v q) ->
      (forall x, x ∈ trail h v q -> x ∉ seen) -> walk h v q <> Some (VRef l).

(** The traversal comes to the position [p]: every object strictly above
    [p] stands at no earlier position whose way passes no object twice, so
    that it is met above [p] for the first time. *)
Definition traversed (h : heap) (v : value) (p : list step) : Prop :=
  forall p1 p2 l, p = p1 ++ p2 -> p2 <> [] -> walk h v p1 = Some (VRef l) ->
    forall q, earlier h v q p1 -> NoDup (trail h v q) -> walk h v q <> Some (VRef l).

(** The traversal comes to the position [p] and meets the object at [p], if
    there is one, for the first time. *)
Definition first_visit (h : heap) (v : value) (p : list step) : Prop :=
  forall p1 p2 l, p = p1 ++ p2 -> walk h v p1 = Some (VRef l) ->
    forall q, earlier h v q p1 -> NoDup (trail h v q) -> walk h v q <> Some (VRef l).

(** No step of the path is the name [__proto__]. *)
Definition no_proto (p : list step) : bool :=
  forallb (fun s => match s with
                    | SKey k => negb (String.eqb k "__proto__")
                    | SIdx _ => true
                    end) p.

Fixpoint distinct (ks : list string) : bool :=
  match ks with
  | [] => true
  | k :: r => negb (existsb (String.eqb k) r) && distinct r
  end.

(** The names of the properties of every object, and the keys of every Map,
    are pairwise different. *)
Definition distinct_names (h : heap) : bool :=
  forallb (fun e => match e.2 with
                    | OObject es | OMap es => distinct (es.*1)
                    | _ => true
                    end) (map_to_list h).

(** A function on values that puts in the seen set only objects standing in
    the value it is given, at positions it comes to. *)
Definition marks_reached (h : heap) (f : gset loc -> value -> option (tree * gset loc)) : Prop :=
  forall seen v o seen', f seen v = Some (o, seen') ->
    forall m, m ∈ seen' -> m ∈ seen \/ reach h seen v m.

(** What is seen when the element at index [i] of a list takes its turn: what
    was seen when the list was begun, and objects standing in the elements
    before it. *)
Definition list_turn (h : heap) (vs : list value) (seen : gset loc) (i : nat)
    (sc : gset loc) : Prop :=
  forall m, m ∈ sc ->
    m ∈ seen \/ exists j cj, (j < i)%nat /\ vs !! j = Some cj /\ reach h seen cj m.

(** What is seen when the step [s] of the object [l] takes its turn: the
    object itself, what was seen before it, and objects standing under the
    steps before [s]. *)
Definition step_turn (h : heap) (seen : gset loc) (l : loc) (s : step)
    (sc : gset loc) : Prop :=
  forall m, m ∈ sc ->
    m = l \/ m ∈ seen \/
    exists s' c' r' r,
      child h (VRef l) s' = Some c' /\ step_rank h (VRef l) s' = Some r' /\
      step_rank h (VRef l) s = Some r /\ (r' < r)%nat /\ reach h ({[l]} ∪ seen) c' m.

(** The conversion of the object [l] in full: a typed array or a DataView as
    the array of its elements, an array as an array of the same length, a
    Map or an object as an object with the names of its entries, the name
    [__proto__] left out. *)
Definition full_shape (h : heap) (l : loc) (t : tree) : Prop :=
  match deref h l with
  | OTyped k bs => t = TArr (map TPrim (typed_elems k bs))
  | ODataView bs => t = TArr (map TPrim (view_bytes bs))
  | OArray vs => exists ts, t = TArr ts /\ length ts = length vs
  | OMap es | OObject es =>
      exists ps, t = TObj ps /\ forall k, k ∈ (ps.*1) <-> k ∈ (es.*1) /\ k <> "__proto__"
  end.

(** An unsigned byte value: an integer between 0 and 255. *)
Definition byte_tree (t : tree) : Prop :=
  exists z, t = TPrim (PNum (NInt z)) /\ 0 <= z <= 255.

(** [serialize(toBigInt(s))]. *)
Definition serialize_parsed (h : heap) (s : string) : option tree :=
  match toBigInt (PStr s) with
  | Return z => serialize h (VPrim (PBigInt z))
  | Throw _ => None
  end.

Fixpoint all_chars (P : ascii -> bool) (s : string) : bool :=
  match s with
  | EmptyString => true
  | String c r => P c && all_chars P r
  end.

Definition is_digit (c : ascii) : bool :=
  let n := nat_of_ascii c in ((48 <=? n) && (n <=? 57))%nat.

(** The characters of a decimal integer. *)
Definition sign_or_digit (c : ascii) : bool := is_digit c || Ascii.eqb c "-".

(** ** Stores used as examples *)

(** [const a = {}; a.self = a]. *)
Definition heap_self_cycle : heap :=
  <[0%nat := OObject [("self", VRef 0%nat)]]> ∅.

(** [const x = []; const r = { a: x, b: x }]: shared, no cycle. *)
Definition heap_shared : heap :=
  <[0%nat := OObject [("a", VRef 1%nat); ("b", VRef 1%nat)]]> (<[1%nat := OArray []]> ∅).

(** [m = new Map(); m.set('__proto__', m)]. *)
Definition heap_proto_cycle : heap := <[0%nat := OMap [("__proto__", VRef 0%nat)]]> ∅.

(** [[y, y]] for an empty array [y]. *)
Definition heap_twice : heap :=
  <[0%nat := OArray [VRef 1%nat; VRef 1%nat]]> (<[1%nat := OArray []]> ∅).

(** [new Int8Array([-1])]. *)
Definition heap_int8 : heap := <[0%nat := OTyped Int8 [Byte.xff]]> ∅.

(** [new Uint8Array([1, 255])] and a [DataView] on the same bytes. *)
Definition heap_uint8 : heap :=
  <[0%nat := OTyped Uint8 [Byte.x01; Byte.xff]]> (<[1%nat := ODataView [Byte.x01; Byte.xff]]> ∅).

(** The bytes a [Uint8Array] holds. *)
Definition u8_bytes (h : heap) (p : u8array) : list Byte.byte :=
  match p with
  | U8Same l =>
      match deref h l with
      | OTyped Uint8 bs => bs
      | _ => []
      end
  | U8New bs => bs
  end.

(** The status a POSIX parent reads when the process has exited with a code:
    its low eight bits. *)
Definition wait_status (code : Z) : Z := code mod 256.

(** The calls a run adds to those made before it. *)
Definition new_calls (w w' : world) : list call := drop (length (w_calls w)) (w_calls w').

(** A child process that ended with an exit code, without an error: its
    promise is resolved. *)
Definition exited (o : spawn_outcome) : bool :=
  match o with
  | SpawnClose (Some _) _ => true
  | _ => false
  end.

(** The calls the prefetch makes: the query builder, the send, and a
    user-defined [get]. *)
Definition prefetch_call (c : call) : Prop :=
  match c with
  | CBuild getLastTxHash [AString _] | CSend _ _ | CApply _ _ _ => True
  | _ => False
  end.

(** What [spawnAndWait] settles with, and the exit code it leaves, for an
    outcome of the child. *)
Definition spawn_result (o : spawn_outcome) : completion unit :=
  match o with
  | SpawnError e _ => Throw e
  | SpawnClose (Some _) _ => Return tt
  | SpawnClose None signal =>
      Throw (Error ("Process terminated with signal "
                    ++ (if str_truthy signal then default "" signal else "UNKNOWN")))
  end.

Definition spawn_exitCode (o : spawn_outcome) (old : option Z) : option Z :=
  match o with
  | SpawnClose (Some code) _ | SpawnError _ (Some code) => if code =? 0 then old else Some code
  | _ => old
  end.

(** The exit code that the children spawned by the calls [cs], made after
    the calls [before], leave one after the other. *)
Fixpoint close_codes (rt : runtime) (before cs : list call) (old : option Z) : option Z :=
  match cs with
  | [] => old
  | c :: cs' =>
      close_codes rt (before ++ [c]) cs'
        match c with
        | CSpawn cmd args shell => spawn_exitCode (rt_spawn rt before cmd args shell) old
        | _ => old
        end
  end.

(** The calls made so far end with a spawn whose child exited. *)
Definition last_child_exited (rt : runtime) (calls : list call) : bool :=
  match reverse calls with
  | CSpawn cmd args shell :: before => exited (rt_spawn rt (reverse before) cmd args shell)
  | _ => false
  end.

(** The first call of the first tier, and the calls of the second and third
    tiers of the keygen proxy. *)
Definition tier1_call : call := CResolve "@getlea/keygen/package.json".

Definition tier2_call (rt : runtime) (args : list string) : call :=
  CSpawn (if rt_win32 rt then "lea-keygen.cmd" else "lea-keygen") args (rt_win32 rt).

Definition tier3_call (rt : runtime) (args : list string) : call :=
  CSpawn (if rt_win32 rt then "npx.cmd" else "npx") ("-y" :: "@getlea/keygen" :: args)
    (rt_win32 rt).

(** The executable the keygen package declares: [relBin], when it is truthy
    and a string. *)
Definition keygen_bin (keygenPkg : tree) : option string :=
  let relBin := relBin_of (bin_field keygenPkg) in
  if tree_truthy relBin then
    match relBin with
    | TPrim (PStr s) => Some s
    | _ => None
    end
  else None.

(** The last call of the first tier: Node on the executable of the package,
    without a shell. *)
Definition tier1_spawn (rt : runtime) (pkgPath relBin : string) (args : list string) : call :=
  CSpawn (rt_execPath rt) (rt_binPath rt pkgPath relBin :: args) false.

(** The world after the calls [cs], with the exit code [code]. *)
Definition ran (w : world) (cs : list call) (code : option Z) : world :=
  {| w_calls := w_calls w ++ cs; w_stdout := w_stdout w; w_stderr := w_stderr w;
     w_exitCode := code |}.

(** A step that changes the exit code only through the children it spawns. *)
Definition tracked (rt : runtime) {A} (m : M A) : Prop :=
  forall w, exists cs,
    w_calls (m w).2 = w_calls w ++ cs /\
    w_exitCode (m w).2 = close_codes rt (w_calls w) cs (w_exitCode w).

(** The answer of the environment to a spawn. *)
Definition spawn_answer (rt : runtime) (cs : list call) (c : call) : spawn_outcome :=
  match c with
  | CSpawn cmd args shell => rt_spawn rt cs cmd args shell
  | _ => SpawnError (Error "not a spawn") None
  end.

(** A step that leaves the streams and the exit code alone. *)
Definition silent {A} (m : M A) : Prop :=
  forall w, w_stdout (m w).2 = w_stdout w /\ w_stderr (m w).2 = w_stderr w /\
            w_exitCode (m w).2 = w_exitCode w.

(** ** Environments used as examples *)

(** A response without history: [{ ok: false, status: 400 }]. *)
Definition heap_not_ok : heap :=
  <[0%nat := OObject [("ok", VPrim (PBool false)); ("status", VPrim (PNum (NInt 400)))]]> ∅.

(** A response whose decoded Map holds a 32-byte [lastTxHash] under the base
    pod. *)
Definition heap_found : heap :=
  <[0%nat := OObject [("ok", VPrim (PBool true)); ("status", VPrim (PNum (NInt 200)));
                      ("decoded", VRef 1%nat)]]>
  (<[1%nat := OMap [(BASE_POD_HEX, VRef 2%nat)]]>
  (<[2%nat := OObject [("lastTxHash", VRef 3%nat)]]>
  (<[3%nat := OTyped Uint8 (replicate 32%nat Byte.x07)]> ∅))).

(** A rejected response whose decoded body is a [BigInt64Array]. *)
Definition heap_bigint64 : heap :=
  <[0%nat := OObject [("ok", VPrim (PBool false)); ("decoded", VRef 1%nat)]]>
  (<[1%nat := OTyped BigInt64 (replicate 8%nat Byte.x01)]> ∅).

(** An environment whose sends all answer [res], whose file writes all end
    as [write], and whose children end as [spawn] says; no keygen package is
    installed. *)
Definition rt_example (h : heap) (res : completion value) (write : completion unit)
    (spawn : string -> spawn_outcome) : runtime :=
  {| rt_heap := h; rt_win32 := false; rt_execPath := "node";
     rt_binPath := fun _ rel => rel;
     rt_Connection := fun _ _ => Return (VPrim (PStr "connection"));
     rt_build := fun _ _ _ => Return (VPrim (PStr "tx"));
     rt_send := fun _ _ _ => res;
     rt_apply := fun _ _ _ _ => Return undefined;
     rt_readJson := fun _ _ =>
       Return (TObj [("address", TPrim (PStr "lea1abc")); ("keyset", TArr [])]);
     rt_writeFile := fun _ _ _ => write;
     rt_resolve := fun _ _ => Throw (Error "Cannot find module");
     rt_require := fun _ _ => Throw (Error "Cannot find module");
     rt_spawn := fun _ cmd _ _ => spawn cmd |}.

Definition spawn_ok (cmd : string) : spawn_outcome := SpawnClose (Some 0) None.

Definition rt_not_ok : runtime := rt_example heap_not_ok (Return (VRef 0%nat)) (Return tt) spawn_ok.

Definition rt_found : runtime := rt_example heap_found (Return (VRef 0%nat)) (Return tt) spawn_ok.

(** The outfile cannot be written. *)
Definition rt_unwritable : runtime :=
  rt_example heap_not_ok (Return (VRef 0%nat)) (Throw (Error "EACCES")) spawn_ok.

Definition rt_bigint64 : runtime :=
  rt_example heap_bigint64 (Return (VRef 0%nat)) (Return tt) spawn_ok.

(** [lea-keygen] is on the PATH and exits with code 2. *)
Definition rt_child_exit2 : runtime :=
  rt_example ∅ (Return undefined) (Return tt) (fun _ => SpawnClose (Some 2) None).

(** No [lea-keygen] on the PATH: the spawn fails with [ENOENT], and the
    ['close'] event after the error carries [-2]; [npx] runs the tool. *)
Definition rt_npx_only : runtime :=
  rt_example ∅ (Return undefined) (Return tt)
    (fun cmd => if String.eqb cmd "npx" then SpawnClose (Some 0) None
                else SpawnError (Error "spawn lea-keygen ENOENT") (Some (-2))).

(** The child run by [npx] is killed by a signal. *)
Definition rt_killed : runtime :=
  rt_example ∅ (Return undefined) (Return tt)
    (fun cmd => if String.eqb cmd "npx" then SpawnClose None (Some "SIGKILL")
                else SpawnError (Error "spawn lea-keygen ENOENT") (Some (-2))).

(** * Further definitions *)

(** ** mapToObject *)

(** [obj[k] = v] on an object made by [Object.create(null)]; the properties
    are listed in the order of their creation, which is the order of their
    enumeration when no name is an array index. *)
Fixpoint assign {A} (k : string) (v : A) (o : list (string * A)) : list (string * A) :=
  match o with
  | [] => [(k, v)]
  | (k', v') :: r => if String.eqb k k' then (k, v) :: r else (k', v') :: assign k v r
  end.

(** [mapToObject(m)] for the entries of the Map [m]. *)
Definition mapToObject {A} (entries : list (string * A)) : list (string * A) :=
  fold_left (fun obj e => assign e.1 e.2 obj) entries [].

(** A property name that is an array index: the canonical decimal text of an
    integer from 0 to 2^32 - 2.  The language enumerates such names first, in
    ascending order, whatever the order of their creation. *)
Definition array_index (k : string) : bool :=
  match parse_decimal k with
  | Some z => (z <=? 4294967294) && String.eqb (BigInt_toString z) k
  | None => false
  end.

(** None of the names of the entries is an array index. *)
Definition no_index_names {A} (es : list (string * A)) : bool :=
  forallb (fun e => negb (array_index e.1)) es.

(** ** Further vocabulary *)

(** The typed arrays whose elements are BigInts. *)
Definition bigint_array (ob : obj) : bool :=
  match ob with
  | OTyped BigInt64 _ | OTyped BigUint64 _ => true
  | _ => false
  end.

(** No object of the store is a [BigInt64Array] or a [BigUint64Array]. *)
Definition no_bigint_arrays (h : heap) : bool :=
  forallb (fun e => negb (bigint_array e.2)) (map_to_list h).

(** What [conv] returns for a primitive. *)
Definition conv_prim (p : prim) : prim :=
  match p with
  | PBigInt z => PStr (BigInt_toString z)
  | _ => p
  end.

(** The option a flag of the command line sets: the value of a flag that
    takes one, and the state of a switch. *)
Definition opt_value (f : flag) (o : options) : option string :=
  match f with
  | FCluster => o_cluster o
  | FKey => o_key o
  | FTo => o_to o
  | FAmount => o_amount o
  | FAddress => o_address o
  | FOutfile => o_outfile o
  | _ => None
  end.

Definition opt_switch (f : flag) (o : options) : bool :=
  match f with
  | FQuiet => o_quiet o
  | FHelp => o_help o
  | _ => false
  end.

(** [s.includes(t)]. *)
Definition includes (s t : string) : bool :=
  match String.index 0 t s with
  | Some _ => true
  | None => false
  end.

(** The commands with a [case] of their own in [main]. *)
Definition known_commands : list string :=
  ["publish-keyset"; "mint"; "transfer"; "burn"; "get-balance"; "get-last-tx-hash";
   "get-allowed-mint"; "get-current-supply"; "mint-whitelist"].

(** The commands that read an amount. *)
Definition amount_commands : list string := ["mint"; "transfer"; "burn"; "mint-whitelist"].

(** The read-only queries. *)
Definition query_commands : list string :=
  ["get-balance"; "get-last-tx-hash"; "get-allowed-mint"; "get-current-supply"].

Definition is_read (c : call) : bool :=
  match c with
  | CReadJson _ => true
  | _ => false
  end.

Definition is_send (c : call) : bool :=
  match c with
  | CSend _ _ => true
  | _ => false
  end.

(** A call the keygen proxy makes for the arguments [args]: locating the
    package, or a spawn whose arguments end with [args], through a shell on
    Windows only. *)
Definition keygen_call (rt : runtime) (args : list string) (c : call) : Prop :=
  match c with
  | CResolve _ | CRequire _ => True
  | CSpawn _ a shell => (exists pre, a = pre ++ args) /\ (shell = true -> rt_win32 rt = true)
  | _ => False
  end.

(** The world after writing the help text. *)
Definition help_printed (w : world) : world :=
  {| w_calls := w_calls w; w_stdout := w_stdout w ++ [LText (helpText ++ newline)];
     w_stderr := w_stderr w; w_exitCode := w_exitCode w |}.

(** An array of 32 byte values as [lastTxHash]. *)
Definition heap_array32 : heap :=
  <[0%nat := OArray (replicate 32%nat (VPrim (PNum (NInt 7))))]> ∅.

Definition rt_array32 : runtime :=
  rt_example heap_array32 (Return undefined) (Return tt) spawn_ok.

(** Every send fails. *)
Definition rt_offline : runtime :=
  rt_example ∅ (Throw (Error "ECONNREFUSED")) (Return tt) spawn_ok.

(** A response [{ ok: true, status: 200, decoded: { balance: 5n } }]. *)
Definition heap_ok : heap :=
  <[0%nat := OObject [("ok", VPrim (PBool true)); ("status", VPrim (PNum (NInt 200)));
                      ("decoded", VRef 1%nat)]]>
  (<[1%nat := OObject [("balance", VPrim (PBigInt 5))]]> ∅).

Definition rt_ok : runtime := rt_example heap_ok (Return (VRef 0%nat)) (Return tt) spawn_ok.

(** [new Map([['a', y], ['__proto__', y], ['b', y]])] for an empty array
    [y]. *)
Definition heap_proto : heap :=
  <[0%nat := OMap [("a", VRef 1%nat); ("__proto__", VRef 1%nat); ("b", VRef 1%nat)]]>
  (<[1%nat := OArray []]> ∅).

(** A [Uint16Array] and the array of its elements. *)
Definition heap_uint16 : heap :=
  <[0%nat := OTyped Uint16 [Byte.x00; Byte.x01]]>
  (<[1%nat := OArray [VPrim (PNum (NInt 256))]]> ∅).

(** The keygen package is installed, with its executable named in [bin]. *)
Definition rt_installed : runtime :=
  {| rt_heap := ∅; rt_win32 := false; rt_execPath := "node";
     rt_binPath := fun _ rel => rel;
     rt_Connection := fun _ _ => Return (VPrim (PStr "connection"));
     rt_build := fun _ _ _ => Return (VPrim (PStr "tx"));
     rt_send := fun _ _ _ => Return undefined;
     rt_apply := fun _ _ _ _ => Return undefined;
     rt_readJson := fun _ _ => Return (TObj []);
     rt_writeFile := fun _ _ _ => Return tt;
     rt_resolve := fun _ _ => Return "node_modules/@getlea/keygen/package.json";
     rt_require := fun _ _ =>
       Return (TObj [("name", TPrim (PStr "@getlea/keygen"));
                     ("bin", TObj [("keygen", TPrim (PStr "dist/old.js"));
                                   ("lea-keygen", TPrim (PStr "dist/cli.js"))])]);
     rt_spawn := fun _ _ _ _ => SpawnClose (Some 3) None |}.

(** A step whose calls all satisfy [P]; the calls made before it stay. *)
Definition only (P : call -> Prop) {A} (m : M A) : Prop :=
  forall w, exists cs, w_calls (m w).2 = w_calls w ++ cs /\ Forall P cs.

(** The calls of a transaction command once it has its connection: it
    opens no other, writes no file but the outfile, and neither loads a module
    nor starts a process. *)
Definition client_call (outfile : option string) (c : call) : Prop :=
  match c with
  | CWriteFile p _ => str_truthy outfile = true /\ p = default "" outfile
  | CConnection _ | CSpawn _ _ _ | CResolve _ | CRequire _ => False
  | _ => True
  end.

(** The builder of the commands that take a signer, a recipient and an
    amount. *)
Definition signed_builder (command : string) : option builder :=
  if String.eqb command "mint" then Some mint
  else if String.eqb command "transfer" then Some transfer
  else if String.eqb command "mint-whitelist" then Some mintWhitelist
  else None.

(** * Properties *)

Example StringToBigInt_examples :
  StringToBigInt "  42 " = Some 42 /\ StringToBigInt "-17" = Some (-17) /\
  StringToBigInt "0xfF" = Some 255 /\ StringToBigInt "0b102" = None /\
  StringToBigInt "" = Some 0 /\ StringToBigInt "-0x10" = None /\
  StringToBigInt "+" = None /\ StringToBigInt "007" = Some 7 /\
  toBigInt (PStr "1000000n") = Return 1000000 /\
  endsWith "ab.json" ".json" = true /\ drop_last "abc" = "ab" /\
  isJsonPath "Key.JSON" = true /\ isJsonPath "json" = false.
Proof. vm_compute. repeat split. Qed.

Example typed_elems_examples :
  typed_elems Int8 [Byte.xff; Byte.x01] = [PNum (NInt (-1)); PNum (NInt 1)] /\
  typed_elems Uint16 [Byte.x00; Byte.x01; Byte.x07] = [PNum (NInt 256)] /\
  typed_elems Float32 [Byte.x00; Byte.x00; Byte.x80; Byte.x3f] = [PNum (NInt 1)] /\
  typed_elems Float64 [Byte.x00; Byte.x00; Byte.x00; Byte.x00; Byte.x00; Byte.x00; Byte.xf8; Byte.xbf]
    = [PNum (NFrac true 6755399441055744 (-52))] /\
  typed_elems BigInt64 [Byte.xfe; Byte.xff; Byte.xff; Byte.xff; Byte.xff; Byte.xff; Byte.xff; Byte.xff]
    = [PBigInt (-2)].
Proof. vm_compute. repeat split. Qed.

Example serialize_examples :
  serialize heap_self_cycle (VRef 0%nat) = Some (TObj [("self", sentinel)]) /\
  serialize heap_shared (VRef 0%nat) = Some (TObj [("a", TArr []); ("b", sentinel)]) /\
  serialize heap_int8 (VRef 0%nat) = Some (TArr [TPrim (PNum (NInt (-1)))]) /\
  serialize heap_uint8 (VRef 1%nat) = Some (TArr [TPrim (PNum (NInt 1)); TPrim (PNum (NInt 255))]).
Proof. vm_compute. repeat split. Qed.

(** ** serialize: the seen set only grows *)

Section conv_facts.
Variable h : heap.

Lemma conv_list_grows f vs seen os seen' :
  grows f -> conv_list f vs seen = Some (os, seen') -> seen ⊆ seen'.
Proof.
  intros Hf. revert seen os seen'.
  induction vs as [|v r IH]; simpl; intros seen os seen' H.
  - by inversion H.
  - destruct (f seen v) as [[o s1]|] eqn:E1; [|done].
    destruct (conv_list f r s1) as [[os' s2]|] eqn:E2; [|done].
    inversion H; subst. apply Hf in E1. apply IH in E2. set_solver.
Qed.

Lemma conv_props_grows f es acc seen ps seen' :
  grows f -> conv_props f es acc seen = Some (ps, seen') -> seen ⊆ seen'.
Proof.
  intros Hf. revert acc seen.
  induction es as [|[k v] r IH]; simpl; intros acc seen H.
  - by inversion H.
  - destruct (f seen v) as [[o s1]|] eqn:E1; [|done].
    apply Hf in E1. apply IH in H. set_solver.
Qed.

Lemma conv_grows n : grows (conv h n).
Proof.
  induction n as [|n IH]; intros seen v o seen' H; simpl in H; [done|].
  destruct v as [p|l].
  - destruct p; by inversion H.
  - destruct (decide (l ∈ seen)); [by inversion H|].
    destruct (deref h l) as [k bs|bs|es|vs|es].
    + inversion H. set_solver.
    + inversion H. set_solver.
    + destruct (conv_props _ _ _ _) as [[ps s]|] eqn:E; [|done].
      inversion H; subst. apply conv_props_grows in E; [set_solver|done].
    + destruct (conv_list _ _ _) as [[os s]|] eqn:E; [|done].
      inversion H; subst. apply conv_list_grows in E; [set_solver|done].
    + destruct (conv_props _ _ _ _) as [[ps s]|] eqn:E; [|done].
      inversion H; subst. apply conv_props_grows in E; [set_solver|done].
Qed.

(** Whatever [conv] is given is in the seen set afterwards. *)
Lemma conv_marks n seen l o seen' :
  conv h n seen (VRef l) = Some (o, seen') -> l ∈ seen'.
Proof.
  destruct n as [|n]; simpl; [done|]. intros H.
  destruct (decide (l ∈ seen)); [by inversion H; subst|].
  destruct (deref h l) as [k bs|bs|es|vs|es].
  - inversion H. set_solver.
  - inversion H. set_solver.
  - destruct (conv_props _ _ _ _) as [[ps s]|] eqn:E; [|done].
    inversion H; subst. apply conv_props_grows in E; [set_solver|apply conv_grows].
  - destruct (conv_list _ _ _) as [[os s]|] eqn:E; [|done].
    inversion H; subst. apply conv_list_grows in E; [set_solver|apply conv_grows].
  - destruct (conv_props _ _ _ _) as [[ps s]|] eqn:E; [|done].
    inversion H; subst. apply conv_props_grows in E; [set_solver|apply conv_grows].
Qed.

(** A seen object is not converted again. *)
Lemma conv_seen n seen l o seen' :
  l ∈ seen -> conv h n seen (VRef l) = Some (o, seen') -> o = sentinel /\ seen' = seen.
Proof.
  destruct n as [|n]; simpl; [done|]. intros Hl H.
  destruct (decide (l ∈ seen)); [by inversion H|done].
Qed.

(** ** serialize: a deeper bound changes nothing *)

Lemma conv_list_ext (f g : gset loc -> value -> option (tree * gset loc)) vs seen r :
  (forall seen v r, f seen v = Some r -> g seen v = Some r) ->
  conv_list f vs seen = Some r -> conv_list g vs seen = Some r.
Proof.
  intros Hfg. revert seen r.
  induction vs as [|v vs IH]; simpl; intros seen r H; [done|].
  destruct (f seen v) as [[o s1]|] eqn:E1; [|done]. rewrite (Hfg _ _ _ E1).
  destruct (conv_list f vs s1) as [[os s2]|] eqn:E2; [|done]. by rewrite (IH _ _ E2).
Qed.

Lemma conv_props_ext (f g : gset loc -> value -> option (tree * gset loc)) es acc seen r :
  (forall seen v r, f seen v = Some r -> g seen v = Some r) ->
  conv_props f es acc seen = Some r -> conv_props g es acc seen = Some r.
Proof.
  intros Hfg. revert acc seen.
  induction es as [|[k v] es IH]; simpl; intros acc seen H; [done|].
  destruct (f seen v) as [[o s1]|] eqn:E1; [|done]. rewrite (Hfg _ _ _ E1). by apply IH.
Qed.

Lemma conv_more_fuel n m seen v r :
  (n <= m)%nat -> conv h n seen v = Some r -> conv h m seen v = Some r.
Proof.
  revert m seen v r. induction n as [|n IH]; intros m seen v r Hnm H; [done|].
  destruct m as [|m]; [lia|]. simpl in *.
  assert (Hfg : forall seen v r, conv h n seen v = Some r -> conv h m seen v = Some r).
  { intros ? ? ?. apply IH. lia. }
  destruct v as [p|l]; [done|].
  destruct (decide (l ∈ seen)); [done|].
  destruct (deref h l) as [k bs|bs|es|vs|es]; try done.
  - destruct (conv_props (conv h n) _ _ _) as [[ps s]|] eqn:E; [|done].
    by rewrite (conv_props_ext _ _ _ _ _ _ Hfg E).
  - destruct (conv_list (conv h n) _ _) as [[os s]|] eqn:E; [|done].
    by rewrite (conv_list_ext _ _ _ _ _ Hfg E).
  - destruct (conv_props (conv h n) _ _ _) as [[ps s]|] eqn:E; [|done].
    by rewrite (conv_props_ext _ _ _ _ _ _ Hfg E).
Qed.

(** ** serialize: enough fuel *)

Lemma conv_list_returns f vs seen0 seen :
  grows f -> returns f seen0 -> seen0 ⊆ seen -> is_Some (conv_list f vs seen).
Proof.
  intros Hg Hf. revert seen.
  induction vs as [|v r IH]; simpl; intros seen Hs; [by eexists|].
  destruct (Hf seen v Hs) as [[o s1] E1]. rewrite E1.
  destruct (IH s1) as [[os s2] E2]; [apply Hg in E1; set_solver|].
  rewrite E2. by eexists.
Qed.

Lemma conv_props_returns f es acc seen0 seen :
  grows f -> returns f seen0 -> seen0 ⊆ seen -> is_Some (conv_props f es acc seen).
Proof.
  intros Hg Hf. revert acc seen.
  induction es as [|[k v] r IH]; simpl; intros acc seen Hs; [by eexists|].
  destruct (Hf seen v Hs) as [[o s1] E1]. rewrite E1.
  apply IH. apply Hg in E1. set_solver.
Qed.

Lemma conv_returns n seen v :
  (size (dom h ∖ seen) < n)%nat -> is_Some (conv h n seen v).
Proof.
  revert seen v. induction n as [|n IH]; intros seen v Hn; [lia|]. simpl.
  destruct v as [p|l]; [destruct p; by eexists|].
  destruct (decide (l ∈ seen)) as [|Hl]; [by eexists|].
  unfold deref. destruct (h !! l) as [o|] eqn:El; simpl; [|by eexists].
  assert (Hret : returns (conv h n) ({[l]} ∪ seen)).
  { intros s v Hs. apply IH.
    apply Nat.lt_le_trans with (size (dom h ∖ seen)); [|lia].
    apply subset_size. apply elem_of_dom_2 in El. set_solver. }
  destruct o as [k bs|bs|es|vs|es]; try by eexists.
  - destruct (conv_props_returns (conv h n) es [] _ ({[l]} ∪ seen) (conv_grows n) Hret)
      as [[ps s] E]; [done|]. rewrite E. by eexists.
  - destruct (conv_list_returns (conv h n) vs _ ({[l]} ∪ seen) (conv_grows n) Hret)
      as [[ps s] E]; [done|]. rewrite E. by eexists.
  - destruct (conv_props_returns (conv h n) es [] _ ({[l]} ∪ seen) (conv_grows n) Hret)
      as [[ps s] E]; [done|]. rewrite E. by eexists.
Qed.

(** The result does not depend on the bound, once the bound is large enough. *)
Lemma serialize_any_fuel n v :
  (size (dom h) < n)%nat -> fst <$> conv h n ∅ v = serialize h v.
Proof.
  intros Hn. unfold serialize.
  destruct (conv_returns (S (size (dom h))) ∅ v) as [r E].
  - apply Nat.lt_succ_r, subseteq_size. set_solver.
  - rewrite E. by rewrite (conv_more_fuel (S (size (dom h))) n _ _ _ ltac:(lia) E).
Qed.

Lemma serialize_returns v : is_Some (serialize h v).
Proof.
  unfold serialize.
  destruct (conv_returns (S (size (dom h))) ∅ v) as [[o s] E].
  - apply Nat.lt_succ_r, subseteq_size. set_solver.
  - rewrite E. by eexists.
Qed.
End conv_facts.

(** ** Property lists *)

Lemma prop_lookup_absent {A} k (ps : list (string * A)) :
  k ∉ (ps.*1) -> prop_lookup k ps = None.
Proof.
  induction ps as [|[k' v] r IH]; simpl; [done|]. intros Hk.
  rewrite IH by set_solver.
  destruct (String.eqb_spec k k'); [set_solver|done].
Qed.

Lemma set_own_keys k v acc k' :
  k' ∈ ((set_own k v acc).*1) <-> k' = k \/ k' ∈ (acc.*1).
Proof.
  induction acc as [|[k0 v0] r IH]; simpl; [set_solver|].
  destruct (String.eqb_spec k k0); simpl; set_solver.
Qed.

Lemma set_own_NoDup k v acc : NoDup (acc.*1) -> NoDup ((set_own k v acc).*1).
Proof.
  induction acc as [|[k0 v0] r IH]; simpl; intros Hnd.
  - repeat constructor. set_solver.
  - inversion Hnd as [|? ? Hk0 Hr]; subst.
    destruct (String.eqb_spec k k0); simpl; [by subst; constructor|].
    constructor; [|by apply IH].
    rewrite set_own_keys. naive_solver.
Qed.

Lemma prop_lookup_set_own_eq k v acc :
  NoDup (acc.*1) -> prop_lookup k (set_own k v acc) = Some v.
Proof.
  induction acc as [|[k0 v0] r IH]; simpl; intros Hnd.
  - by rewrite String.eqb_refl.
  - inversion Hnd as [|? ? Hk0 Hr]; subst.
    destruct (String.eqb_spec k k0); simpl.
    + subst. rewrite prop_lookup_absent by done. by rewrite String.eqb_refl.
    + by rewrite IH.
Qed.

Lemma prop_lookup_set_own_ne k k' v acc :
  k <> k' -> prop_lookup k' (set_own k v acc) = prop_lookup k' acc.
Proof.
  intros Hne. induction acc as [|[k0 v0] r IH]; simpl.
  - destruct (String.eqb_spec k' k); [congruence|done].
  - destruct (String.eqb_spec k k0); simpl; [|by rewrite IH].
    subst. destruct (prop_lookup k' r); [done|].
    destruct (String.eqb_spec k' k0); [congruence|done].
Qed.

(** The names after an assignment: the name assigned to, unless it is
    [__proto__], and the names there were. *)
Lemma set_prop_keys k v acc k' :
  k' ∈ ((set_prop k v acc).*1) <-> (k' = k /\ k <> "__proto__") \/ k' ∈ (acc.*1).
Proof.
  unfold set_prop. destruct (String.eqb_spec k "__proto__") as [->|Hk].
  - naive_solver.
  - rewrite set_own_keys. naive_solver.
Qed.

Lemma set_prop_NoDup k v acc : NoDup (acc.*1) -> NoDup ((set_prop k v acc).*1).
Proof.
  unfold set_prop. destruct (String.eqb k "__proto__"); [done|apply set_own_NoDup].
Qed.

Lemma prop_lookup_set_eq k v acc :
  k <> "__proto__" -> NoDup (acc.*1) -> prop_lookup k (set_prop k v acc) = Some v.
Proof.
  unfold set_prop. destruct (String.eqb_spec k "__proto__"); [done|].
  intros _. apply prop_lookup_set_own_eq.
Qed.

Lemma prop_lookup_set_ne k k' v acc :
  k <> k' -> prop_lookup k' (set_prop k v acc) = prop_lookup k' acc.
Proof.
  unfold set_prop. destruct (String.eqb k "__proto__"); [done|].
  apply prop_lookup_set_own_ne.
Qed.

(** No assignment gives the result a property named [__proto__]. *)
Lemma prop_lookup_set_proto k v acc :
  prop_lookup "__proto__" (set_prop k v acc) = prop_lookup "__proto__" acc.
Proof.
  destruct (String.eqb_spec k "__proto__") as [->|Hk].
  - unfold set_prop. by rewrite String.eqb_refl.
  - by apply prop_lookup_set_ne.
Qed.

(** ** serialize: what stands at a position of the result *)

Section conv_positions.
Variable h : heap.

(** The converted element at an index is the conversion of the element,
    started from a seen set that contains the one the loop started from. *)
Lemma conv_list_lookup f vs seen os seen' i c :
  grows f -> conv_list f vs seen = Some (os, seen') -> vs !! i = Some c ->
  exists oc sc sc', os !! i = Some oc /\ f sc c = Some (oc, sc') /\ seen ⊆ sc /\ sc' ⊆ seen'.
Proof.
  intros Hf. revert seen os i.
  induction vs as [|v r IH]; simpl; intros seen os i H Hi; [done|].
  destruct (f seen v) as [[o s1]|] eqn:E1; [|done].
  destruct (conv_list f r s1) as [[os' s2]|] eqn:E2; [|done].
  inversion H; subst; clear H.
  destruct i as [|i]; simpl in Hi.
  - inversion Hi; subst. exists o, seen, s1. repeat split; [done..|].
    by eapply conv_list_grows.
  - destruct (IH _ _ _ E2 Hi) as (oc & sc & sc' & ? & ? & ? & ?).
    exists oc, sc, sc'. repeat split; [done..| |done].
    apply Hf in E1. set_solver.
Qed.

Lemma conv_props_lookup f es acc seen ps seen' k :
  grows f -> NoDup (acc.*1) -> conv_props f es acc seen = Some (ps, seen') ->
  k <> "__proto__" ->
  match prop_lookup k es with
  | Some c => exists oc sc sc',
      prop_lookup k ps = Some oc /\ f sc c = Some (oc, sc') /\ seen ⊆ sc /\ sc' ⊆ seen'
  | None => prop_lookup k ps = prop_lookup k acc
  end.
Proof.
  intros Hf Hnd H Hk. revert acc seen Hnd H.
  induction es as [|[k0 v0] r IH]; simpl; intros acc seen Hnd H.
  - by inversion H.
  - destruct (f seen v0) as [[o0 s1]|] eqn:E1; [|done].
    specialize (IH _ _ (set_prop_NoDup k0 o0 acc Hnd) H).
    destruct (prop_lookup k r) as [c|].
    + destruct IH as (oc & sc & sc' & ? & ? & ? & ?).
      exists oc, sc, sc'. repeat split; [done..| |done].
      apply Hf in E1. set_solver.
    + destruct (String.eqb_spec k k0) as [->|Hne].
      * exists o0, seen, s1. rewrite IH, prop_lookup_set_eq by done.
        repeat split; [done..|]. by eapply conv_props_grows.
      * by rewrite IH, prop_lookup_set_ne.
Qed.

Lemma conv_props_lookup0 f es seen ps seen' k c :
  grows f -> conv_props f es [] seen = Some (ps, seen') -> k <> "__proto__" ->
  prop_lookup k es = Some c ->
  exists oc sc sc',
    prop_lookup k ps = Some oc /\ f sc c = Some (oc, sc') /\ seen ⊆ sc /\ sc' ⊆ seen'.
Proof.
  intros Hf H Hne Hk.
  assert (Hnd : NoDup (([] : list (string * tree)).*1)) by constructor.
  pose proof (conv_props_lookup f es [] seen ps seen' k Hf Hnd H Hne) as HL.
  by rewrite Hk in HL.
Qed.

(** The converted Map or object has no property named [__proto__]. *)
Lemma conv_props_proto f es acc seen ps seen' :
  conv_props f es acc seen = Some (ps, seen') ->
  prop_lookup "__proto__" ps = prop_lookup "__proto__" acc.
Proof.
  revert acc seen. induction es as [|[k0 v0] r IH]; simpl; intros acc seen H.
  - by inversion H.
  - destruct (f seen v0) as [[o0 s1]|] eqn:E1; [|done].
    by rewrite (IH _ _ H), prop_lookup_set_proto.
Qed.

Lemma conv_props_named f es seen ps seen' k oc :
  conv_props f es [] seen = Some (ps, seen') -> prop_lookup k ps = Some oc ->
  k <> "__proto__".
Proof. intros H Hk ->. by rewrite (conv_props_proto _ _ _ _ _ _ H) in Hk. Qed.

(** One step down from a converted value. *)
Lemma conv_step n seen v o seen' s c oc :
  conv h n seen v = Some (o, seen') -> child h v s = Some c -> tree_child o s = Some oc ->
  exists l n' sc sc',
    v = VRef l /\ (l ∉ seen) /\ conv h n' sc c = Some (oc, sc') /\
    {[l]} ∪ seen ⊆ sc /\ sc' ⊆ seen'.
Proof.
  destruct n as [|n]; simpl; [done|]. intros H Hc Ho.
  destruct v as [p|l]; [done|]. simpl in Hc.
  destruct (decide (l ∈ seen)) as [|Hl]; [by inversion H; subst|].
  exists l, n.
  destruct (deref h l) as [k bs|bs|es|vs|es]; try done.
  - destruct s as [i|k]; [done|].
    destruct (conv_props _ _ _ _) as [[ps s']|] eqn:E; [|done].
    inversion H; subst; clear H. simpl in Ho.
    destruct (conv_props_lookup0 _ _ _ _ _ _ _ (conv_grows h n) E
                (conv_props_named _ _ _ _ _ _ _ E Ho) Hc)
      as (oc' & sc & sc' & ? & ? & ? & ?).
    exists sc, sc'. by simplify_eq.
  - destruct s as [i|k]; [|done].
    destruct (conv_list _ _ _) as [[os s']|] eqn:E; [|done].
    inversion H; subst; clear H. simpl in Ho.
    destruct (conv_list_lookup _ _ _ _ _ _ _ (conv_grows h n) E Hc)
      as (oc' & sc & sc' & ? & ? & ? & ?).
    exists sc, sc'. by simplify_eq.
  - destruct s as [i|k]; [done|].
    destruct (conv_props _ _ _ _) as [[ps s']|] eqn:E; [|done].
    inversion H; subst; clear H. simpl in Ho.
    destruct (conv_props_lookup0 _ _ _ _ _ _ _ (conv_grows h n) E
                (conv_props_named _ _ _ _ _ _ _ E Ho) Hc)
      as (oc' & sc & sc' & ? & ? & ? & ?).
    exists sc, sc'. by simplify_eq.
Qed.

(** Every step of an expanded value, the name [__proto__] apart, has its
    place in the result. *)
Lemma conv_step_defined n seen v o seen' s c :
  conv h n seen v = Some (o, seen') -> expanded o -> child h v s = Some c ->
  s <> SKey "__proto__" -> is_Some (tree_child o s).
Proof.
  destruct n as [|n]; simpl; [done|]. intros H Hex Hc Hs.
  destruct v as [p|l]; [done|]. simpl in Hc.
  destruct (decide (l ∈ seen)) as [|Hl]; [by inversion H; subst|].
  destruct (deref h l) as [k bs|bs|es|vs|es]; try done.
  - destruct s as [i|k]; [done|].
    destruct (conv_props _ _ _ _) as [[ps s']|] eqn:E; [|done].
    inversion H; subst; clear H. simpl.
    assert (Hk : k <> "__proto__") by (by intros ->).
    destruct (conv_props_lookup0 _ _ _ _ _ _ _ (conv_grows h n) E Hk Hc)
      as (oc' & sc & sc' & -> & _). by eexists.
  - destruct s as [i|k]; [|done].
    destruct (conv_list _ _ _) as [[os s']|] eqn:E; [|done].
    inversion H; subst; clear H. simpl.
    destruct (conv_list_lookup _ _ _ _ _ _ _ (conv_grows h n) E Hc)
      as (oc' & sc & sc' & -> & _). by eexists.
  - destruct s as [i|k]; [done|].
    destruct (conv_props _ _ _ _) as [[ps s']|] eqn:E; [|done].
    inversion H; subst; clear H. simpl.
    assert (Hk : k <> "__proto__") by (by intros ->).
    destruct (conv_props_lookup0 _ _ _ _ _ _ _ (conv_grows h n) E Hk Hc)
      as (oc' & sc & sc' & -> & _). by eexists.
Qed.

(** What stands at a position of the result is the conversion of the value
    at that position, made when every object on the way was already seen. *)
Lemma conv_at n seen v o seen' p c t :
  conv h n seen v = Some (o, seen') -> walk h v p = Some c -> tree_at o p = Some t ->
  exists n' sc sc',
    conv h n' sc c = Some (t, sc') /\ seen ⊆ sc /\ sc' ⊆ seen' /\
    forall l p1 p2, p = p1 ++ p2 -> p2 <> [] -> walk h v p1 = Some (VRef l) -> l ∈ sc.
Proof.
  revert n seen v o seen'.
  induction p as [|s p IH]; simpl; intros n seen v o seen' H Hw Ht.
  - simplify_eq. exists n, seen, seen'. repeat split; [done..|].
    intros l p1 p2 Hp Hp2. by destruct p1, p2.
  - destruct (child h v s) as [c1|] eqn:Hc; [|done].
    destruct (tree_child o s) as [o1|] eqn:Ho; [|done].
    destruct (conv_step _ _ _ _ _ _ _ _ H Hc Ho) as (l0 & n1 & s1 & s1' & -> & Hl0 & H1 & Hs1 & Hs1').
    destruct (IH _ _ _ _ _ H1 Hw Ht) as (n' & sc & sc' & Hconv & Hsc & Hsc' & Hanc).
    exists n', sc, sc'. repeat split; [done|set_solver|set_solver|].
    intros l p1 p2 Hp Hp2 Hw1.
    destruct p1 as [|s' p1]; simpl in *.
    + simplify_eq. set_solver.
    + simplify_eq. rewrite Hc in Hw1. by eapply Hanc.
Qed.

(** Every object met at a position of the result is seen afterwards. *)
Lemma conv_at_marks n seen v o seen' p l t :
  conv h n seen v = Some (o, seen') -> walk h v p = Some (VRef l) -> tree_at o p = Some t ->
  l ∈ seen'.
Proof.
  intros H Hw Ht.
  destruct (conv_at _ _ _ _ _ _ _ _ H Hw Ht) as (n' & sc & sc' & Hc & _ & Hsc' & _).
  apply conv_marks in Hc. set_solver.
Qed.

(** An object seen before the conversion starts is the sentinel wherever it
    stands in the result. *)
Lemma conv_at_seen n seen v o seen' p l t :
  conv h n seen v = Some (o, seen') -> walk h v p = Some (VRef l) -> tree_at o p = Some t ->
  l ∈ seen -> t = sentinel.
Proof.
  intros H Hw Ht Hl.
  destruct (conv_at _ _ _ _ _ _ _ _ H Hw Ht) as (n' & sc & sc' & Hc & Hsc & _).
  eapply conv_seen in Hc as [-> _]; [done|set_solver].
Qed.

(** No conversion has a property named [__proto__]. *)
Lemma conv_no_proto n seen v o seen' :
  conv h n seen v = Some (o, seen') -> tree_child o (SKey "__proto__") = None.
Proof.
  destruct n as [|n]; simpl; [done|]. intros H.
  destruct v as [p|l]; [destruct p; by simplify_eq|].
  destruct (decide (l ∈ seen)); [by simplify_eq|].
  destruct (deref h l) as [k bs|bs|es|vs|es]; try by simplify_eq.
  - destruct (conv_props _ _ _ _) as [[ps s']|] eqn:E; [|done]. simplify_eq.
    simpl. by rewrite (conv_props_proto _ _ _ _ _ _ E).
  - destruct (conv_list _ _ _) as [[os s']|] eqn:E; [|done]. by simplify_eq.
  - destruct (conv_props _ _ _ _) as [[ps s']|] eqn:E; [|done]. simplify_eq.
    simpl. by rewrite (conv_props_proto _ _ _ _ _ _ E).
Qed.

(** Of two elements of an array the earlier is converted first. *)
Lemma conv_list_before f vs seen os seen' i j ci cj :
  grows f -> conv_list f vs seen = Some (os, seen') -> (i < j)%nat ->
  vs !! i = Some ci -> vs !! j = Some cj ->
  exists oi si si' oj sj sj',
    os !! i = Some oi /\ f si ci = Some (oi, si') /\
    os !! j = Some oj /\ f sj cj = Some (oj, sj') /\ si' ⊆ sj.
Proof.
  intros Hf. revert seen os i j.
  induction vs as [|v r IH]; simpl; intros seen os i j H Hij Hi Hj; [done|].
  destruct (f seen v) as [[o s1]|] eqn:E1; [|done].
  destruct (conv_list f r s1) as [[os' s2]|] eqn:E2; [|done].
  inversion H; subst; clear H.
  destruct j as [|j]; [lia|]. simpl in Hj.
  destruct i as [|i]; simpl in Hi.
  - inversion Hi; subst.
    destruct (conv_list_lookup _ _ _ _ _ _ _ Hf E2 Hj) as (oj & sj & sj' & ? & ? & ? & ?).
    by exists o, seen, s1, oj, sj, sj'.
  - destruct (IH _ _ i j E2 ltac:(lia) Hi Hj)
      as (oi & si & si' & oj & sj & sj' & ? & ? & ? & ? & ?).
    by exists oi, si, si', oj, sj, sj'.
Qed.

(** Of two properties one is converted before the other. *)
Lemma conv_props_two f es acc seen ps seen' k1 k2 c1 c2 :
  grows f -> NoDup (acc.*1) -> conv_props f es acc seen = Some (ps, seen') ->
  k1 <> "__proto__" -> k2 <> "__proto__" ->
  k1 <> k2 -> prop_lookup k1 es = Some c1 -> prop_lookup k2 es = Some c2 ->
  exists o1 s1 s1' o2 s2 s2',
    prop_lookup k1 ps = Some o1 /\ f s1 c1 = Some (o1, s1') /\
    prop_lookup k2 ps = Some o2 /\ f s2 c2 = Some (o2, s2') /\
    (s1' ⊆ s2 \/ s2' ⊆ s1).
Proof.
  intros Hf Hnd H P1 P2. revert acc seen Hnd H.
  induction es as [|[k0 v0] r IH]; simpl; intros acc seen Hnd H Hne H1 H2; [done|].
  destruct (f seen v0) as [[o0 sa]|] eqn:E0; [|done].
  pose proof (set_prop_NoDup k0 o0 acc Hnd) as Hnd'.
  pose proof (conv_props_lookup f r _ sa ps seen' k1 Hf Hnd' H P1) as L1.
  pose proof (conv_props_lookup f r _ sa ps seen' k2 Hf Hnd' H P2) as L2.
  destruct (prop_lookup k1 r) as [c1'|] eqn:R1, (prop_lookup k2 r) as [c2'|] eqn:R2.
  - simplify_eq. by eapply IH.
  - simplify_eq. destruct (String.eqb_spec k2 k0) as [->|]; [|done]. simplify_eq.
    destruct L1 as (o1 & s1 & s1' & ? & ? & ? & ?).
    rewrite prop_lookup_set_eq in L2 by done.
    exists o1, s1, s1', o0, seen, sa. auto 10.
  - simplify_eq. destruct (String.eqb_spec k1 k0) as [->|]; [|done]. simplify_eq.
    destruct L2 as (o2 & s2 & s2' & ? & ? & ? & ?).
    rewrite prop_lookup_set_eq in L1 by done.
    exists o0, seen, sa, o2, s2, s2'. auto 10.
  - destruct (String.eqb_spec k1 k0), (String.eqb_spec k2 k0); congruence.
Qed.

Lemma step_eq_dec (s1 s2 : step) : {s1 = s2} + {s1 <> s2}.
Proof. decide equality; [apply Nat.eq_dec|apply string_dec]. Qed.

(** Two different steps down from a converted value: one conversion is
    finished before the other starts. *)
Lemma conv_step_two n seen v o seen' s1 s2 c1 c2 o1 o2 :
  conv h n seen v = Some (o, seen') -> s1 <> s2 ->
  child h v s1 = Some c1 -> child h v s2 = Some c2 ->
  tree_child o s1 = Some o1 -> tree_child o s2 = Some o2 ->
  exists n' sa sa' sb sb',
    conv h n' sa c1 = Some (o1, sa') /\ conv h n' sb c2 = Some (o2, sb') /\
    (sa' ⊆ sb \/ sb' ⊆ sa).
Proof.
  destruct n as [|n]; simpl; [done|]. intros H Hne Hc1 Hc2 Ho1 Ho2.
  destruct v as [p|l]; [done|]. simpl in Hc1, Hc2.
  destruct (decide (l ∈ seen)) as [|Hl]; [by inversion H; subst|].
  exists n.
  assert (Hnd : NoDup (([] : list (string * tree)).*1)) by constructor.
  destruct (deref h l) as [k bs|bs|es|vs|es]; try done.
  - destruct s1 as [i1|k1], s2 as [i2|k2]; try done.
    destruct (conv_props _ _ _ _) as [[ps s']|] eqn:E; [|done].
    inversion H; subst; clear H. simpl in Ho1, Ho2.
    destruct (conv_props_two _ _ _ _ _ _ k1 k2 _ _ (conv_grows h n) Hnd E
                (conv_props_named _ _ _ _ _ _ _ E Ho1) (conv_props_named _ _ _ _ _ _ _ E Ho2)
                ltac:(congruence) Hc1 Hc2)
      as (o1' & sa & sa' & o2' & sb & sb' & ? & ? & ? & ? & ?).
    exists sa, sa', sb, sb'. by simplify_eq.
  - destruct s1 as [i1|k1], s2 as [i2|k2]; try done.
    destruct (conv_list _ _ _) as [[os s']|] eqn:E; [|done].
    inversion H; subst; clear H. simpl in Ho1, Ho2.
    destruct (Nat.lt_total i1 i2) as [Hlt|[->|Hlt]]; [|done|].
    + destruct (conv_list_before _ _ _ _ _ _ _ _ _ (conv_grows h n) E Hlt Hc1 Hc2)
        as (o1' & sa & sa' & o2' & sb & sb' & ? & ? & ? & ? & ?).
      exists sa, sa', sb, sb'. simplify_eq. auto.
    + destruct (conv_list_before _ _ _ _ _ _ _ _ _ (conv_grows h n) E Hlt Hc2 Hc1)
        as (o2' & sb & sb' & o1' & sa & sa' & ? & ? & ? & ? & ?).
      exists sa, sa', sb, sb'. simplify_eq. auto.
  - destruct s1 as [i1|k1], s2 as [i2|k2]; try done.
    destruct (conv_props _ _ _ _) as [[ps s']|] eqn:E; [|done].
    inversion H; subst; clear H. simpl in Ho1, Ho2.
    destruct (conv_props_two _ _ _ _ _ _ k1 k2 _ _ (conv_grows h n) Hnd E
                (conv_props_named _ _ _ _ _ _ _ E Ho1) (conv_props_named _ _ _ _ _ _ _ E Ho2)
                ltac:(congruence) Hc1 Hc2)
      as (o1' & sa & sa' & o2' & sb & sb' & ? & ? & ? & ? & ?).
    exists sa, sa', sb, sb'. by simplify_eq.
Qed.

(** An object is converted at one position at most. *)
Lemma conv_once n seen v o seen' p q l tp tq :
  conv h n seen v = Some (o, seen') -> p <> q ->
  walk h v p = Some (VRef l) -> walk h v q = Some (VRef l) ->
  tree_at o p = Some tp -> tree_at o q = Some tq ->
  tp = sentinel \/ tq = sentinel.
Proof.
  revert q n seen v o seen'.
  induction p as [|s1 p IH]; intros q n seen v o seen' H Hpq Hwp Hwq Htp Htq.
  - destruct q as [|s2 q]; [done|]. right. simpl in Hwp. simplify_eq.
    destruct (conv_at _ _ _ _ _ _ _ _ H Hwq Htq) as (n' & sc & sc' & Hc & _ & _ & Hanc).
    eapply conv_seen in Hc as [-> _]; [done|].
    by apply (Hanc l [] (s2 :: q)).
  - destruct q as [|s2 q].
    { left. simpl in Hwq. simplify_eq.
      destruct (conv_at _ _ _ _ _ _ _ _ H Hwp Htp) as (n' & sc & sc' & Hc & _ & _ & Hanc).
      eapply conv_seen in Hc as [-> _]; [done|].
      by apply (Hanc l [] (s1 :: p)). }
    simpl in *.
    destruct (child h v s1) as [c1|] eqn:Hc1; [|done].
    destruct (child h v s2) as [c2|] eqn:Hc2; [|done].
    destruct (tree_child o s1) as [o1|] eqn:Ho1; [|done].
    destruct (tree_child o s2) as [o2|] eqn:Ho2; [|done].
    destruct (step_eq_dec s1 s2) as [->|Hne].
    + simplify_eq.
      destruct (conv_step _ _ _ _ _ _ _ _ H Hc1 Ho1) as (l0 & n1 & sa & sa' & _ & _ & H1 & _).
      eapply (IH q); [done|congruence|done..].
    + destruct (conv_step_two _ _ _ _ _ _ _ _ _ _ _ H Hne Hc1 Hc2 Ho1 Ho2)
        as (n' & sa & sa' & sb & sb' & Ha & Hb & [Hsub|Hsub]).
      * right. eapply (conv_at_seen _ _ _ _ _ _ _ _ Hb Hwq Htq).
        apply Hsub. eapply conv_at_marks; [apply Ha|done..].
      * left. eapply (conv_at_seen _ _ _ _ _ _ _ _ Ha Hwp Htp).
        apply Hsub. eapply conv_at_marks; [apply Hb|done..].
Qed.

Lemma prop_rank_lookup {A} k (ps : list (string * A)) :
  prop_rank k ps = None <-> prop_lookup k ps = None.
Proof.
  induction ps as [|[k' v] r IH]; simpl; [done|].
  destruct (prop_rank k r), (prop_lookup k r); try done.
  - by destruct IH as [_ IH]; specialize (IH eq_refl).
  - by destruct IH as [IH _]; specialize (IH eq_refl).
  - by destruct (String.eqb k k').
Qed.

(** Of two properties the one whose entry comes first is converted first. *)
Lemma conv_props_before f es acc seen ps seen' k1 k2 c1 c2 r1 r2 :
  grows f -> NoDup (acc.*1) -> conv_props f es acc seen = Some (ps, seen') ->
  k1 <> "__proto__" -> k2 <> "__proto__" ->
  prop_rank k1 es = Some r1 -> prop_rank k2 es = Some r2 -> (r1 < r2)%nat ->
  prop_lookup k1 es = Some c1 -> prop_lookup k2 es = Some c2 ->
  exists o1 s1 s1' o2 s2 s2',
    prop_lookup k1 ps = Some o1 /\ f s1 c1 = Some (o1, s1') /\
    prop_lookup k2 ps = Some o2 /\ f s2 c2 = Some (o2, s2') /\ s1' ⊆ s2.
Proof.
  intros Hf Hnd H P1 P2. revert acc seen r1 r2 Hnd H.
  induction es as [|[k0 v0] r IH]; simpl; intros acc seen r1 r2 Hnd H R1 R2 Hlt H1 H2; [done|].
  destruct (f seen v0) as [[o0 sa]|] eqn:E0; [|done].
  pose proof (set_prop_NoDup k0 o0 acc Hnd) as Hnd'.
  pose proof (conv_props_lookup f r _ sa ps seen' k1 Hf Hnd' H P1) as L1.
  pose proof (conv_props_lookup f r _ sa ps seen' k2 Hf Hnd' H P2) as L2.
  pose proof (prop_rank_lookup k1 r) as E1. pose proof (prop_rank_lookup k2 r) as E2.
  destruct (prop_rank k1 r) as [i1|], (prop_rank k2 r) as [i2|].
  - destruct (prop_lookup k1 r) as [c1'|]; [|by destruct E1 as [_ E1]; discriminate E1].
    destruct (prop_lookup k2 r) as [c2'|]; [|by destruct E2 as [_ E2]; discriminate E2].
    simplify_eq. eapply (IH _ _ i1 i2); eauto. lia.
  - destruct (String.eqb k2 k0); simplify_eq; lia.
  - rewrite (proj1 E1 eq_refl) in H1, L1.
    destruct (prop_lookup k2 r) as [c2'|]; [|by destruct E2 as [_ E2]; discriminate E2].
    destruct (String.eqb_spec k1 k0) as [->|]; [|done]. simplify_eq.
    destruct L2 as (o2 & s2 & s2' & ? & ? & ? & ?).
    rewrite prop_lookup_set_eq in L1 by done.
    by exists o0, seen, sa, o2, s2, s2'.
  - destruct (String.eqb k1 k0), (String.eqb k2 k0); simplify_eq; lia.
Qed.

(** Of two steps down from a converted value the one whose turn comes first
    is converted first. *)
Lemma conv_step_before n seen v o seen' s1 s2 r1 r2 c1 c2 o1 o2 :
  conv h n seen v = Some (o, seen') ->
  step_rank h v s1 = Some r1 -> step_rank h v s2 = Some r2 -> (r1 < r2)%nat ->
  child h v s1 = Some c1 -> child h v s2 = Some c2 ->
  tree_child o s1 = Some o1 -> tree_child o s2 = Some o2 ->
  exists n' sa sa' sb sb',
    conv h n' sa c1 = Some (o1, sa') /\ conv h n' sb c2 = Some (o2, sb') /\ sa' ⊆ sb.
Proof.
  destruct n as [|n]; simpl; [done|]. intros H R1 R2 Hlt Hc1 Hc2 Ho1 Ho2.
  destruct v as [p|l]; [done|]. simpl in Hc1, Hc2, R1, R2.
  destruct (decide (l ∈ seen)) as [|Hl]; [by inversion H; subst|].
  exists n.
  assert (Hnd : NoDup (([] : list (string * tree)).*1)) by constructor.
  destruct (deref h l) as [k bs|bs|es|vs|es]; try done.
  - destruct s1 as [i1|k1], s2 as [i2|k2]; try done.
    destruct (conv_props _ _ _ _) as [[ps s']|] eqn:E; [|done].
    inversion H; subst; clear H. simpl in Ho1, Ho2.
    destruct (conv_props_before _ _ _ _ _ _ k1 k2 _ _ _ _ (conv_grows h n) Hnd E
                (conv_props_named _ _ _ _ _ _ _ E Ho1) (conv_props_named _ _ _ _ _ _ _ E Ho2)
                R1 R2 Hlt Hc1 Hc2)
      as (o1' & sa & sa' & o2' & sb & sb' & ? & ? & ? & ? & ?).
    exists sa, sa', sb, sb'. by simplify_eq.
  - destruct s1 as [i1|k1], s2 as [i2|k2]; try done.
    destruct (conv_list _ _ _) as [[os s']|] eqn:E; [|done].
    inversion H; subst; clear H. simpl in Ho1, Ho2.
    destruct (decide (i1 < length vs)%nat); [|done].
    destruct (decide (i2 < length vs)%nat); [|done]. simplify_eq.
    destruct (conv_list_before _ _ _ _ _ _ _ _ _ (conv_grows h n) E Hlt Hc1 Hc2)
      as (o1' & sa & sa' & o2' & sb & sb' & ? & ? & ? & ? & ?).
    exists sa, sa', sb, sb'. by simplify_eq.
  - destruct s1 as [i1|k1], s2 as [i2|k2]; try done.
    destruct (conv_props _ _ _ _) as [[ps s']|] eqn:E; [|done].
    inversion H; subst; clear H. simpl in Ho1, Ho2.
    destruct (conv_props_before _ _ _ _ _ _ k1 k2 _ _ _ _ (conv_grows h n) Hnd E
                (conv_props_named _ _ _ _ _ _ _ E Ho1) (conv_props_named _ _ _ _ _ _ _ E Ho2)
                R1 R2 Hlt Hc1 Hc2)
      as (o1' & sa & sa' & o2' & sb & sb' & ? & ? & ? & ? & ?).
    exists sa, sa', sb, sb'. by simplify_eq.
Qed.

Lemma walk_app v p q :
  walk h v (p ++ q) = match walk h v p with Some c => walk h c q | None => None end.
Proof.
  revert v. induction p as [|s p IH]; simpl; intros v; [done|].
  destruct (child h v s); [apply IH|done].
Qed.

Lemma tree_at_app t p q :
  tree_at t (p ++ q) = match tree_at t p with Some c => tree_at c q | None => None end.
Proof.
  revert t. induction p as [|s p IH]; simpl; intros t; [done|].
  destruct (tree_child t s); [apply IH|done].
Qed.

(** An object that stands below itself is the sentinel there. *)
Lemma conv_below n seen v o seen' p s q l tq :
  conv h n seen v = Some (o, seen') ->
  walk h v p = Some (VRef l) -> walk h v (p ++ s :: q) = Some (VRef l) ->
  tree_at o (p ++ s :: q) = Some tq -> tq = sentinel.
Proof.
  intros H Hp Hq Htq.
  destruct (conv_at _ _ _ _ _ _ _ _ H Hq Htq) as (n' & sc & sc' & Hc & _ & _ & Hanc).
  eapply conv_seen in Hc as [-> _]; [done|]. by apply (Hanc l p (s :: q)).
Qed.

(** An object that stands under an earlier step too, where it has a place in
    the result, is the sentinel under the later step. *)
Lemma conv_later n seen v o seen' p0 v0 s1 s2 r1 r2 p q l tq :
  conv h n seen v = Some (o, seen') -> walk h v p0 = Some v0 ->
  step_rank h v0 s1 = Some r1 -> step_rank h v0 s2 = Some r2 -> (r1 < r2)%nat ->
  walk h v (p0 ++ s1 :: p) = Some (VRef l) -> is_Some (tree_at o (p0 ++ s1 :: p)) ->
  walk h v (p0 ++ s2 :: q) = Some (VRef l) -> tree_at o (p0 ++ s2 :: q) = Some tq ->
  tq = sentinel.
Proof.
  intros H Hw0 R1 R2 Hlt Hwp [tp Htp] Hwq Htq.
  rewrite walk_app, Hw0 in Hwp, Hwq. rewrite tree_at_app in Htp, Htq.
  destruct (tree_at o p0) as [t0|] eqn:Ht0; [|done]. simpl in *.
  destruct (child h v0 s1) as [c1|] eqn:Hc1; [|done].
  destruct (child h v0 s2) as [c2|] eqn:Hc2; [|done].
  destruct (tree_child t0 s1) as [o1|] eqn:Ho1; [|done].
  destruct (tree_child t0 s2) as [o2|] eqn:Ho2; [|done].
  destruct (conv_at _ _ _ _ _ _ _ _ H Hw0 Ht0) as (n0 & sc & sc' & Hconv & _).
  destruct (conv_step_before _ _ _ _ _ _ _ _ _ _ _ _ _ Hconv R1 R2 Hlt Hc1 Hc2 Ho1 Ho2)
    as (n' & sa & sa' & sb & sb' & Ha & Hb & Hsub).
  eapply (conv_at_seen _ _ _ _ _ _ _ _ Hb Hwq Htq).
  apply Hsub. eapply conv_at_marks; [apply Ha|done..].
Qed.
End conv_positions.

(** ** serialize: the order of the traversal *)

Lemma distinct_NoDup ks : distinct ks = true -> NoDup ks.
Proof.
  induction ks as [|k r IH]; simpl; [constructor|].
  intros [Hk Hr]%andb_true_iff. constructor; [|by apply IH].
  intros Hin. apply negb_true_iff in Hk.
  assert (existsb (String.eqb k) r = true); [|congruence].
  apply existsb_exists. exists k. split; [by apply list_elem_of_In|apply String.eqb_refl].
Qed.

Lemma prop_at_index {A} (es : list (string * A)) i k c :
  NoDup (es.*1) -> es !! i = Some (k, c) ->
  prop_lookup k es = Some c /\ prop_rank k es = Some i.
Proof.
  revert i. induction es as [|[k0 v0] r IH]; intros i Hnd Hi; [done|].
  simpl in Hnd. apply NoDup_cons in Hnd as [Hk0 Hnd]. simpl.
  destruct i as [|i]; simpl in Hi.
  - simplify_eq. rewrite (prop_lookup_absent k r Hk0).
    rewrite (proj2 (prop_rank_lookup k r) (prop_lookup_absent k r Hk0)).
    by rewrite String.eqb_refl.
  - destruct (IH i Hnd Hi) as [-> ->]. done.
Qed.

Lemma prop_index {A} (es : list (string * A)) k c r :
  prop_lookup k es = Some c -> prop_rank k es = Some r -> es !! r = Some (k, c).
Proof.
  revert r. induction es as [|[k0 v0] es IH]; intros r; simpl; [done|].
  pose proof (prop_rank_lookup k es) as E.
  destruct (prop_rank k es) as [i|], (prop_lookup k es) as [c'|].
  - intros ? ?. simplify_eq. simpl. by apply IH.
  - by destruct E as [_ E]; specialize (E eq_refl).
  - by destruct E as [E _]; specialize (E eq_refl).
  - destruct (String.eqb_spec k k0) as [->|]; [|done]. intros ? ?. by simplify_eq.
Qed.

Lemma conv_list_length f vs seen os seen' :
  conv_list f vs seen = Some (os, seen') -> length os = length vs.
Proof.
  revert seen os. induction vs as [|v r IH]; simpl; intros seen os H.
  - by inversion H.
  - destruct (f seen v) as [[o s1]|] eqn:E1; [|done].
    destruct (conv_list f r s1) as [[os' s2]|] eqn:E2; [|done].
    inversion H; subst. simpl. by rewrite (IH _ _ E2).
Qed.

Lemma conv_props_names f es acc seen ps seen' k :
  conv_props f es acc seen = Some (ps, seen') ->
  k ∈ (ps.*1) <-> (k ∈ (es.*1) /\ k <> "__proto__") \/ k ∈ (acc.*1).
Proof.
  revert acc seen. induction es as [|[k0 v0] r IH]; simpl; intros acc seen H.
  - inversion H; subst. set_solver.
  - destruct (f seen v0) as [[o0 s1]|] eqn:E1; [|done].
    rewrite (IH _ _ H), set_prop_keys. rewrite elem_of_cons. naive_solver.
Qed.

(** An object that is not seen yet is converted in full. *)
Lemma conv_full h n seen l o seen' :
  conv h n seen (VRef l) = Some (o, seen') -> l ∉ seen -> full_shape h l o /\ expanded o.
Proof.
  destruct n as [|n]; simpl; [done|]. intros H Hl.
  destruct (decide (l ∈ seen)); [done|]. unfold full_shape.
  destruct (deref h l) as [k bs|bs|es|vs|es].
  - by simplify_eq.
  - by simplify_eq.
  - destruct (conv_props _ _ _ _) as [[ps s']|] eqn:E; [|done]. simplify_eq.
    split; [|done]. exists ps. split; [done|]. intros k.
    rewrite (conv_props_names _ _ _ _ _ _ k E). set_solver.
  - destruct (conv_list _ _ _) as [[os s']|] eqn:E; [|done]. simplify_eq.
    split; [|done]. exists os. split; [done|]. by eapply conv_list_length.
  - destruct (conv_props _ _ _ _) as [[ps s']|] eqn:E; [|done]. simplify_eq.
    split; [|done]. exists ps. split; [done|]. intros k.
    rewrite (conv_props_names _ _ _ _ _ _ k E). set_solver.
Qed.

Lemma conv_of_prim h n seen p o seen' :
  conv h n seen (VPrim p) = Some (o, seen') -> o = TPrim (conv_prim p).
Proof. destruct n as [|n]; simpl; [done|]. destruct p; by intros [= <- _]. Qed.

Lemma no_proto_cons s p :
  no_proto (s :: p) = true -> s <> SKey "__proto__" /\ no_proto p = true.
Proof.
  simpl. intros [Hs Hp]%andb_true_iff. split; [|done].
  intros ->. by rewrite String.eqb_refl in Hs.
Qed.

Lemma no_proto_snoc p s :
  no_proto (p ++ [s]) = true <-> no_proto p = true /\ s <> SKey "__proto__".
Proof.
  unfold no_proto. rewrite forallb_app, andb_true_iff. simpl.
  destruct s as [i|k]; [naive_solver|].
  destruct (String.eqb_spec k "__proto__") as [->|Hk]; simpl; naive_solver.
Qed.

Lemma above_cons s q p : above q p -> above (s :: q) (s :: p).
Proof. intros (s' & r & ->). by exists s', r. Qed.

Lemma above_nil q : ~ above q [].
Proof. intros (s & r & H). by destruct q. Qed.

Section traversal.
Variable h : heap.

Lemma trail_step l s c q :
  child h (VRef l) s = Some c -> trail h (VRef l) (s :: q) = l :: trail h c q.
Proof. intros Hc. cbn [trail own app]. by rewrite Hc. Qed.

Lemma left_of_cons v s c q p :
  child h v s = Some c -> left_of h c q p -> left_of h v (s :: q) (s :: p).
Proof.
  intros Hc (p0 & v0 & s1 & s2 & r1 & r2 & q' & p' & -> & -> & Hw & R1 & R2 & Hlt).
  exists (s :: p0), v0, s1, s2, r1, r2, q', p'. repeat split; [|done..].
  cbn [walk]. by rewrite Hc.
Qed.

Lemma left_of_nil v q : ~ left_of h v q [].
Proof. intros (p0 & v0 & s1 & s2 & r1 & r2 & q' & p' & _ & H & _). by destruct p0. Qed.

Lemma earlier_cons v s c q p :
  child h v s = Some c -> earlier h c q p -> earlier h v (s :: q) (s :: p).
Proof.
  intros Hc [H|H]; [left; by apply above_cons|right; by eapply left_of_cons].
Qed.

Lemma earlier_nil v q : ~ earlier h v q [].
Proof. intros [H|H]; [by eapply above_nil|by eapply left_of_nil]. Qed.

Lemma reach_mono seen sc v m : seen ⊆ sc -> reach h sc v m -> reach h seen v m.
Proof. intros Hs (q & Hw & Hnd & Hdis). exists q. repeat split; [done..|]. set_solver. Qed.

Lemma reach_self seen l : l ∉ seen -> reach h seen (VRef l) l.
Proof.
  intros Hl. exists []. split; [done|]. simpl. split; [apply NoDup_singleton|].
  intros x ->%list_elem_of_singleton. done.
Qed.

Lemma reach_child seen l s c m :
  l ∉ seen -> child h (VRef l) s = Some c -> reach h ({[l]} ∪ seen) c m ->
  reach h seen (VRef l) m.
Proof.
  intros Hl Hc (q & Hw & Hnd & Hdis). exists (s :: q).
  rewrite (trail_step _ _ _ _ Hc). cbn [walk]. rewrite Hc. split; [done|]. split.
  - apply NoDup_cons. split; [|done]. intros Hin. apply (Hdis l Hin). set_solver.
  - intros x [->|Hx]%elem_of_cons; [done|]. specialize (Hdis x Hx). set_solver.
Qed.

(** Going one step down keeps the way open: what is seen when the step takes
    its turn stands at earlier positions. *)
Lemma opens_down seen l s c sc p :
  opens h seen (VRef l) (s :: p) -> child h (VRef l) s = Some c -> l ∉ seen ->
  {[l]} ∪ seen ⊆ sc -> step_turn h seen l s sc -> opens h sc c p.
Proof.
  intros Hopen Hc Hl Hsub Hturn p1 p2 l' -> Hp2 Hw1.
  destruct (Hopen (s :: p1) p2 l' eq_refl Hp2) as [Hl' Hq]; [cbn [walk]; by rewrite Hc|].
  split.
  - intros Hin.
    destruct (Hturn l' Hin)
      as [->|[?|(s' & c' & r' & r & Hc' & R' & R & Hlt & q & Hwq & Hnd & Hdis)]].
    + apply (Hq []); [left; by exists s, p1|apply NoDup_singleton| |done].
      by intros x ->%list_elem_of_singleton.
    + done.
    + apply (Hq (s' :: q)).
      * right. exists [], (VRef l), s', s, r', r, q, p1. by repeat split.
      * rewrite (trail_step _ _ _ _ Hc'). apply NoDup_cons. split; [|done].
        intros Hin'. apply (Hdis l Hin'). set_solver.
      * rewrite (trail_step _ _ _ _ Hc').
        intros x [->|Hx]%elem_of_cons; [done|]. specialize (Hdis x Hx). set_solver.
      * cbn [walk]. by rewrite Hc'.
  - intros q Hq' Hnd Hdis Hwq. apply (Hq (s :: q)).
    + by eapply earlier_cons.
    + rewrite (trail_step _ _ _ _ Hc). apply NoDup_cons. split; [|done].
      intros Hin. apply (Hdis l Hin). set_solver.
    + rewrite (trail_step _ _ _ _ Hc).
      intros x [->|Hx]%elem_of_cons; [done|]. specialize (Hdis x Hx). set_solver.
    + cbn [walk]. by rewrite Hc.
Qed.

Lemma list_turn_cons f v r seen o s1 i sc :
  grows f -> marks_reached h f -> f seen v = Some (o, s1) ->
  list_turn h r s1 i sc -> list_turn h (v :: r) seen (S i) sc.
Proof.
  intros Hg Hf E1 Hturn m Hm.
  destruct (Hturn m Hm) as [Hm1|(j & cj & Hj & Hcj & Hr)].
  - destruct (Hf _ _ _ _ E1 m Hm1) as [?|Hr]; [by left|].
    right. exists 0%nat, v. repeat split; [lia|done..].
  - right. exists (S j), cj. repeat split; [lia|done|].
    eapply reach_mono; [|exact Hr]. by eapply Hg.
Qed.

(** The element at an index is converted when the elements before it are
    done, each in its turn. *)
Lemma conv_list_turn f vs seen os seen' i c :
  grows f -> marks_reached h f -> conv_list f vs seen = Some (os, seen') ->
  vs !! i = Some c ->
  exists oc sc sc',
    os !! i = Some oc /\ f sc c = Some (oc, sc') /\ seen ⊆ sc /\ sc' ⊆ seen' /\
    list_turn h vs seen i sc /\
    forall j cj, (j < i)%nat -> vs !! j = Some cj ->
      exists oj sj sj',
        f sj cj = Some (oj, sj') /\ seen ⊆ sj /\ sj' ⊆ sc /\ list_turn h vs seen j sj.
Proof.
  intros Hg Hf. revert seen os i.
  induction vs as [|v r IH]; simpl; intros seen os i H Hi; [done|].
  destruct (f seen v) as [[o s1]|] eqn:E1; [|done].
  destruct (conv_list f r s1) as [[os' s2]|] eqn:E2; [|done].
  inversion H; subst; clear H.
  pose proof (Hg _ _ _ _ E1) as Hs1.
  assert (H0 : list_turn h (v :: r) seen 0 seen) by (intros m Hm; by left).
  destruct i as [|i]; simpl in Hi.
  - simplify_eq. exists o, seen, s1. repeat split; [done..| |done|].
    + by eapply conv_list_grows.
    + intros j cj Hj. lia.
  - destruct (IH _ _ _ E2 Hi) as (oc & sc & sc' & ? & ? & Hsc & ? & Hturn & Hsib).
    exists oc, sc, sc'. repeat split; [done..|set_solver|done| |].
    + by eapply list_turn_cons.
    + intros [|j] cj Hj Hcj; simpl in Hcj.
      * simplify_eq. by exists o, seen, s1.
      * destruct (Hsib j cj ltac:(lia) Hcj) as (oj & sj & sj' & ? & ? & ? & ?).
        exists oj, sj, sj'. repeat split; [done|set_solver|done|].
        by eapply list_turn_cons.
Qed.

Lemma conv_props_turn f es acc seen ps seen' i k c :
  grows f -> marks_reached h f -> NoDup (acc.*1) -> NoDup (es.*1) ->
  conv_props f es acc seen = Some (ps, seen') -> es !! i = Some (k, c) ->
  exists oc sc sc',
    (k <> "__proto__" -> prop_lookup k ps = Some oc) /\
    f sc c = Some (oc, sc') /\ seen ⊆ sc /\ sc' ⊆ seen' /\
    list_turn h (es.*2) seen i sc /\
    forall j kj cj, (j < i)%nat -> es !! j = Some (kj, cj) ->
      exists oj sj sj',
        f sj cj = Some (oj, sj') /\ seen ⊆ sj /\ sj' ⊆ sc /\ list_turn h (es.*2) seen j sj.
Proof.
  intros Hg Hf. revert acc seen i.
  induction es as [|[k0 v0] r IH]; simpl; intros acc seen i Hacc Hnd H Hi; [done|].
  apply NoDup_cons in Hnd as [Hk0 Hnd].
  destruct (f seen v0) as [[o0 s1]|] eqn:E1; [|done].
  pose proof (set_prop_NoDup k0 o0 acc Hacc) as Hacc'.
  pose proof (Hg _ _ _ _ E1) as Hs1.
  assert (H0 : list_turn h (v0 :: r.*2) seen 0 seen) by (intros m Hm; by left).
  destruct i as [|i]; simpl in Hi.
  - simplify_eq. exists o0, seen, s1. repeat split; [|done..| |done|].
    + intros Hk.
      pose proof (conv_props_lookup f r _ s1 ps seen' k Hg Hacc' H Hk) as L.
      rewrite (prop_lookup_absent k r Hk0) in L. by rewrite L, prop_lookup_set_eq.
    + by eapply conv_props_grows.
    + intros j kj cj Hj. lia.
  - destruct (IH _ _ _ Hacc' Hnd H Hi) as (oc & sc & sc' & ? & ? & Hsc & ? & Hturn & Hsib).
    exists oc, sc, sc'. repeat split; [done..|set_solver|done| |].
    + by eapply list_turn_cons.
    + intros [|j] kj cj Hj Hcj; simpl in Hcj.
      * simplify_eq. by exists o0, seen, s1.
      * destruct (Hsib j kj cj ltac:(lia) Hcj) as (oj & sj & sj' & ? & ? & ? & ?).
        exists oj, sj, sj'. repeat split; [done|set_solver|done|].
        by eapply list_turn_cons.
Qed.

Lemma conv_list_reached f vs seen os seen' m :
  grows f -> marks_reached h f -> conv_list f vs seen = Some (os, seen') -> m ∈ seen' ->
  m ∈ seen \/ exists i c, vs !! i = Some c /\ reach h seen c m.
Proof.
  intros Hg Hf. revert seen os.
  induction vs as [|v r IH]; simpl; intros seen os H Hm.
  - inversion H; subst. by left.
  - destruct (f seen v) as [[o s1]|] eqn:E1; [|done].
    destruct (conv_list f r s1) as [[os' s2]|] eqn:E2; [|done].
    inversion H; subst; clear H.
    destruct (IH _ _ E2 Hm) as [Hm1|(i & c & Hi & Hr)].
    + destruct (Hf _ _ _ _ E1 m Hm1) as [?|Hr]; [by left|].
      right. by exists 0%nat, v.
    + right. exists (S i), c. split; [done|]. eapply reach_mono; [|exact Hr]. by eapply Hg.
Qed.

Lemma conv_props_reached f es acc seen ps seen' m :
  grows f -> marks_reached h f -> conv_props f es acc seen = Some (ps, seen') -> m ∈ seen' ->
  m ∈ seen \/ exists i k c, es !! i = Some (k, c) /\ reach h seen c m.
Proof.
  intros Hg Hf. revert acc seen.
  induction es as [|[k v] r IH]; simpl; intros acc seen H Hm.
  - inversion H; subst. by left.
  - destruct (f seen v) as [[o s1]|] eqn:E1; [|done].
    destruct (IH _ _ H Hm) as [Hm1|(i & k' & c & Hi & Hr)].
    + destruct (Hf _ _ _ _ E1 m Hm1) as [?|Hr]; [by left|].
      right. by exists 0%nat, k, v.
    + right. exists (S i), k', c. split; [done|]. eapply reach_mono; [|exact Hr]. by eapply Hg.
Qed.

Lemma traversed_opens v p : traversed h v p -> opens h ∅ v p.
Proof.
  intros Ht p1 p2 l Hp Hp2 Hw. split; [set_solver|].
  intros q Hq Hnd _. by apply (Ht p1 p2 l).
Qed.

Lemma first_visit_traversed v p : first_visit h v p -> traversed h v p.
Proof. intros Hf p1 p2 l Hp _. exact (Hf p1 p2 l Hp). Qed.

Lemma traversed_snoc v p s : first_visit h v p -> traversed h v (p ++ [s]).
Proof.
  intros Hf p1 p2 l Hp Hp2 Hw.
  destruct (decide (p2 = [])) as [->|Hne]; [done|].
  assert (exists p2', p2 = p2' ++ [s] /\ p = p1 ++ p2') as (p2' & -> & ->).
  { destruct (exists_last Hne) as (p2' & s' & ->). rewrite app_assoc in Hp.
    apply app_inj_tail in Hp as [-> ->]. by exists p2'. }
  by apply (Hf p1 p2' l).
Qed.

Hypothesis Hnames : distinct_names h = true.

Lemma names_NoDup l es :
  deref h l = OObject es \/ deref h l = OMap es -> NoDup (es.*1).
Proof.
  unfold deref. destruct (h !! l) as [ob|] eqn:El; simpl.
  - intros Hob. unfold distinct_names in Hnames.
    rewrite forallb_forall in Hnames.
    specialize (Hnames (l, ob)). simpl in Hnames.
    assert (Hin : In (l, ob) (map_to_list h))
      by (by apply list_elem_of_In, elem_of_map_to_list).
    specialize (Hnames Hin). apply distinct_NoDup.
    by destruct Hob as [->| ->].
  - intros [H|H]; inversion H. constructor.
Qed.

(** [conv] puts in the seen set only objects of the value it converts, each
    at a position it comes to. *)
Lemma conv_reached n : marks_reached h (conv h n).
Proof.
  induction n as [|n IH]; intros seen v o seen' H m Hm; simpl in H; [done|].
  destruct v as [p|l].
  - left. destruct p; by simplify_eq.
  - destruct (decide (l ∈ seen)) as [|Hl]; [left; by simplify_eq|].
    assert (Hin : m ∈ {[l]} ∪ seen -> m ∈ seen \/ reach h seen (VRef l) m).
    { intros [->%elem_of_singleton|?]%elem_of_union; [right; by apply reach_self|by left]. }
    assert (Hprops : forall es ps,
              deref h l = OObject es \/ deref h l = OMap es ->
              conv_props (conv h n) es [] ({[l]} ∪ seen) = Some (ps, seen') ->
              m ∈ seen \/ reach h seen (VRef l) m).
    { intros es ps Hd E.
      destruct (conv_props_reached _ _ _ _ _ _ m (conv_grows h n) IH E Hm)
        as [?|(i & k & c & Hi & Hr)]; [by apply Hin|].
      right. apply (reach_child seen l (SKey k) c); [done| |done].
      destruct (prop_at_index es i k c (names_NoDup l es Hd) Hi) as [Hk _].
      simpl. by destruct Hd as [->| ->]. }
    destruct (deref h l) as [k bs|bs|es|vs|es] eqn:Hd.
    + simplify_eq. by apply Hin.
    + simplify_eq. by apply Hin.
    + destruct (conv_props _ _ _ _) as [[ps s]|] eqn:E; [|done]. simplify_eq.
      eapply Hprops; [by right|done].
    + destruct (conv_list _ _ _) as [[os s]|] eqn:E; [|done]. simplify_eq.
      destruct (conv_list_reached _ _ _ _ _ m (conv_grows h n) IH E Hm)
        as [?|(i & c & Hi & Hr)]; [by apply Hin|].
      right. apply (reach_child seen l (SIdx i) c); [done| |done]. simpl. by rewrite Hd.
    + destruct (conv_props _ _ _ _) as [[ps s]|] eqn:E; [|done]. simplify_eq.
      eapply Hprops; [by left|done].
Qed.

(** One step down from an object converted in full: the value under the step
    is converted when the steps before it are done, each in its turn. *)
Lemma conv_step_turn n seen l o seen' s c :
  conv h (S n) seen (VRef l) = Some (o, seen') -> l ∉ seen ->
  child h (VRef l) s = Some c ->
  exists oc sc sc',
    (s <> SKey "__proto__" -> tree_child o s = Some oc) /\
    conv h n sc c = Some (oc, sc') /\ {[l]} ∪ seen ⊆ sc /\ sc' ⊆ seen' /\
    step_turn h seen l s sc /\
    forall s' c' r' r,
      child h (VRef l) s' = Some c' -> step_rank h (VRef l) s' = Some r' ->
      step_rank h (VRef l) s = Some r -> (r' < r)%nat ->
      exists o' sa sa',
        conv h n sa c' = Some (o', sa') /\ {[l]} ∪ seen ⊆ sa /\ sa' ⊆ sc /\
        step_turn h seen l s' sa.
Proof.
  intros H Hl Hc. simpl in H.
  destruct (decide (l ∈ seen)); [done|].
  assert (Hnd : NoDup (([] : list (string * tree)).*1)) by constructor.
  assert (Hset : forall m (P : Prop), m ∈ {[l]} ∪ seen -> m = l \/ m ∈ seen \/ P)
    by set_solver.
  assert (Hprops : forall es ps k,
            deref h l = OObject es \/ deref h l = OMap es ->
            conv_props (conv h n) es [] ({[l]} ∪ seen) = Some (ps, seen') ->
            prop_lookup k es = Some c ->
            exists oc sc sc',
              (SKey k <> SKey "__proto__" -> prop_lookup k ps = Some oc) /\
              conv h n sc c = Some (oc, sc') /\ {[l]} ∪ seen ⊆ sc /\ sc' ⊆ seen' /\
              step_turn h seen l (SKey k) sc /\
              forall s' c' r' r,
                child h (VRef l) s' = Some c' -> step_rank h (VRef l) s' = Some r' ->
                step_rank h (VRef l) (SKey k) = Some r -> (r' < r)%nat ->
                exists o' sa sa',
                  conv h n sa c' = Some (o', sa') /\ {[l]} ∪ seen ⊆ sa /\ sa' ⊆ sc /\
                  step_turn h seen l s' sa).
  { intros es ps k Hd E Hk.
    pose proof (names_NoDup l es Hd) as Hes.
    assert (Hchild : forall k', child h (VRef l) (SKey k') = prop_lookup k' es)
      by (intros k'; simpl; by destruct Hd as [->| ->]).
    assert (Hrank : forall k', step_rank h (VRef l) (SKey k') = prop_rank k' es)
      by (intros k'; simpl; by destruct Hd as [->| ->]).
    assert (Hidx : forall i, child h (VRef l) (SIdx i) = None)
      by (intros i; simpl; by destruct Hd as [->| ->]).
    assert (Hturn : forall k' i sc, prop_rank k' es = Some i ->
              list_turn h (es.*2) ({[l]} ∪ seen) i sc -> step_turn h seen l (SKey k') sc).
    { intros k' i sc Hi Ht m Hm. destruct (Ht m Hm) as [?|(j & cj & Hj & Hcj & Hr)]; [by apply Hset|].
      right; right. rewrite list_lookup_fmap in Hcj.
      destruct (es !! j) as [[kj cj']|] eqn:Hej; [|done]. simpl in Hcj. simplify_eq.
      destruct (prop_at_index es j kj cj Hes Hej) as [Hkj Hrj].
      exists (SKey kj), cj, j, i. by rewrite !Hchild, !Hrank. }
    destruct (prop_rank k es) as [r|] eqn:Hr;
      [|apply prop_rank_lookup in Hr; congruence].
    pose proof (prop_index es k c r Hk Hr) as Hi.
    destruct (conv_props_turn _ _ _ _ _ _ _ _ _ (conv_grows h n) (conv_reached n)
                Hnd Hes E Hi) as (oc & sc & sc' & Ho & Hconv & ? & ? & Ht & Hsib).
    exists oc, sc, sc'. repeat split; [|done..| |].
    - intros Hne. apply Ho. congruence.
    - by eapply Hturn.
    - intros s' c' r' r0 Hc' R' R Hlt. destruct s' as [i|k']; [by rewrite Hidx in Hc'|].
      rewrite Hchild in Hc'. rewrite Hrank in R', R. simplify_eq.
      destruct (Hsib r' k' c' Hlt (prop_index es k' c' r' Hc' R'))
        as (o' & sa & sa' & ? & ? & ? & Hta).
      exists o', sa, sa'. repeat split; [done..|]. by eapply Hturn. }
  simpl in Hc.
  destruct (deref h l) as [k bs|bs|es|vs|es] eqn:Hd; try done.
  - destruct s as [i|k]; [done|].
    destruct (conv_props _ _ _ _) as [[ps s']|] eqn:E; [|done]. simplify_eq.
    exact (Hprops es ps k (or_intror eq_refl) E Hc).
  - destruct s as [i|k]; [|done].
    destruct (conv_list _ _ _) as [[os s']|] eqn:E; [|done]. simplify_eq.
    assert (Hturn : forall i sc, (i < length vs)%nat ->
              list_turn h vs ({[l]} ∪ seen) i sc -> step_turn h seen l (SIdx i) sc).
    { intros i0 sc Hi0 Ht m Hm.
      destruct (Ht m Hm) as [?|(j & cj & Hj & Hcj & Hr)]; [by apply Hset|].
      right; right. exists (SIdx j), cj, j, i0. simpl. rewrite Hd.
      destruct (decide (j < length vs)%nat); [|lia].
      destruct (decide (i0 < length vs)%nat); [|lia]. done. }
    destruct (conv_list_turn _ _ _ _ _ _ _ (conv_grows h n) (conv_reached n) E Hc)
      as (oc & sc & sc' & Ho & Hconv & ? & ? & Ht & Hsib).
    pose proof (lookup_lt_Some _ _ _ Hc) as Hi.
    exists oc, sc, sc'. repeat split; [done..| |].
    + by apply Hturn.
    + intros s' c' r' r0 Hc' R' R Hlt. simpl in Hc', R', R. rewrite Hd in Hc', R', R.
      destruct s' as [j|k']; [|done].
      destruct (decide (j < length vs)%nat); [|done].
      destruct (decide (i < length vs)%nat); [|done]. simplify_eq.
      destruct (Hsib r' c' Hlt Hc') as (o' & sa & sa' & ? & ? & ? & Hta).
      exists o', sa, sa'. repeat split; [done..|]. by apply Hturn.
  - destruct s as [i|k]; [done|].
    destruct (conv_props _ _ _ _) as [[ps s']|] eqn:E; [|done]. simplify_eq.
    exact (Hprops es ps k (or_introl eq_refl) E Hc).
Qed.

(** The value at a position the traversal comes to is converted, at that
    position of the result unless a step is [__proto__]; what is seen by
    then stands at an earlier position, and every object at an earlier
    position the traversal comes to is seen by then. *)
Lemma conv_visit n seen v o seen' p c :
  conv h n seen v = Some (o, seen') -> walk h v p = Some c -> opens h seen v p ->
  exists n' sc sc' t,
    conv h n' sc c = Some (t, sc') /\ seen ⊆ sc /\ sc' ⊆ seen' /\
    (no_proto p = true -> tree_at o p = Some t) /\
    (forall m, m ∈ sc ->
       m ∈ seen \/
       exists q, earlier h v q p /\ walk h v q = Some (VRef m) /\ NoDup (trail h v q) /\
                 forall x, x ∈ trail h v q -> x ∉ seen) /\
    (forall p' l, earlier h v p' p -> walk h v p' = Some (VRef l) -> opens h seen v p' ->
       l ∈ sc).
Proof.
  revert seen v o seen' p c.
  induction n as [|n IH]; intros seen v o seen' p c H Hw Hopen; [done|].
  destruct p as [|s p].
  - simpl in Hw. simplify_eq. exists (S n), seen, seen', o.
    repeat split; [done..|by left|]. intros p' l Hp'. by apply earlier_nil in Hp'.
  - cbn [walk] in Hw. destruct (child h v s) as [c1|] eqn:Hc; [|done].
    destruct v as [pr|l0]; [done|].
    destruct (Hopen [] (s :: p) l0 eq_refl ltac:(done) eq_refl) as [Hl0 _].
    destruct (conv_step_turn _ _ _ _ _ _ _ H Hl0 Hc)
      as (oc & sc1 & sc1' & Ho & H1 & Hs1 & Hs1' & Hturn & Hsib).
    pose proof (opens_down _ _ _ _ _ _ Hopen Hc Hl0 Hs1 Hturn) as Hopen1.
    destruct (IH _ _ _ _ _ _ H1 Hw Hopen1)
      as (n' & sc & sc' & t & Hconv & Hsc & Hsc' & Ht & Hch & Hlater).
    exists n', sc, sc', t. repeat split; [done|set_solver|set_solver| | |].
    + intros [Hs Hp]%no_proto_cons. cbn [tree_at]. rewrite (Ho Hs). by apply Ht.
    + intros m Hm. destruct (Hch m Hm) as [Hin|(q & Hq & Hwq & Hnd & Hdis)].
      * destruct (Hturn m Hin)
          as [->|[?|(s' & c' & r' & r & Hc' & R' & R & Hlt & q & Hwq & Hnd & Hdis)]].
        -- right. exists []. split; [left; by exists s, p|]. split; [done|].
           split; [apply NoDup_singleton|]. by intros x ->%list_elem_of_singleton.
        -- by left.
        -- right. exists (s' :: q). rewrite (trail_step _ _ _ _ Hc'). cbn [walk]. rewrite Hc'.
           split; [right; exists [], (VRef l0), s', s, r', r, q, p; by repeat split|].
           split; [done|]. split.
           ++ apply NoDup_cons. split; [|done]. intros Hin'. apply (Hdis l0 Hin'). set_solver.
           ++ intros x [->|Hx]%elem_of_cons; [done|]. specialize (Hdis x Hx). set_solver.
      * right. exists (s :: q). rewrite (trail_step _ _ _ _ Hc). cbn [walk]. rewrite Hc.
        split; [by eapply earlier_cons|]. split; [done|]. split.
        -- apply NoDup_cons. split; [|done]. intros Hin'. apply (Hdis l0 Hin'). set_solver.
        -- intros x [->|Hx]%elem_of_cons; [done|]. specialize (Hdis x Hx). set_solver.
    + intros p' l Hearlier Hw' Hopen'.
      destruct Hearlier
        as [(s' & r & Hq)|(p0 & v0 & s1 & s2 & r1 & r2 & q' & r' & Hp' & Hp & Hw0 & R1 & R2 & Hlt)].
      * destruct p' as [|s0 p''].
        -- simpl in Hw'. simplify_eq. set_solver.
        -- simpl in Hq. injection Hq as <- Hq. cbn [walk] in Hw'. rewrite Hc in Hw'.
           apply (Hlater p'' l); [left; by exists s', r|done|].
           by eapply opens_down.
      * destruct p0 as [|s0 p0'].
        -- simpl in Hp', Hp. injection Hp as <- <-. subst p'.
           simpl in Hw0. simplify_eq. cbn [walk] in Hw'.
           destruct (child h (VRef l0) s1) as [c'|] eqn:Hc'; [|done].
           destruct (Hsib s1 c' r1 r2 Hc' R1 R2 Hlt) as (o' & sa & sa' & Ha & Hsa & Hsa' & Hta).
           destruct (IH _ _ _ _ _ _ Ha Hw') as (n'' & sl & sl' & tl & Hl & _ & Hsl' & _).
           { by eapply opens_down. }
           apply Hsc, Hsa', Hsl'. by eapply conv_marks.
        -- simpl in Hp', Hp. injection Hp as <- Hp. subst p p'.
           cbn [walk] in Hw0, Hw'. rewrite Hc in Hw0, Hw'.
           apply (Hlater (p0' ++ s1 :: q') l); [|done|by eapply opens_down].
           right. by exists p0', v0, s1, s2, r1, r2, q', r'.
Qed.

(** The value at a position the traversal comes to. *)
Lemma serialize_visit root o p c :
  serialize h root = Some o -> traversed h root p -> walk h root p = Some c ->
  exists n sc sc' t,
    conv h n sc c = Some (t, sc') /\
    (no_proto p = true -> tree_at o p = Some t) /\
    (forall l, c = VRef l -> first_visit h root p -> l ∉ sc) /\
    (forall p' l, earlier h root p' p -> walk h root p' = Some (VRef l) ->
       traversed h root p' -> l ∈ sc).
Proof.
  intros Hser Htr Hw. unfold serialize in Hser.
  destruct (conv h _ ∅ root) as [[o' s']|] eqn:E; [|done].
  simpl in Hser. simplify_eq.
  destruct (conv_visit _ _ _ _ _ _ _ E Hw (traversed_opens _ _ Htr))
    as (n' & sc & sc' & t & Hconv & _ & _ & Ht & Hch & Hlater).
  exists n', sc, sc', t. repeat split; [done..| |].
  - intros l -> Hfirst Hl. destruct (Hch l Hl) as [?|(q & Hq & Hwq & Hnd & _)]; [set_solver|].
    by apply (Hfirst p [] l (eq_sym (app_nil_r p)) Hw q).
  - intros p' l Hp' Hw' Htr'. apply (Hlater p' l Hp' Hw'). by apply traversed_opens.
Qed.

(** The object at a first visit is converted in full there. *)
Lemma serialize_first_full root o p l :
  serialize h root = Some o -> first_visit h root p -> no_proto p = true ->
  walk h root p = Some (VRef l) ->
  exists t, tree_at o p = Some t /\ full_shape h l t /\ expanded t.
Proof.
  intros Hser Hfirst Hp Hw.
  destruct (serialize_visit _ _ _ _ Hser (first_visit_traversed _ _ Hfirst) Hw)
    as (n & sc & sc' & t & Hc & Ht & Hl & _).
  exists t. split; [by apply Ht|]. eapply conv_full; [exact Hc|by apply Hl].
Qed.

(** Every step down from a first visit has its place in the result. *)
Lemma serialize_first_child root o p l s c :
  serialize h root = Some o -> first_visit h root p -> no_proto (p ++ [s]) = true ->
  walk h root p = Some (VRef l) -> child h (VRef l) s = Some c ->
  is_Some (tree_at o (p ++ [s])).
Proof.
  intros Hser Hfirst Hps Hw Hc.
  destruct (serialize_visit root o (p ++ [s]) c Hser (traversed_snoc _ _ _ Hfirst))
    as (n & sc & sc' & t & _ & Ht & _).
  { rewrite walk_app, Hw. cbn [walk]. by rewrite Hc. }
  rewrite (Ht Hps). by eexists.
Qed.
End traversal.

Lemma traversed_nil h v : traversed h v [].
Proof. intros p1 p2 l Hp Hp2. by destruct p1, p2. Qed.

Lemma first_visit_nil h v : first_visit h v [].
Proof.
  intros p1 p2 l Hp Hw q Hq. destruct p1; [|done]. by apply earlier_nil in Hq.
Qed.

Lemma traversed_one h v s : traversed h v [s].
Proof. apply (traversed_snoc h v [] s), first_visit_nil. Qed.

(** The value under the first step of a composite that does not hold itself
    there. *)
Lemma first_visit_first h v s c :
  step_rank h v s = Some 0%nat -> child h v s = Some c -> c <> v -> first_visit h v [s].
Proof.
  intros R Hc Hne p1 p2 l Hp Hw q Hq _.
  destruct p1 as [|s' p1].
  - by apply earlier_nil in Hq.
  - simpl in Hp. injection Hp as <- Hp. destruct p1; [|done]. clear Hp.
    cbn [walk] in Hw. rewrite Hc in Hw. simplify_eq.
    destruct Hq as [(s' & r & Hq)|(p0 & v0 & s1 & s2 & r1 & r2 & q' & p' & _ & Hp' & Hw0 & _ & R2 & Hlt)].
    + destruct q; [|by destruct q]. simpl. congruence.
    + destruct p0; [|by destruct p0]. simpl in *. simplify_eq. lia.
Qed.








(** ** serialize: typed arrays and DataViews *)

Lemma byte_val_range b : 0 <= byte_val b <= 255.
Proof.
  unfold byte_val. pose proof (Byte.to_N_bounded b) as Hb.
  split; [apply N2Z.is_nonneg|].
  change 255 with (Z.of_N 255). by apply N2Z.inj_le.
Qed.

Lemma single_byte_elems (f : list Byte.byte -> prim) (pre bs : list Byte.byte) :
  map (fun i => f (take 1 (drop (i * 1) (pre ++ bs)))) (seq (length pre) (length bs))
  = map (fun b => f [b]) bs.
Proof.
  revert pre. induction bs as [|b r IH]; intros pre; simpl; [done|].
  f_equal.
  - rewrite Nat.mul_1_r, drop_app_length. done.
  - specialize (IH (pre ++ [b])).
    rewrite length_app, Nat.add_1_r, <- app_assoc in IH. done.
Qed.

Lemma typed_elems_bytes k bs :
  k = Uint8 \/ k = Uint8Clamped -> typed_elems k bs = view_bytes bs.
Proof.
  intros Hk. unfold typed_elems, typed_length, view_bytes.
  assert (elem_size k = 1%nat) as -> by (by destruct Hk as [-> | ->]).
  rewrite Nat.div_1_r.
  etrans; [exact (single_byte_elems (decode_elem k) [] bs)|].
  apply map_ext. intros b. destruct Hk as [-> | ->]; simpl; f_equal; f_equal; lia.
Qed.

Lemma serialize_object h l ob :
  h !! l = Some ob ->
  serialize h (VRef l) =
    match ob with
    | OTyped k bs => Some (TArr (map TPrim (typed_elems k bs)))
    | ODataView bs => Some (TArr (map TPrim (view_bytes bs)))
    | OMap es | OObject es =>
        TObj <$> (fst <$> conv_props (conv h (size (dom h))) es [] {[l]})
    | OArray vs => TArr <$> (fst <$> conv_list (conv h (size (dom h))) vs {[l]})
    end.
Proof.
  intros Hl. unfold serialize. simpl.
  destruct (decide (l ∈ (∅ : gset loc))) as [|_]; [set_solver|].
  unfold deref. rewrite Hl. simpl. rewrite (right_id_L ∅ (∪)).
  destruct ob as [k bs|bs|es|vs|es]; try done.
  - by destruct (conv_props _ _ _ _) as [[ps s]|].
  - by destruct (conv_list _ _ _) as [[ps s]|].
  - by destruct (conv_props _ _ _ _) as [[ps s]|].
Qed.

Lemma view_bytes_byte_trees bs : Forall byte_tree (map TPrim (view_bytes bs)).
Proof.
  induction bs as [|b r IH]; simpl; constructor; [|done].
  exists (byte_val b). split; [done|apply byte_val_range].
Qed.

(** C7, the claim as stated fails: a typed array converts to its elements, and
    those of an [Int8Array] holding the byte [0xff] are [[-1]]. *)
Lemma serialize_int8_not_bytes :
  serialize heap_int8 (VRef 0%nat) = Some (TArr [TPrim (PNum (NInt (-1)))]) /\
  ~ (exists es, serialize heap_int8 (VRef 0%nat) = Some (TArr es) /\ Forall byte_tree es).
Proof.
  assert (E : serialize heap_int8 (VRef 0%nat) = Some (TArr [TPrim (PNum (NInt (-1)))]))
    by (vm_compute; reflexivity).
  split; [exact E|].
  intros (es & Hes & Hall). rewrite E in Hes. simplify_eq.
  inversion Hall as [|? ? (z & Hz & Hr) _]; subst. simplify_eq. lia.
Qed.

(** C7, amended: [serialize] turns every typed array into the ordered sequence
    of its elements; for a [Uint8Array], a [Uint8ClampedArray] and a
    [DataView] these are the bytes of the view in order, each an integer
    between 0 and 255. *)
Theorem serialize_views (h : heap) (l : loc) :
  (forall k bs, h !! l = Some (OTyped k bs) ->
     serialize h (VRef l) = Some (TArr (map TPrim (typed_elems k bs)))) /\
  (forall k bs, h !! l = Some (OTyped k bs) -> k = Uint8 \/ k = Uint8Clamped ->
     exists es, serialize h (VRef l) = Some (TArr es) /\
       es = map (fun b => TPrim (PNum (NInt (byte_val b)))) bs /\ Forall byte_tree es) /\
  (forall bs, h !! l = Some (ODataView bs) ->
     exists es, serialize h (VRef l) = Some (TArr es) /\
       es = map (fun b => TPrim (PNum (NInt (byte_val b)))) bs /\ Forall byte_tree es).
Proof.
  split; [|split].
  - intros k bs Hl. by rewrite (serialize_object h l _ Hl).
  - intros k bs Hl Hk. rewrite (serialize_object h l _ Hl), (typed_elems_bytes k bs Hk).
    eexists. split; [done|]. split; [|apply view_bytes_byte_trees].
    unfold view_bytes. by rewrite map_map.
  - intros bs Hl. rewrite (serialize_object h l _ Hl).
    eexists. split; [done|]. split; [|apply view_bytes_byte_trees].
    unfold view_bytes. by rewrite map_map.
Qed.

Lemma serialize_views_witness :
  heap_uint8 !! 0%nat = Some (OTyped Uint8 [Byte.x01; Byte.xff]) /\
  exists es, serialize heap_uint8 (VRef 0%nat) = Some (TArr es) /\
    es = map (fun b => TPrim (PNum (NInt (byte_val b)))) [Byte.x01; Byte.xff] /\
    Forall byte_tree es.
Proof.
  split; [vm_compute; reflexivity|].
  apply (proj1 (proj2 (serialize_views heap_uint8 0%nat)) Uint8).
  - vm_compute; reflexivity.
  - left; reflexivity.
Defined.

(** ** Amounts: decimal strings parse back *)

Lemma append_nil_r s : (s ++ "")%string = s.
Proof. induction s as [|c r IH]; [done|]. change (String c (r ++ "") = String c r). by rewrite IH. Qed.

Lemma append_assoc s t u : ((s ++ t) ++ u)%string = (s ++ (t ++ u))%string.
Proof.
  induction s as [|c r IH]; [done|].
  change (String c ((r ++ t) ++ u) = String c (r ++ (t ++ u))). by rewrite IH.
Qed.

Lemma string_rev_app s t : string_rev (s ++ t) = (string_rev t ++ string_rev s)%string.
Proof.
  induction s as [|c r IH]; simpl; [by rewrite append_nil_r|].
  by rewrite IH, append_assoc.
Qed.

Lemma string_rev_involutive s : string_rev (string_rev s) = s.
Proof.
  induction s as [|c r IH]; simpl; [done|].
  rewrite string_rev_app. simpl. by rewrite IH.
Qed.

Lemma all_chars_app P s t : all_chars P (s ++ t) = all_chars P s && all_chars P t.
Proof. induction s as [|c r IH]; simpl; [done|]. by rewrite IH, andb_assoc. Qed.

Lemma all_chars_rev P s : all_chars P (string_rev s) = all_chars P s.
Proof.
  induction s as [|c r IH]; simpl; [done|].
  rewrite all_chars_app, IH. simpl. rewrite andb_true_r. apply andb_comm.
Qed.

Lemma all_chars_weaken (P Q : ascii -> bool) s :
  (forall c, P c = true -> Q c = true) -> all_chars P s = true -> all_chars Q s = true.
Proof.
  intros HPQ. induction s as [|c r IH]; simpl; [done|].
  intros [Hc Hr]%andb_true_iff. by rewrite (HPQ c Hc), IH.
Qed.

Lemma prefix_nil s : String.prefix "" s = true.
Proof. by destruct s. Qed.

(** A string does not start with a character it does not contain. *)
Lemma prefix_absent P a t s :
  all_chars P s = true -> P a = false -> String.prefix (String a t) s = false.
Proof.
  destruct s as [|c r]; simpl; [done|]. intros [Hc _]%andb_true_iff Ha.
  destruct (ascii_dec a c); [congruence|done].
Qed.

Lemma prefix_absent_second P a b s :
  all_chars P s = true -> P b = false -> String.prefix (String a (String b "")) s = false.
Proof.
  destruct s as [|c r]; simpl; [done|]. intros [_ Hr]%andb_true_iff Hb.
  destruct (ascii_dec a c); [|done]. by eapply prefix_absent.
Qed.

Lemma sign_or_digit_not_space c : sign_or_digit c = true -> negb (is_space c) = true.
Proof.
  unfold sign_or_digit, is_digit, is_space.
  destruct (Ascii.eqb_spec c "-") as [->|_]; [done|].
  rewrite orb_false_r. generalize (nat_of_ascii c). intros n Hn.
  apply andb_true_iff in Hn as [H1%Nat.leb_le H2%Nat.leb_le].
  apply negb_true_iff.
  destruct (Nat.leb_spec 9 n), (Nat.leb_spec n 13), (Nat.eqb_spec n 32), (Nat.eqb_spec n 160);
    simpl; try done; lia.
Qed.

Lemma trim_start_id s : all_chars (fun c => negb (is_space c)) s = true -> trim_start s = s.
Proof.
  destruct s as [|c r]; simpl; [done|]. intros [Hc _]%andb_true_iff.
  by apply negb_true_iff in Hc as ->.
Qed.

Lemma trim_id s : all_chars sign_or_digit s = true -> trim s = s.
Proof.
  intros Hs%(all_chars_weaken _ (fun c => negb (is_space c)) _ sign_or_digit_not_space).
  unfold trim. rewrite (trim_start_id s Hs), trim_start_id, string_rev_involutive; [done|].
  by rewrite all_chars_rev.
Qed.

Lemma endsWith_n s : all_chars sign_or_digit s = true -> endsWith s "n" = false.
Proof.
  intros Hs. unfold endsWith. simpl.
  eapply prefix_absent; [by rewrite all_chars_rev|done].
Qed.

Lemma digits_of_uint d : all_chars is_digit (NilEmpty.string_of_uint d) = true.
Proof. induction d; simpl; by rewrite ?IHd. Qed.

Lemma parse_decimal_of_uint d :
  d <> Decimal.Nil -> parse_decimal (NilEmpty.string_of_uint d) = Some (Z.of_uint d).
Proof.
  intros Hd. unfold parse_decimal.
  destruct (NilEmpty.string_of_uint d) eqn:E; [by destruct d|].
  by rewrite <- E, NilEmpty.usu.
Qed.

Lemma StringToBigInt_digits d :
  d <> Decimal.Nil -> StringToBigInt (NilEmpty.string_of_uint d) = Some (Z.of_uint d).
Proof.
  intros Hd. pose proof (digits_of_uint d) as Hdig.
  assert (Hsd : all_chars sign_or_digit (NilEmpty.string_of_uint d) = true).
  { eapply all_chars_weaken; [|exact Hdig]. intros c Hc. unfold sign_or_digit. by rewrite Hc. }
  unfold StringToBigInt, startsWith. rewrite (trim_id _ Hsd).
  rewrite !(prefix_absent_second is_digit) by done.
  rewrite !(prefix_absent is_digit) by done.
  destruct (String.eqb_spec (NilEmpty.string_of_uint d) "") as [E|_]; [by destruct d|].
  simpl. by apply parse_decimal_of_uint.
Qed.

Lemma StringToBigInt_negative d :
  d <> Decimal.Nil ->
  StringToBigInt (String "-" (NilEmpty.string_of_uint d)) = Some (- Z.of_uint d).
Proof.
  intros Hd. pose proof (digits_of_uint d) as Hdig.
  assert (Hsd : all_chars sign_or_digit (String "-" (NilEmpty.string_of_uint d)) = true).
  { simpl. eapply all_chars_weaken; [|exact Hdig].
    intros c Hc. unfold sign_or_digit. by rewrite Hc. }
  unfold StringToBigInt, startsWith. rewrite (trim_id _ Hsd).
  simpl. rewrite prefix_nil. simpl. by rewrite parse_decimal_of_uint.
Qed.

Lemma string_of_uint_nonnil d :
  d <> Decimal.Nil -> NilZero.string_of_uint d = NilEmpty.string_of_uint d.
Proof. by destruct d. Qed.

Lemma BigInt_toString_chars z : all_chars sign_or_digit (BigInt_toString z) = true.
Proof.
  assert (Hw : forall d, all_chars sign_or_digit (NilEmpty.string_of_uint d) = true).
  { intros d. eapply all_chars_weaken; [|apply digits_of_uint].
    intros c Hc. unfold sign_or_digit. by rewrite Hc. }
  unfold BigInt_toString. destruct z as [|p|p]; simpl; [done| |].
  - rewrite string_of_uint_nonnil; [apply Hw|apply DecimalPos.Unsigned.to_uint_nonnil].
  - rewrite string_of_uint_nonnil; [apply Hw|apply DecimalPos.Unsigned.to_uint_nonnil].
Qed.

Lemma StringToBigInt_toString z : StringToBigInt (BigInt_toString z) = Some z.
Proof.
  unfold BigInt_toString. destruct z as [|p|p]; simpl; [vm_compute; reflexivity| |].
  - pose proof (DecimalPos.Unsigned.to_uint_nonnil p) as Hn.
    rewrite string_of_uint_nonnil, StringToBigInt_digits by done.
    unfold Z.of_uint. by rewrite DecimalPos.Unsigned.of_to.
  - pose proof (DecimalPos.Unsigned.to_uint_nonnil p) as Hn.
    rewrite string_of_uint_nonnil, StringToBigInt_negative by done.
    unfold Z.of_uint. by rewrite DecimalPos.Unsigned.of_to.
Qed.

Lemma toBigInt_toString z : toBigInt (PStr (BigInt_toString z)) = Return z.
Proof.
  unfold toBigInt.
  by rewrite (endsWith_n _ (BigInt_toString_chars z)), StringToBigInt_toString.
Qed.

(** C8: [serialize] maps a BigInt to its decimal string, [toBigInt] maps that
    string back to the same integer, and serializing what was parsed gives the
    same string again: [serialize(toBigInt(serialize(x))) = serialize(x)]. *)
Theorem bigint_round_trip (h : heap) (z : Z) :
  serialize h (VPrim (PBigInt z)) = Some (TPrim (PStr (BigInt_toString z))) /\
  toBigInt (PStr (BigInt_toString z)) = Return z /\
  serialize_parsed h (BigInt_toString z) = serialize h (VPrim (PBigInt z)).
Proof.
  split; [done|]. split; [apply toBigInt_toString|].
  unfold serialize_parsed. by rewrite toBigInt_toString.
Qed.

(** ** The prev-hash prefetch *)

Ltac settled := do 2 eexists; split; [reflexivity|simpl; auto].

(** Unfold the steps of a command and project the fields of the worlds that
    appear. *)
Ltac msimpl :=
  repeat (unfold bind, ret, throw, lift, try_catch, when, call_env, stdout_write,
            stderr_write, set_exitCode, writeFile, sendTransaction, SystemProgram,
            readJson, Connection);
  cbn [w_calls w_stdout w_stderr w_exitCode fst snd negb].

Section prefetch_facts.
Variable rt : runtime.

(** The prefetch returns, whatever the environment answers, and touches
    neither the streams nor the exit code. *)
Lemma fetchPrev_returns connection address w :
  exists r w',
    fetchPrevTxHashFromNetwork rt connection address w = (Return r, w') /\
    w_stdout w' = w_stdout w /\ w_stderr w' = w_stderr w /\
    w_exitCode w' = w_exitCode w.
Proof.
  unfold fetchPrevTxHashFromNetwork, try_catch, bind, SystemProgram, sendTransaction,
    call_env, lift, ret. simpl.
  destruct (rt_build rt _ _ _) as [tx|e]; simpl; [|settled].
  destruct (rt_send rt _ _ _) as [res|e]; simpl; [|settled].
  destruct (_ || _ || _); [settled|].
  destruct (get_prop _ res "decoded") as [decoded|e]; simpl; [|settled].
  unfold decoded_get. destruct decoded as [p|l]; simpl; [settled|].
  destruct (deref _ l) as [k bs|bs|es|vs|es]; simpl; try settled.
  destruct (prop_lookup "get" es) as [[[| | | | | |f]|]|]; simpl; try settled.
  unfold bind, call_env, ret. simpl.
  destruct (rt_apply rt _ _ _ _) as [r|e]; simpl; settled.
Qed.
End prefetch_facts.

(** C1: [fetchPrevTxHashFromNetwork] returns for every connection, address and
    environment: it never throws.  It returns "no previous hash" when the
    builder of the query throws, when the send throws, and when the response
    is not ok or carries a non-zero numeric [executionStatus] or [abortCode];
    and it changes neither the output streams nor the exit code. *)
Theorem fetchPrev_never_throws (rt : runtime) (connection : value) (address : text) (w : world) :
  (exists r, (fetchPrevTxHashFromNetwork rt connection address w).1 = Return r) /\
  w_stdout (fetchPrevTxHashFromNetwork rt connection address w).2 = w_stdout w /\
  w_stderr (fetchPrevTxHashFromNetwork rt connection address w).2 = w_stderr w /\
  w_exitCode (fetchPrevTxHashFromNetwork rt connection address w).2 = w_exitCode w /\
  (forall e, rt_build rt (w_calls w) getLastTxHash [AString address] = Throw e ->
     (fetchPrevTxHashFromNetwork rt connection address w).1 = Return None) /\
  (forall tx e,
     rt_build rt (w_calls w) getLastTxHash [AString address] = Return tx ->
     rt_send rt (w_calls w ++ [CBuild getLastTxHash [AString address]]) connection tx = Throw e ->
     (fetchPrevTxHashFromNetwork rt connection address w).1 = Return None) /\
  (forall tx res,
     rt_build rt (w_calls w) getLastTxHash [AString address] = Return tx ->
     rt_send rt (w_calls w ++ [CBuild getLastTxHash [AString address]]) connection tx
       = Return res ->
     truthy (get_opt (rt_heap rt) res "ok") = false \/
     nonzero_number (get_opt (rt_heap rt) res "executionStatus") = true \/
     nonzero_number (get_opt (rt_heap rt) res "abortCode") = true ->
     (fetchPrevTxHashFromNetwork rt connection address w).1 = Return None).
Proof.
  destruct (fetchPrev_returns rt connection address w) as (r & w' & E & H1 & H2 & H3).
  split; [exists r; by rewrite E|].
  do 3 (split; [by rewrite E|]).
  clear E H1 H2 H3.
  unfold fetchPrevTxHashFromNetwork, try_catch, bind, SystemProgram, sendTransaction,
    call_env, lift, ret. simpl.
  split; [|split].
  - intros e ->. done.
  - intros tx e -> Hs. simpl. by rewrite Hs.
  - intros tx res -> Hs Hg. simpl. rewrite Hs. simpl.
    assert (negb (truthy (get_opt (rt_heap rt) res "ok"))
            || nonzero_number (get_opt (rt_heap rt) res "executionStatus")
            || nonzero_number (get_opt (rt_heap rt) res "abortCode") = true) as ->; [|done].
    destruct Hg as [-> | [-> | ->]]; simpl; by rewrite ?orb_true_r.
Qed.

Lemma fetchPrev_never_throws_witness :
  rt_send rt_not_ok [CBuild getLastTxHash [AString (Lit "lea1abc")]]
    (VPrim (PStr "connection")) (VPrim (PStr "tx")) = Return (VRef 0%nat) /\
  truthy (get_opt (rt_heap rt_not_ok) (VRef 0%nat) "ok") = false /\
  (fetchPrevTxHashFromNetwork rt_not_ok (VPrim (PStr "connection")) (Lit "lea1abc") world0).1
    = Return None.
Proof.
  split; [reflexivity|]. split; [vm_compute; reflexivity|].
  apply (proj2 (proj2 (proj2 (proj2 (proj2 (proj2
           (fetchPrev_never_throws rt_not_ok (VPrim (PStr "connection")) (Lit "lea1abc")
              world0))))))
           (VPrim (PStr "tx")) (VRef 0%nat)).
  - reflexivity.
  - reflexivity.
  - left. vm_compute; reflexivity.
Defined.

Section prefetch_result.
Variable rt : runtime.

Lemma new_calls_app w cs w' : w_calls w' = w_calls w ++ cs -> new_calls w w' = cs.
Proof. unfold new_calls. intros ->. by rewrite drop_app_length. Qed.

(** The calls of a prefetch. *)
Lemma fetchPrev_calls connection address w :
  exists cs,
    w_calls (fetchPrevTxHashFromNetwork rt connection address w).2 = w_calls w ++ cs /\
    Forall prefetch_call cs.
Proof.
  unfold fetchPrevTxHashFromNetwork, try_catch, bind, SystemProgram, sendTransaction,
    call_env, lift, ret. simpl.
  destruct (rt_build rt _ _ _) as [tx|e]; simpl;
    [|by eexists; split; [done|repeat constructor]].
  destruct (rt_send rt _ _ _) as [res|e]; simpl; rewrite <- ?app_assoc;
    [|by eexists; split; [done|repeat constructor]].
  destruct (_ || _ || _); [by eexists; split; [done|repeat constructor]|].
  destruct (get_prop _ res "decoded") as [decoded|e]; simpl;
    [|by eexists; split; [done|repeat constructor]].
  unfold decoded_get. destruct decoded as [p|l]; simpl;
    [by eexists; split; [done|repeat constructor]|].
  destruct (deref _ l) as [k bs|bs|es|vs|es]; simpl;
    try (by eexists; split; [done|repeat constructor]).
  destruct (prop_lookup "get" es) as [[[| | | | | |f]|]|]; simpl;
    try (by eexists; split; [done|repeat constructor]).
  unfold bind, call_env, ret. simpl.
  destruct (rt_apply rt _ _ _ _) as [r|e]; simpl; rewrite <- ?app_assoc;
    by eexists; split; [done|repeat constructor].
Qed.

(** A previous hash is only ever what [accept_last] accepted. *)
Lemma fetchPrev_accepted connection address w p :
  (fetchPrevTxHashFromNetwork rt connection address w).1 = Return (Some p) ->
  exists last, accept_last rt last = Some p.
Proof.
  unfold fetchPrevTxHashFromNetwork, try_catch, bind, SystemProgram, sendTransaction,
    call_env, lift, ret. simpl.
  destruct (rt_build rt _ _ _) as [tx|e]; simpl; [|done].
  destruct (rt_send rt _ _ _) as [res|e]; simpl; [|done].
  destruct (_ || _ || _); [done|].
  destruct (get_prop _ res "decoded") as [decoded|e]; simpl; [|done].
  unfold decoded_get. destruct decoded as [q|l]; simpl; [done|].
  destruct (deref _ l) as [k bs|bs|es|vs|es]; simpl; try done.
  - intros [= H]. by eexists.
  - destruct (prop_lookup "get" es) as [[[| | | | | |f]|]|]; simpl; try done.
    unfold bind, call_env, ret. simpl.
    destruct (rt_apply rt _ _ _ _) as [r|e]; simpl; [|done].
    intros [= H]. by eexists.
Qed.

Lemma typed_length_bytes bs : typed_length Uint8 bs = length bs.
Proof. unfold typed_length. simpl. apply Nat.div_1_r. Qed.

(** The two shapes [accept_last] accepts. *)
Lemma accept_last_shape last p :
  accept_last rt last = Some p ->
  exists l, last = VRef l /\
    ((exists bs, deref (rt_heap rt) l = OTyped Uint8 bs /\ length bs = 32%nat /\ p = U8Same l) \/
     (exists vs, deref (rt_heap rt) l = OArray vs /\ length vs = 32%nat /\
        forallb is_byte_number vs = true /\ p = U8New (map ToUint8 vs))).
Proof.
  unfold accept_last. destruct last as [q|l]; [done|]. intros H. exists l. split; [done|].
  destruct (deref (rt_heap rt) l) as [k bs|bs|es|vs|es]; try done.
  - destruct k; try done. rewrite typed_length_bytes in H.
    destruct (Nat.eqb_spec (length bs) 32); [|done]. left. exists bs. by simplify_eq.
  - destruct (forallb is_byte_number vs) eqn:Hall; [|done].
    rewrite length_map in H.
    destruct (Nat.eqb_spec (length vs) 32); [|done]. right. exists vs. by simplify_eq.
Qed.

Lemma byte_range_all bs : Forall (fun b => 0 <= byte_val b <= 255) bs.
Proof. induction bs; constructor; [apply byte_val_range|done]. Qed.
End prefetch_result.

(** C3: when [fetchPrevTxHashFromNetwork] returns a hash, it is a
    [Uint8Array] of exactly 32 elements, each an unsigned byte; it is either
    the [Uint8Array] of length 32 found as [lastTxHash] or a new one made from
    an array of 32 integers between 0 and 255, and a candidate of any other
    shape or length is not accepted. *)
Theorem prev_hash_is_32_bytes (rt : runtime) (connection : value) (address : text) (w : world) :
  (forall p, (fetchPrevTxHashFromNetwork rt connection address w).1 = Return (Some p) ->
     length (u8_bytes (rt_heap rt) p) = 32%nat /\
     Forall (fun b => 0 <= byte_val b <= 255) (u8_bytes (rt_heap rt) p)) /\
  (forall p, (fetchPrevTxHashFromNetwork rt connection address w).1 = Return (Some p) ->
     exists last, accept_last rt last = Some p) /\
  (forall last p, accept_last rt last = Some p ->
     exists l, last = VRef l /\
       ((exists bs, deref (rt_heap rt) l = OTyped Uint8 bs /\ length bs = 32%nat /\
           p = U8Same l) \/
        (exists vs, deref (rt_heap rt) l = OArray vs /\ length vs = 32%nat /\
           forallb is_byte_number vs = true /\ p = U8New (map ToUint8 vs)))).
Proof.
  split; [|split].
  - intros p Hp. split; [|apply byte_range_all].
    apply fetchPrev_accepted in Hp as [last Hlast].
    apply accept_last_shape in Hlast as (l & -> & [(bs & Hl & Hlen & ->)|(vs & Hl & Hlen & _ & ->)]).
    + simpl. by rewrite Hl.
    + simpl. by rewrite length_map.
  - apply fetchPrev_accepted.
  - apply accept_last_shape.
Qed.

Lemma prev_hash_is_32_bytes_witness :
  (fetchPrevTxHashFromNetwork rt_found (VPrim (PStr "connection")) (Lit "lea1abc") world0).1
    = Return (Some (U8Same 3%nat)) /\
  length (u8_bytes (rt_heap rt_found) (U8Same 3%nat)) = 32%nat /\
  Forall (fun b => 0 <= byte_val b <= 255) (u8_bytes (rt_heap rt_found) (U8Same 3%nat)).
Proof.
  split; [vm_compute; reflexivity|].
  apply (proj1 (prev_hash_is_32_bytes rt_found (VPrim (PStr "connection")) (Lit "lea1abc")
                  world0)).
  vm_compute; reflexivity.
Defined.

(** C2: [buildWithPrevHash] runs the prefetch, which always returns, and then
    calls the builder once, with the original arguments followed by one
    options object; that object has a [prevTxHash] key exactly when the
    prefetch found a hash and is empty when it found none.  None of the calls
    of the prefetch is a call of the builder with such arguments. *)
Theorem buildWithPrevHash_calls_builder_once (rt : runtime) (connection : value)
    (b : builder) (args : list arg) (address : text) (w : world) :
  exists prev w1,
    fetchPrevTxHashFromNetwork rt connection address w = (Return prev, w1) /\
    (forall buildFn,
       buildWithPrevHash rt connection buildFn args address w
       = buildFn (args ++ [AOptions (prev_options prev)]) w1) /\
    new_calls w (buildWithPrevHash rt connection (SystemProgram rt b) args address w).2
      = new_calls w w1 ++ [CBuild b (args ++ [AOptions (prev_options prev)])] /\
    (forall o, ~ In (CBuild b (args ++ [AOptions o])) (new_calls w w1)) /\
    (is_Some (prop_lookup "prevTxHash" (prev_options prev)) <-> is_Some prev) /\
    (prev = None -> prev_options prev = []).
Proof.
  destruct (fetchPrev_returns rt connection address w) as (prev & w1 & E & _).
  destruct (fetchPrev_calls rt connection address w) as (cs & Hcs & Hall).
  rewrite E in Hcs. simpl in Hcs.
  exists prev, w1. split; [done|].
  assert (Hgen : forall buildFn,
    buildWithPrevHash rt connection buildFn args address w
    = buildFn (args ++ [AOptions (prev_options prev)]) w1).
  { intros buildFn. unfold buildWithPrevHash, bind. by rewrite E. }
  split; [done|]. split; [|split; [|split]].
  - rewrite Hgen. unfold SystemProgram, call_env. simpl.
    rewrite (new_calls_app w cs w1 Hcs).
    apply new_calls_app. by rewrite Hcs, app_assoc.
  - intros o Hin. rewrite (new_calls_app w cs w1 Hcs) in Hin.
    rewrite Forall_forall in Hall. apply list_elem_of_In, Hall in Hin.
    destruct b; try done. simpl in Hin.
    destruct args as [|a [|a' r]]; simpl in Hin; try done; by destruct a.
  - destruct prev; simpl; split; intros [? ?]; try done; by eexists.
  - by intros ->.
Qed.

Lemma buildWithPrevHash_calls_builder_once_witness :
  exists prev w1,
    fetchPrevTxHashFromNetwork rt_not_ok (VPrim (PStr "connection")) (Lit "lea1abc") world0
      = (Return prev, w1) /\ prev = None /\ prev_options prev = [].
Proof.
  destruct (buildWithPrevHash_calls_builder_once rt_not_ok (VPrim (PStr "connection"))
              transfer [AString (Lit "lea1xyz"); ABigInt 5] (Lit "lea1abc") world0)
    as (prev & w1 & E & _ & _ & _ & _ & Hnone).
  exists prev, w1. split; [exact E|].
  assert (Hp : prev = None) by (vm_compute in E; congruence).
  split; [exact Hp|exact (Hnone Hp)].
Defined.

(** ** Reporting *)

Lemma get_prop_elsewhere h v k x k' :
  get_prop h v k = Return x -> get_prop h v k' = Return (get_opt h v k').
Proof. unfold get_prop. by destruct v as [[]|]. Qed.

Lemma get_prop_value h v k x : get_prop h v k = Return x -> x = get_opt h v k.
Proof. unfold get_prop. destruct v as [[]|]; intros; by simplify_eq. Qed.

(** What [sendAndReport] does with a response it can print. *)
Lemma sendAndReport_reports (rt : runtime) (connection tx : value)
    (outfile : option string) (quiet : bool) (w : world) (res ok : value) :
  rt_send rt (w_calls w) connection tx = Return res ->
  get_prop (rt_heap rt) res "ok" = Return ok ->
  (forall t, serialize (rt_heap rt) (get_opt (rt_heap rt) res "decoded") = Some t ->
     has_bigint t = false) ->
  (forall cs l, str_truthy outfile = true ->
     rt_writeFile rt cs (default "" outfile) l = Return tt) ->
  exists t w',
    serialize (rt_heap rt) (get_opt (rt_heap rt) res "decoded") = Some t /\
    sendAndReport rt connection tx outfile quiet w = (Return tt, w') /\
    w_stdout w' = w_stdout w ++ [LJson t] /\
    w_exitCode w' = (if truthy ok then w_exitCode w else Some 1) /\
    new_calls w w' =
      CSend connection tx ::
      (if str_truthy outfile then [CWriteFile (default "" outfile) (LJson t)] else []) /\
    w_stderr w' = w_stderr w ++
      (if quiet then []
       else [LStatus ok (get_opt (rt_heap rt) res "status")
               (or_empty (get_opt (rt_heap rt) res "txId"))
               (or_empty (get_opt (rt_heap rt) res "executionStatus"))
               (or_empty (get_opt (rt_heap rt) res "abortCode"))]).
Proof.
  intros Hsend Hok Hjson Hwrite.
  destruct (serialize_returns (rt_heap rt) (get_opt (rt_heap rt) res "decoded")) as [t Ht].
  pose proof (Hjson t Ht) as Hbig.
  pose proof (get_prop_elsewhere _ _ _ _ "decoded" Hok) as Hdec.
  exists t.
  unfold sendAndReport, status_line, serialize_step, JSON_line. msimpl. rewrite Hsend.
  destruct quiet; msimpl; rewrite ?Hok; msimpl; rewrite Hdec, Ht; msimpl;
    rewrite Hbig; msimpl;
    (destruct (str_truthy outfile) eqn:Hout; msimpl;
     [rewrite (Hwrite _ _ eq_refl)|]; rewrite ?Hok; destruct (truthy ok); msimpl;
     eexists; (split; [done|]); (split; [reflexivity|]); msimpl;
     repeat split; try done;
     try (apply new_calls_app; msimpl; by rewrite <- ?app_assoc);
     by rewrite app_nil_r).
Qed.




(** ** The keygen proxy *)

Section keygen_facts.
Variable rt : runtime.

Lemma spawnAndWait_run cmd args shell w :
  spawnAndWait rt cmd args shell w
  = (spawn_result (rt_spawn rt (w_calls w) cmd args shell),
     {| w_calls := w_calls w ++ [CSpawn cmd args shell];
        w_stdout := w_stdout w; w_stderr := w_stderr w;
        w_exitCode := spawn_exitCode (rt_spawn rt (w_calls w) cmd args shell) (w_exitCode w) |}).
Proof.
  unfold spawnAndWait. msimpl.
  destruct (rt_spawn rt (w_calls w) cmd args shell) as [e [code|]|[code|] signal];
    simpl; try done; by destruct (code =? 0).
Qed.

(** The first tier, call by call: it resolves the package, loads it, and
    runs the executable the package declares; it is done when that child
    exited, and in no other case. *)
Lemma tier1_eq args w :
  try_catch (keygen_installed rt args) (fun _ => ret false) w =
  match rt_resolve rt (w_calls w) "@getlea/keygen/package.json" with
  | Throw _ => (Return false, ran w [tier1_call] (w_exitCode w))
  | Return pkgPath =>
      match rt_require rt (w_calls w ++ [tier1_call]) pkgPath with
      | Throw _ => (Return false, ran w [tier1_call; CRequire pkgPath] (w_exitCode w))
      | Return pkg =>
          match keygen_bin pkg with
          | None => (Return false, ran w [tier1_call; CRequire pkgPath] (w_exitCode w))
          | Some s =>
              let o := spawn_answer rt (w_calls w ++ [tier1_call; CRequire pkgPath])
                         (tier1_spawn rt pkgPath s args) in
              (Return (exited o),
               ran w [tier1_call; CRequire pkgPath; tier1_spawn rt pkgPath s args]
                 (spawn_exitCode o (w_exitCode w)))
          end
      end
  end.
Proof.
  unfold keygen_installed, keygen_bin, ran, tier1_call. msimpl.
  destruct (rt_resolve rt _ _) as [pkgPath|e]; msimpl; [|done].
  destruct (rt_require rt _ _) as [pkg|e]; msimpl; rewrite <- ?app_assoc; simpl; [|done].
  destruct (tree_truthy _); [|done].
  destruct (relBin_of _) as [[| | | | |s|]|ts|ps]; msimpl; rewrite <- ?app_assoc; try done.
  rewrite spawnAndWait_run. msimpl. rewrite <- ?app_assoc. simpl.
  unfold tier1_spawn, spawn_answer.
  by destruct (rt_spawn rt _ _ _ _) as [e [c|]|[c|] sg].
Qed.

Lemma ran_last w cs c code :
  last_child_exited rt (w_calls (ran w (cs ++ [c]) code))
  = match c with
    | CSpawn cmd args shell => exited (rt_spawn rt (w_calls w ++ cs) cmd args shell)
    | _ => false
    end.
Proof.
  unfold ran, last_child_exited. cbn [w_calls]. rewrite app_assoc, reverse_snoc.
  destruct c; by rewrite ?reverse_involutive.
Qed.

(** The first tier ends without an exception, leaves the streams alone, and
    is done exactly when its last call ran a child that exited. *)
Lemma tier1_run args w :
  exists done1 w1 cs1,
    try_catch (keygen_installed rt args) (fun _ => ret false) w = (Return done1, w1) /\
    w_calls w1 = w_calls w ++ tier1_call :: cs1 /\
    w_stdout w1 = w_stdout w /\ w_stderr w1 = w_stderr w /\
    w_exitCode w1 = close_codes rt (w_calls w) (tier1_call :: cs1) (w_exitCode w) /\
    done1 = last_child_exited rt (w_calls w1) /\
    (done1 = true ->
       exists pkgPath bin cs o,
         cs1 = [CRequire pkgPath; CSpawn (rt_execPath rt) (bin :: args) false] /\
         w_calls w1 = cs ++ [CSpawn (rt_execPath rt) (bin :: args) false] /\
         rt_spawn rt cs (rt_execPath rt) (bin :: args) false = o /\
         exited o = true /\ w_exitCode w1 = spawn_exitCode o (w_exitCode w)) /\
    (forall e, rt_resolve rt (w_calls w) "@getlea/keygen/package.json" = Throw e ->
       cs1 = [] /\ done1 = false) /\
    (forall pkgPath,
       rt_resolve rt (w_calls w) "@getlea/keygen/package.json" = Return pkgPath ->
       (forall e, rt_require rt (w_calls w ++ [tier1_call]) pkgPath = Throw e ->
          cs1 = [CRequire pkgPath] /\ done1 = false) /\
       (forall pkg, rt_require rt (w_calls w ++ [tier1_call]) pkgPath = Return pkg ->
          match keygen_bin pkg with
          | None => cs1 = [CRequire pkgPath] /\ done1 = false
          | Some s =>
              cs1 = [CRequire pkgPath; tier1_spawn rt pkgPath s args] /\
              done1 = exited (spawn_answer rt (w_calls w ++ [tier1_call; CRequire pkgPath])
                                (tier1_spawn rt pkgPath s args))
          end)).
Proof.
  rewrite tier1_eq.
  destruct (rt_resolve rt _ _) as [pkgPath|e] eqn:Hres.
  2:{ exists false. do 2 eexists. split; [reflexivity|]. split; [reflexivity|].
      do 3 (split; [done|]).
      split; [exact (eq_sym (ran_last w [] tier1_call _))|].
      split; [done|]. split; [done|]. done. }
  destruct (rt_require rt _ _) as [pkg|e] eqn:Hreq.
  2:{ exists false. do 2 eexists. split; [reflexivity|]. split; [reflexivity|].
      do 3 (split; [done|]).
      split; [exact (eq_sym (ran_last w [tier1_call] (CRequire pkgPath) _))|].
      split; [done|]. split; [done|].
      intros ? [= <-]. split; [done|]. by rewrite Hreq. }
  destruct (keygen_bin pkg) as [s|] eqn:Hbin.
  2:{ exists false. do 2 eexists. split; [reflexivity|]. split; [reflexivity|].
      do 3 (split; [done|]).
      split; [exact (eq_sym (ran_last w [tier1_call] (CRequire pkgPath) _))|].
      split; [done|]. split; [done|].
      intros ? [= <-]. split; [by rewrite Hreq|]. rewrite Hreq. intros ? [= <-].
      by rewrite Hbin. }
  cbv zeta. do 3 eexists. split; [reflexivity|]. split; [reflexivity|].
  assert (Hcalls : w_calls w ++ [tier1_call; CRequire pkgPath; tier1_spawn rt pkgPath s args]
                   = (w_calls w ++ [tier1_call; CRequire pkgPath])
                     ++ [tier1_spawn rt pkgPath s args]) by (by rewrite <- app_assoc).
  do 2 (split; [done|]).
  split; [simpl; by rewrite <- !app_assoc|].
  split; [exact (eq_sym (ran_last w [tier1_call; CRequire pkgPath]
                           (tier1_spawn rt pkgPath s args) _))|].
  split; [|split; [done|]].
  - intros Hex. exists pkgPath, (rt_binPath rt pkgPath s).
    exists (w_calls w ++ [tier1_call; CRequire pkgPath]). eexists.
    split; [reflexivity|]. split; [exact Hcalls|]. split; [reflexivity|]. by split.
  - intros ? [= <-]. split; [by rewrite Hreq|]. rewrite Hreq. intros ? [= <-].
    by rewrite Hbin.
Qed.

(** The run of the proxy, tier by tier. *)
Lemma runKeygen_run args w :
  exists done1 w1 cs1,
    try_catch (keygen_installed rt args) (fun _ => ret false) w = (Return done1, w1) /\
    w_calls w1 = w_calls w ++ tier1_call :: cs1 /\
    done1 = last_child_exited rt (w_calls w1) /\
    (done1 = true -> runKeygen rt args w = (Return tt, w1)) /\
    (done1 = false ->
       let o2 := spawn_answer rt (w_calls w1) (tier2_call rt args) in
       let o3 := spawn_answer rt (w_calls w1 ++ [tier2_call rt args]) (tier3_call rt args) in
       (exited o2 = true ->
          runKeygen rt args w
          = (Return tt,
             {| w_calls := w_calls w1 ++ [tier2_call rt args];
                w_stdout := w_stdout w; w_stderr := w_stderr w;
                w_exitCode := spawn_exitCode o2 (w_exitCode w1) |})) /\
       (exited o2 = false ->
          runKeygen rt args w
          = (spawn_result o3,
             {| w_calls := w_calls w1 ++ [tier2_call rt args; tier3_call rt args];
                w_stdout := w_stdout w; w_stderr := w_stderr w;
                w_exitCode := spawn_exitCode o3 (spawn_exitCode o2 (w_exitCode w1)) |}))).
Proof.
  destruct (tier1_run args w) as (done1 & w1 & cs1 & E & Hc & Hout & Herr & _ & Hlast & _).
  exists done1, w1, cs1. split; [done|]. split; [done|]. split; [done|].
  assert (Hrun : runKeygen rt args w =
    if done1 then (Return tt, w1)
    else (let* done := try_catch (keygen_on_path rt args) (fun _ => ret false) in
          if done then ret tt else keygen_npx rt args) w1).
  { unfold runKeygen. unfold bind at 1. rewrite E. by destruct done1. }
  rewrite Hrun. clear Hrun.
  split; [by intros ->|]. intros ->.
  unfold keygen_on_path, keygen_npx. msimpl. rewrite !spawnAndWait_run. msimpl.
  unfold tier2_call, tier3_call, spawn_answer.
  destruct (rt_spawn rt (w_calls w1) _ _ _) as [e close|[code|] signal] eqn:Hsp; simpl.
  - split; [done|]. intros _. rewrite spawnAndWait_run. msimpl.
    by rewrite Hout, Herr, <- app_assoc.
  - split; [|done]. intros _. by rewrite Hout, Herr.
  - split; [done|]. intros _. rewrite spawnAndWait_run. msimpl.
    by rewrite Hout, Herr, <- app_assoc.
Qed.

Lemma close_codes_app before cs1 cs2 old :
  close_codes rt before (cs1 ++ cs2) old
  = close_codes rt (before ++ cs1) cs2 (close_codes rt before cs1 old).
Proof.
  revert before old. induction cs1 as [|c cs1 IH]; intros before old; simpl.
  - by rewrite app_nil_r.
  - rewrite IH. by rewrite <- app_assoc.
Qed.

(** The exit code the proxy leaves is the one its children leave. *)
Lemma runKeygen_tracked args : tracked rt (runKeygen rt args).
Proof.
  intros w.
  destruct (tier1_run args w) as (d1 & w1 & cs1' & E1 & Hc1 & _ & _ & Hx1 & _).
  destruct (runKeygen_run args w) as (done1 & w1' & cs1 & E & Hc & _ & H1 & H2).
  rewrite E1 in E. simplify_eq.
  assert (cs1' = cs1) as -> by (rewrite Hc1 in Hc; by simplify_list_eq).
  destruct done1.
  - rewrite (H1 eq_refl). by exists (tier1_call :: cs1).
  - destruct (H2 eq_refl) as [Ha Hb].
    destruct (exited (spawn_answer rt (w_calls w1') (tier2_call rt args))).
    + rewrite (Ha eq_refl). exists ((tier1_call :: cs1) ++ [tier2_call rt args]).
      cbn [snd w_calls w_exitCode]. split; [by rewrite Hc1, <- app_assoc|].
      rewrite close_codes_app, <- Hc1, <- Hx1. done.
    + rewrite (Hb eq_refl).
      exists ((tier1_call :: cs1) ++ [tier2_call rt args; tier3_call rt args]).
      cbn [snd w_calls w_exitCode]. split; [by rewrite Hc1, <- app_assoc|].
      rewrite close_codes_app, <- Hc1, <- Hx1. done.
Qed.
End keygen_facts.

(** C9: the keygen proxy tries its tiers in one order.  It always starts with
    the first tier, whose first call resolves the keygen package.  When the
    package is found and loaded and declares an executable, the tier runs
    Node on that executable with the arguments, without a shell, and it is
    done exactly when that child exited; when the package is not found,
    cannot be loaded or declares no executable, the tier makes no further
    call and is not done.  The tier never lets an exception out.  When it is
    done, nothing else is tried.  Otherwise the very next call is the
    [lea-keygen] of the command search path; when that child exited, nothing
    else is tried; otherwise the very next call, and the last, is
    [npx -y @getlea/keygen], whose outcome is the outcome of the proxy. *)
Theorem keygen_tiers_in_order (rt : runtime) (args : list string) (w : world) :
  exists done1 w1 cs1,
    try_catch (keygen_installed rt args) (fun _ => ret false) w = (Return done1, w1) /\
    w_calls w1 = w_calls w ++ tier1_call :: cs1 /\
    done1 = last_child_exited rt (w_calls w1) /\
    (forall e, rt_resolve rt (w_calls w) "@getlea/keygen/package.json" = Throw e ->
       cs1 = [] /\ done1 = false) /\
    (forall pkgPath,
       rt_resolve rt (w_calls w) "@getlea/keygen/package.json" = Return pkgPath ->
       (forall e, rt_require rt (w_calls w ++ [tier1_call]) pkgPath = Throw e ->
          cs1 = [CRequire pkgPath] /\ done1 = false) /\
       (forall pkg, rt_require rt (w_calls w ++ [tier1_call]) pkgPath = Return pkg ->
          match keygen_bin pkg with
          | None => cs1 = [CRequire pkgPath] /\ done1 = false
          | Some s =>
              cs1 = [CRequire pkgPath; tier1_spawn rt pkgPath s args] /\
              done1 = exited (spawn_answer rt (w_calls w ++ [tier1_call; CRequire pkgPath])
                                (tier1_spawn rt pkgPath s args))
          end)) /\
    (done1 = true ->
       (runKeygen rt args w).1 = Return tt /\ new_calls w (runKeygen rt args w).2
       = tier1_call :: cs1) /\
    (done1 = false ->
       (exited (spawn_answer rt (w_calls w1) (tier2_call rt args)) = true ->
          (runKeygen rt args w).1 = Return tt /\
          new_calls w (runKeygen rt args w).2 = tier1_call :: cs1 ++ [tier2_call rt args]) /\
       (exited (spawn_answer rt (w_calls w1) (tier2_call rt args)) = false ->
          (runKeygen rt args w).1
            = spawn_result (spawn_answer rt (w_calls w1 ++ [tier2_call rt args])
                              (tier3_call rt args)) /\
          new_calls w (runKeygen rt args w).2
            = tier1_call :: cs1 ++ [tier2_call rt args; tier3_call rt args])).
Proof.
  destruct (runKeygen_run rt args w) as (done1 & w1 & cs1 & E & Hc & Hlast & H1 & H2).
  destruct (tier1_run rt args w)
    as (d1 & w1' & cs1' & E1 & Hc1 & _ & _ & _ & _ & _ & Hres & Hreq).
  rewrite E in E1. injection E1 as <- <-.
  assert (cs1' = cs1) as -> by (rewrite Hc1 in Hc; by simplify_list_eq).
  exists done1, w1, cs1. split; [done|]. split; [done|]. split; [done|].
  split; [done|]. split; [done|]. split.
  - intros Hd. rewrite (H1 Hd). split; [done|]. by apply new_calls_app.
  - intros Hd. destruct (H2 Hd) as [Ha Hb]. split.
    + intros Ho. rewrite (Ha Ho). split; [done|].
      apply new_calls_app. simpl. by rewrite Hc, <- app_assoc.
    + intros Ho. rewrite (Hb Ho). split; [done|].
      apply new_calls_app. simpl. by rewrite Hc, <- app_assoc.
Qed.

Lemma keygen_tiers_in_order_witness :
  (exists done1 w1 cs1,
     try_catch (keygen_installed rt_installed ["new"]) (fun _ => ret false) world0
       = (Return done1, w1) /\
     cs1 = [CRequire "node_modules/@getlea/keygen/package.json";
            CSpawn "node" ["dist/cli.js"; "new"] false] /\
     done1 = true /\
     (runKeygen rt_installed ["new"] world0).1 = Return tt /\
     new_calls world0 (runKeygen rt_installed ["new"] world0).2 = tier1_call :: cs1) /\
  (exists done1 w1 cs1,
     try_catch (keygen_installed rt_npx_only ["new"]) (fun _ => ret false) world0
       = (Return done1, w1) /\
     cs1 = [] /\ done1 = false /\
     exited (spawn_answer rt_npx_only (w_calls w1) (tier2_call rt_npx_only ["new"])) = false /\
     (runKeygen rt_npx_only ["new"] world0).1 = Return tt /\
     new_calls world0 (runKeygen rt_npx_only ["new"] world0).2
       = tier1_call :: cs1 ++ [tier2_call rt_npx_only ["new"]; tier3_call rt_npx_only ["new"]]).
Proof.
  split.
  - destruct (keygen_tiers_in_order rt_installed ["new"] world0)
      as (done1 & w1 & cs1 & E & Hc & _ & _ & Hreq & H1 & _).
    exists done1, w1, cs1. split; [exact E|].
    destruct (proj2 (Hreq "node_modules/@getlea/keygen/package.json" eq_refl) _ eq_refl)
      as [Hcs Hd].
    split; [exact Hcs|]. split; [exact Hd|]. exact (H1 Hd).
  - destruct (keygen_tiers_in_order rt_npx_only ["new"] world0)
      as (done1 & w1 & cs1 & E & Hc & _ & Hres & _ & _ & H2).
    exists done1, w1, cs1. split; [exact E|].
    destruct (Hres (Error "Cannot find module") eq_refl) as [Hcs Hd].
    assert (Ho : exited (spawn_answer rt_npx_only (w_calls w1) (tier2_call rt_npx_only ["new"]))
                 = false) by reflexivity.
    split; [exact Hcs|]. split; [exact Hd|]. split; [exact Ho|].
    exact (proj2 (H2 Hd) Ho).
Defined.

(** ** Exit codes *)

(** Case analysis on whatever a command branches on next. *)
Ltac branch :=
  match goal with
  | |- context [match ?x with Return _ => _ | Throw _ => _ end] => destruct x eqn:?
  | |- context [match ?x with Some _ => _ | None => _ end] => destruct x eqn:?
  | |- context [if ?b then _ else _] => destruct b eqn:?
  end.

Ltac report_ends :=
  first
    [ left; reflexivity
    | right; split; [reflexivity|]; do 2 eexists;
      split; [reflexivity|]; split; [eassumption|by apply negb_false_iff] ].

Section exit_facts.
Variable rt : runtime.

Lemma silent_ret {A} (a : A) : silent (ret a).
Proof. by intros w. Qed.

Lemma silent_throw {A} (e : exn) : silent (@throw A e).
Proof. by intros w. Qed.

Lemma silent_lift {A} (c : completion A) : silent (lift c).
Proof. by intros w. Qed.

Lemma silent_call_env {A} (c : call) (f : list call -> completion A) : silent (call_env c f).
Proof. by intros w. Qed.

Lemma silent_bind {A B} (m : M A) (k : A -> M B) :
  silent m -> (forall a, silent (k a)) -> silent (bind m k).
Proof.
  intros Hm Hk w. unfold bind. specialize (Hm w).
  destruct (m w) as [[a|e] w1]; simpl in *; [|done].
  destruct (Hk a w1) as (? & ? & ?). destruct Hm as (? & ? & ?).
  repeat split; congruence.
Qed.

Lemma silent_fetchPrev connection address :
  silent (fetchPrevTxHashFromNetwork rt connection address).
Proof.
  intros w. destruct (fetchPrev_returns rt connection address w) as (r & w' & E & ?).
  by rewrite E.
Qed.

Lemma silent_buildWithPrevHash connection b args address :
  silent (buildWithPrevHash rt connection (SystemProgram rt b) args address).
Proof.
  apply silent_bind; [apply silent_fetchPrev|]. intros prev. apply silent_call_env.
Qed.

Lemma silent_resolveAddress input : silent (resolveAddress rt input).
Proof.
  unfold resolveAddress. destruct input as [input|]; [|apply silent_throw].
  destruct (String.eqb input ""); [apply silent_throw|].
  destruct (isJsonPath input); [|apply silent_ret].
  apply silent_bind; [apply silent_call_env|]. intros j.
  apply silent_bind; [apply silent_lift|]. intros a.
  destruct (negb _); [apply silent_throw|apply silent_ret].
Qed.

Lemma silent_readSigner keyfile : silent (readSigner rt keyfile).
Proof.
  unfold readSigner. destruct keyfile as [keyfile|]; [|apply silent_throw].
  destruct (_ || _); [apply silent_throw|].
  apply silent_bind; [apply silent_call_env|]. intros j.
  apply silent_bind; [apply silent_lift|]. intros ks.
  apply silent_bind; [apply silent_lift|]. intros a.
  destruct (_ || _); [apply silent_throw|apply silent_ret].
Qed.

Lemma silent_build_tx connection command opts build :
  build_tx rt connection command opts = Some build -> silent build.
Proof.
  unfold build_tx. intros H.
  repeat (destruct (String.eqb command _); [injection H as <-|]); try done;
    repeat first
      [ apply silent_buildWithPrevHash | apply silent_call_env | apply silent_lift
      | apply silent_readSigner | apply silent_resolveAddress
      | apply silent_bind; [|intros ?] ].
Qed.

(** With the [catch] block of [main] around it, a command ends with the exit
    status it would have on its own. *)
Lemma main_catch_exit (m : M unit) outfile w :
  exit_status
    (try_catch m
       (fun err =>
          when (str_truthy outfile) (writeFile rt (default "" outfile) (LJsonError err)) >>
          stdout_write (LJsonError err) >>
          set_exitCode 1) w)
  = exit_status (m w).
Proof.
  msimpl. destruct (m w) as [[[]|e] w1]; [done|].
  destruct (str_truthy outfile); msimpl; [|done].
  by destruct (rt_writeFile rt _ _ _).
Qed.

(** [sendAndReport] ends with exit status 1 unless the response it prints
    has a truthy [ok]. *)
Lemma sendAndReport_status connection tx outfile quiet w :
  w_exitCode w = None ->
  exit_status (sendAndReport rt connection tx outfile quiet w) = 1 \/
  (exit_status (sendAndReport rt connection tx outfile quiet w) = 0 /\
   exists res ok,
     rt_send rt (w_calls w) connection tx = Return res /\
     get_prop (rt_heap rt) res "ok" = Return ok /\ truthy ok = true).
Proof.
  intros Hw.
  unfold sendAndReport, status_line, serialize_step, JSON_line. msimpl.
  destruct (rt_send rt (w_calls w) connection tx) as [res|e] eqn:Hs; msimpl.
  - destruct (get_prop (rt_heap rt) res "ok") as [ok|e] eqn:Hok.
    + rewrite (get_prop_elsewhere _ _ _ _ "decoded" Hok).
      destruct quiet; msimpl; rewrite ?Hok; msimpl;
        repeat (branch; msimpl); rewrite ?Hw; simpl; report_ends.
    + assert (Hdec : get_prop (rt_heap rt) res "decoded" = Throw e).
      { unfold get_prop in *. destruct res as [[]|]; by simplify_eq. }
      rewrite Hdec.
      destruct quiet; msimpl; rewrite ?Hok; msimpl;
        repeat (branch; msimpl); rewrite ?Hw; simpl; report_ends.
  - destruct quiet; msimpl; repeat (branch; msimpl); rewrite ?Hw; simpl; report_ends.
Qed.

Lemma handler_exit connection command opts w :
  w_exitCode w = None ->
  match build_tx rt connection command opts with
  | None => exit_status (handler rt connection command opts w) = 1
  | Some build =>
      (forall e w2, build w = (Throw e, w2) ->
         exit_status (handler rt connection command opts w) = 1) /\
      (forall tx w2, build w = (Return tx, w2) ->
         w_exitCode w2 = None /\
         handler rt connection command opts w
         = sendAndReport rt connection tx (o_outfile opts) (o_quiet opts) w2)
  end.
Proof.
  intros Hw. unfold handler.
  destruct (build_tx rt connection command opts) as [build|] eqn:Hb; [|done].
  pose proof (silent_build_tx _ _ _ _ Hb w) as (_ & _ & Hsil).
  unfold bind. split.
  - by intros e w2 ->.
  - intros tx w2 E. rewrite E in *. simpl in Hsil. split; [congruence|done].
Qed.

Lemma dispatch_exit argv command opts w :
  parseArgs argv = (command, opts) ->
  negb (str_truthy command) || o_help opts = false ->
  (forall e w1, Connection rt (cluster_of opts) w = (Throw e, w1) ->
     exit_status (dispatch rt argv w) = 1) /\
  (forall connection w1, Connection rt (cluster_of opts) w = (Return connection, w1) ->
     w_exitCode w1 = w_exitCode w /\
     exit_status (dispatch rt argv w)
     = exit_status (handler rt connection (default "" command) opts w1)).
Proof.
  intros Hp Hg. unfold dispatch. rewrite Hp. cbn beta iota. rewrite Hg.
  split.
  - intros e w1 E. unfold bind at 1. by rewrite E.
  - intros connection w1 E. unfold bind at 1. rewrite E. split; [|apply main_catch_exit].
    unfold Connection, call_env in E. by simplify_eq.
Qed.
End exit_facts.

Lemma close_exit_code code signal old :
  code <> 0 -> default 0 (spawn_exitCode (SpawnClose (Some code) signal) old) = code.
Proof. intros Hc. simpl. by destruct (Z.eqb_spec code 0). Qed.

Lemma exited_code o : exited o = true -> exists code signal, o = SpawnClose (Some code) signal.
Proof. destruct o as [e close|[code|] signal]; try done. by exists code, signal. Qed.

(** A proxy that returns ran a last child that exited, and leaves the exit
    code of that child unless it is 0. *)
Lemma runKeygen_exit rt args w :
  (runKeygen rt args w).1 = Return tt ->
  exists cs cmd a shell code signal,
    w_calls (runKeygen rt args w).2 = cs ++ [CSpawn cmd a shell] /\
    rt_spawn rt cs cmd a shell = SpawnClose (Some code) signal /\
    (code <> 0 -> exit_status (runKeygen rt args w) = code).
Proof.
  intros Hret.
  destruct (runKeygen_run rt args w) as (done1 & w1 & cs1 & E & _ & _ & H1 & H2).
  destruct (tier1_run rt args w) as (d1 & w1' & cs1' & E1 & _ & _ & _ & _ & _ & Hdone & _).
  rewrite E in E1. injection E1 as <- <-. destruct done1.
  - destruct (Hdone eq_refl) as (pkgPath & bin & cs & o & _ & Hcs & Ho & Hex & Hcode).
    rewrite (H1 eq_refl) in *. simpl.
    destruct (exited_code o Hex) as (code & signal & ->).
    exists cs, (rt_execPath rt), (bin :: args), false, code, signal.
    split; [done|]. split; [done|]. rewrite Hcode. apply close_exit_code.
  - destruct (H2 eq_refl) as [Ha Hb]. clear H1 H2 Hdone.
    destruct (exited (spawn_answer rt (w_calls w1) (tier2_call rt args))) eqn:Ho2.
    + rewrite (Ha eq_refl). cbn [fst snd w_calls].
      destruct (exited_code _ Ho2) as (code & signal & Hc).
      exists (w_calls w1). do 2 eexists. exists (rt_win32 rt), code, signal.
      split; [reflexivity|]. split; [exact Hc|].
      unfold exit_status. cbn [w_exitCode]. rewrite Hc.
      apply close_exit_code.
    + rewrite (Hb eq_refl) in Hret |- *. cbn [fst snd w_calls] in Hret |- *.
      destruct (spawn_answer rt (w_calls w1 ++ [tier2_call rt args]) (tier3_call rt args))
        as [e close|[code|] signal] eqn:Ho3; try done.
      exists (w_calls w1 ++ [tier2_call rt args]).
      do 2 eexists. exists (rt_win32 rt), code, signal.
      split; [by rewrite <- app_assoc|]. split; [exact Ho3|].
      unfold exit_status. cbn [spawn_result w_exitCode].
      apply close_exit_code.
Qed.




(** * Further properties *)

(** ** Paths *)

Lemma prefix_app t r : String.prefix t (t ++ r) = true.
Proof.
  induction t as [|c t IH]; simpl; [apply prefix_nil|].
  destruct (ascii_dec c c); [done|congruence].
Qed.

Lemma prefix_split t s : String.prefix t s = true -> exists r, s = (t ++ r)%string.
Proof.
  revert s. induction t as [|c t IH]; intros s; simpl; [by exists s|].
  destruct s as [|c' s]; [done|]. simpl. destruct (ascii_dec c c') as [->|]; [|done].
  intros [r ->]%IH. by exists r.
Qed.

Lemma endsWith_app p t : endsWith (p ++ t) t = true.
Proof. unfold endsWith. rewrite string_rev_app. apply prefix_app. Qed.

Lemma endsWith_split s t : endsWith s t = true -> exists p, s = (p ++ t)%string.
Proof.
  unfold endsWith. intros [r Hr]%prefix_split. exists (string_rev r).
  rewrite <- (string_rev_involutive s), Hr, string_rev_app.
  by rewrite string_rev_involutive.
Qed.

Lemma toLowerCase_app s t : toLowerCase (s ++ t) = (toLowerCase s ++ toLowerCase t)%string.
Proof. induction s as [|c s IH]; simpl; [done|]. by rewrite IH. Qed.

Lemma toLowerCase_split s a b :
  toLowerCase s = (a ++ b)%string ->
  exists p e, s = (p ++ e)%string /\ toLowerCase p = a /\ toLowerCase e = b.
Proof.
  revert s. induction a as [|c a IH]; intros s; simpl.
  - intros H. by exists "", s.
  - destruct s as [|c' s]; [done|]. simpl. intros [= Hc H].
    destruct (IH s H) as (p & e & -> & Hp & He).
    exists (String c' p), e. simpl. by rewrite Hc, Hp.
Qed.

(** X1: [isJsonPath] holds exactly of the strings that end with [.json] in some
    mix of upper and lower case. *)
Theorem isJsonPath_iff (s : string) :
  isJsonPath s = true <-> exists p e, s = (p ++ e)%string /\ toLowerCase e = ".json".
Proof.
  unfold isJsonPath. split.
  - intros [q Hq]%endsWith_split.
    destruct (toLowerCase_split s q ".json" Hq) as (p & e & -> & _ & He). by exists p, e.
  - intros (p & e & -> & He). rewrite toLowerCase_app, He. apply endsWith_app.
Qed.

Lemma isJsonPath_iff_witness :
  (exists p e, "keys/Alice.JSON" = (p ++ e)%string /\ toLowerCase e = ".json") /\
  isJsonPath "keys/Alice.JSON" = true.
Proof.
  assert (H : exists p e, "keys/Alice.JSON" = (p ++ e)%string /\ toLowerCase e = ".json")
    by (exists "keys/Alice", ".JSON"; split; reflexivity).
  split; [exact H|]. exact (proj2 (isJsonPath_iff "keys/Alice.JSON") H).
Defined.

(** ** Amounts *)

Lemma drop_last_app s c : drop_last (s ++ String c "") = s.
Proof.
  unfold drop_last. rewrite string_rev_app. simpl. apply string_rev_involutive.
Qed.

Lemma trim_start_spaces a s :
  all_chars is_space a = true -> trim_start (a ++ s) = trim_start s.
Proof.
  induction a as [|c a IH]; simpl; [done|]. intros [-> Ha]%andb_true_iff. by apply IH.
Qed.

Lemma trim_start_all a : all_chars is_space a = true -> trim_start a = "".
Proof. intros Ha. by rewrite <- (append_nil_r a), (trim_start_spaces a "" Ha). Qed.

Lemma trim_spaces a : all_chars is_space a = true -> trim a = "".
Proof. intros Ha. unfold trim. by rewrite (trim_start_all a Ha). Qed.

Lemma trim_around a s b :
  all_chars is_space a = true -> all_chars is_space b = true ->
  all_chars sign_or_digit s = true -> trim (a ++ s ++ b) = s.
Proof.
  intros Ha Hb Hs.
  assert (Hs' : all_chars (fun c => negb (is_space c)) s = true)
    by (eapply all_chars_weaken; [apply sign_or_digit_not_space|done]).
  unfold trim. rewrite (trim_start_spaces a _ Ha).
  destruct s as [|c s].
  - change ("" ++ b)%string with b. by rewrite (trim_start_all b Hb).
  - assert (E : trim_start (String c s ++ b) = (String c s ++ b)%string).
    { simpl in *. apply andb_true_iff in Hs' as [Hc _]. by apply negb_true_iff in Hc as ->. }
    rewrite E, string_rev_app, trim_start_spaces by (by rewrite all_chars_rev).
    rewrite trim_start_id by (by rewrite all_chars_rev).
    apply string_rev_involutive.
Qed.

Lemma endsWith_n_spaces s :
  all_chars (fun c => sign_or_digit c || is_space c) s = true -> endsWith s "n" = false.
Proof.
  intros Hs. unfold endsWith. simpl.
  eapply prefix_absent; [by rewrite all_chars_rev|done].
Qed.

(** X2: An amount may be written as a decimal integer followed by [n], or with
    white space around it: both parse to the integer. *)
Theorem toBigInt_formats (z : Z) :
  toBigInt (PStr (BigInt_toString z ++ "n")) = Return z /\
  (forall a b, all_chars is_space a = true -> all_chars is_space b = true ->
     toBigInt (PStr (a ++ BigInt_toString z ++ b)) = Return z).
Proof.
  split.
  - unfold toBigInt. by rewrite endsWith_app, drop_last_app, StringToBigInt_toString.
  - intros a b Ha Hb. pose proof (BigInt_toString_chars z) as Hz.
    unfold toBigInt. rewrite endsWith_n_spaces.
    + pose proof (StringToBigInt_toString z) as Hp. unfold StringToBigInt in *.
      rewrite (trim_around a _ b Ha Hb Hz). rewrite (trim_id _ Hz) in Hp. by rewrite Hp.
    + rewrite !all_chars_app. apply andb_true_iff. split; [|apply andb_true_iff; split].
      * eapply all_chars_weaken; [|exact Ha]. intros c ->. apply orb_true_r.
      * eapply all_chars_weaken; [|exact Hz]. by intros c ->.
      * eapply all_chars_weaken; [|exact Hb]. intros c ->. apply orb_true_r.
Qed.

Lemma toBigInt_formats_witness :
  toBigInt (PStr (" " ++ BigInt_toString (-42) ++ "  ")) = Return (-42).
Proof.
  apply (proj2 (toBigInt_formats (-42)) " " "  "); reflexivity.
Defined.

(** X3: An empty amount, and one made of white space only, is the integer 0, also
    when it is followed by [n]. *)
Theorem toBigInt_blank (s : string) :
  all_chars is_space s = true ->
  toBigInt (PStr s) = Return 0 /\ toBigInt (PStr (s ++ "n")) = Return 0.
Proof.
  intros Hs.
  assert (H0 : StringToBigInt s = Some 0).
  { unfold StringToBigInt. by rewrite (trim_spaces s Hs). }
  split; unfold toBigInt.
  - rewrite endsWith_n_spaces, H0; [done|].
    eapply all_chars_weaken; [|exact Hs]. intros c ->. apply orb_true_r.
  - by rewrite endsWith_app, drop_last_app, H0.
Qed.

Lemma toBigInt_blank_witness :
  toBigInt (PStr "  ") = Return 0 /\ toBigInt (PStr ("  " ++ "n")) = Return 0.
Proof. apply (toBigInt_blank "  "). reflexivity. Defined.

(** ** mapToObject *)

Example array_index_examples :
  array_index "0" = true /\ array_index "17" = true /\ array_index "017" = false /\
  array_index "4294967294" = true /\ array_index "4294967295" = false /\
  array_index "lastTxHash" = false /\ array_index BASE_POD_HEX = false.
Proof. vm_compute. repeat split. Qed.

Lemma assign_keys {A} k (v : A) acc k' :
  k' ∈ ((assign k v acc).*1) <-> k' = k \/ k' ∈ (acc.*1).
Proof.
  induction acc as [|[k0 v0] r IH]; simpl; [set_solver|].
  destruct (String.eqb_spec k k0); simpl; set_solver.
Qed.

Lemma assign_NoDup {A} k (v : A) acc : NoDup (acc.*1) -> NoDup ((assign k v acc).*1).
Proof.
  induction acc as [|[k0 v0] r IH]; simpl; intros Hnd.
  - repeat constructor. set_solver.
  - apply NoDup_cons in Hnd as [Hk0 Hr].
    destruct (String.eqb_spec k k0); simpl; [by subst; constructor|].
    constructor; [|by apply IH].
    rewrite assign_keys. naive_solver.
Qed.

Lemma assign_fresh {A} k (v : A) acc : k ∉ (acc.*1) -> assign k v acc = acc ++ [(k, v)].
Proof.
  induction acc as [|[k0 v0] r IH]; simpl; [done|]. intros Hk.
  destruct (String.eqb_spec k k0); [set_solver|]. rewrite IH; [done|set_solver].
Qed.

Lemma prop_lookup_assign_eq {A} k (v : A) acc :
  NoDup (acc.*1) -> prop_lookup k (assign k v acc) = Some v.
Proof.
  induction acc as [|[k0 v0] r IH]; simpl; intros Hnd.
  - by rewrite String.eqb_refl.
  - apply NoDup_cons in Hnd as [Hk0 Hr].
    destruct (String.eqb_spec k k0); simpl.
    + subst. rewrite prop_lookup_absent by done. by rewrite String.eqb_refl.
    + by rewrite IH.
Qed.

Lemma prop_lookup_assign_ne {A} k k' (v : A) acc :
  k <> k' -> prop_lookup k' (assign k v acc) = prop_lookup k' acc.
Proof.
  intros Hne. induction acc as [|[k0 v0] r IH]; simpl.
  - destruct (String.eqb_spec k' k); [congruence|done].
  - destruct (String.eqb_spec k k0); simpl; [|by rewrite IH].
    subst. destruct (prop_lookup k' r); [done|].
    destruct (String.eqb_spec k' k0); [congruence|done].
Qed.

Lemma fold_assign_NoDup {A} (es acc : list (string * A)) :
  NoDup (acc.*1) -> NoDup ((fold_left (fun obj e => assign e.1 e.2 obj) es acc).*1).
Proof.
  revert acc. induction es as [|[k v] r IH]; simpl; intros acc Hnd; [done|].
  by apply IH, assign_NoDup.
Qed.

Lemma fold_assign_lookup {A} k (es acc : list (string * A)) :
  NoDup (acc.*1) ->
  prop_lookup k (fold_left (fun obj e => assign e.1 e.2 obj) es acc)
  = match prop_lookup k es with
    | Some x => Some x
    | None => prop_lookup k acc
    end.
Proof.
  revert acc. induction es as [|[k0 v0] r IH]; simpl; intros acc Hnd; [done|].
  rewrite IH by (by apply assign_NoDup).
  destruct (prop_lookup k r); [done|].
  destruct (String.eqb_spec k k0) as [->|Hne].
  - by apply prop_lookup_assign_eq.
  - by apply prop_lookup_assign_ne.
Qed.

Lemma fold_assign_fresh {A} (es acc : list (string * A)) :
  NoDup (acc.*1 ++ es.*1) ->
  fold_left (fun obj e => assign e.1 e.2 obj) es acc = acc ++ es.
Proof.
  revert acc. induction es as [|[k v] r IH]; simpl; intros acc Hnd;
    [by rewrite app_nil_r|].
  assert (Hk : k ∉ (acc.*1)).
  { apply NoDup_app in Hnd as (_ & Hd & _). intros Hin. apply (Hd k Hin). set_solver. }
  rewrite (assign_fresh k v acc Hk), IH; [by rewrite <- app_assoc|].
  rewrite fmap_app, <- app_assoc. done.
Qed.

(** X4: [mapToObject] makes an object with one property for each key of the
    entries, holding the value the entries give last under that key; entries
    with distinct keys, as those of a Map are, none of them an array index,
    come out as they are, in their order. *)
Theorem mapToObject_entries {A} (entries : list (string * A)) :
  NoDup ((mapToObject entries).*1) /\
  (forall k, prop_lookup k (mapToObject entries) = prop_lookup k entries) /\
  (NoDup (entries.*1) -> no_index_names entries = true -> mapToObject entries = entries).
Proof.
  unfold mapToObject. split; [|split].
  - apply fold_assign_NoDup. constructor.
  - intros k. rewrite fold_assign_lookup by constructor. by destruct (prop_lookup k entries).
  - intros Hnd _. by rewrite fold_assign_fresh.
Qed.

Lemma mapToObject_entries_witness :
  mapToObject [("b", 2); ("a", 1)] = [("b", 2); ("a", 1)].
Proof.
  apply (proj2 (proj2 (mapToObject_entries [("b", 2); ("a", 1)]))).
  - apply NoDup_cons. split.
    + intros H. apply list_elem_of_singleton in H. discriminate H.
    + apply NoDup_singleton.
  - reflexivity.
Defined.

(** ** serialize: the result is JSON-safe *)

Lemma lookup_no_bigint h l ob :
  no_bigint_arrays h = true -> h !! l = Some ob -> bigint_array ob = false.
Proof.
  unfold no_bigint_arrays. rewrite forallb_forall. intros Hall Hl.
  apply negb_true_iff, (Hall (l, ob)), list_elem_of_In. by apply elem_of_map_to_list.
Qed.

Lemma existsb_prims (ps : list prim) :
  Forall (fun p => conv_prim p = p) ps -> existsb has_bigint (map TPrim ps) = false.
Proof.
  induction 1 as [|p ps Hp _ IH]; simpl; [done|]. rewrite IH. by destruct p.
Qed.

Lemma typed_elems_numbers k bs :
  bigint_array (OTyped k bs) = false -> Forall (fun p => conv_prim p = p) (typed_elems k bs).
Proof.
  intros Hk. unfold typed_elems. apply Forall_fmap, Forall_true. intros i.
  by destruct k.
Qed.

Lemma view_bytes_numbers bs : Forall (fun p => conv_prim p = p) (view_bytes bs).
Proof. unfold view_bytes. by apply Forall_fmap, Forall_true. Qed.

Lemma set_prop_no_bigint k v acc :
  has_bigint v = false -> existsb (fun p => has_bigint p.2) acc = false ->
  existsb (fun p => has_bigint p.2) (set_prop k v acc) = false.
Proof.
  intros Hv. unfold set_prop. destruct (String.eqb k "__proto__"); [done|].
  induction acc as [|[k0 v0] r IH]; simpl; [by rewrite Hv|].
  intros [H0 Hr]%orb_false_iff. destruct (String.eqb k k0); simpl.
  - by rewrite Hv, Hr.
  - by rewrite H0, IH.
Qed.

Section json_safe.
Variable h : heap.
Hypothesis Hsafe : no_bigint_arrays h = true.

Lemma conv_list_no_bigint f vs seen os seen' :
  (forall seen v o s, f seen v = Some (o, s) -> has_bigint o = false) ->
  conv_list f vs seen = Some (os, seen') -> existsb has_bigint os = false.
Proof.
  intros Hf. revert seen os. induction vs as [|v r IH]; simpl; intros seen os H.
  - by simplify_eq.
  - destruct (f seen v) as [[o s1]|] eqn:E1; [|done].
    destruct (conv_list f r s1) as [[os' s2]|] eqn:E2; [|done]. simplify_eq.
    simpl. by rewrite (Hf _ _ _ _ E1), (IH _ _ E2).
Qed.

Lemma conv_props_no_bigint f es acc seen ps seen' :
  (forall seen v o s, f seen v = Some (o, s) -> has_bigint o = false) ->
  existsb (fun p => has_bigint p.2) acc = false ->
  conv_props f es acc seen = Some (ps, seen') ->
  existsb (fun p => has_bigint p.2) ps = false.
Proof.
  intros Hf. revert acc seen. induction es as [|[k v] r IH]; simpl; intros acc seen Hacc H.
  - by simplify_eq.
  - destruct (f seen v) as [[o s1]|] eqn:E1; [|done].
    eapply IH; [|exact H]. apply set_prop_no_bigint; [by eapply Hf|done].
Qed.

Lemma conv_no_bigint n seen v o s :
  conv h n seen v = Some (o, s) -> has_bigint o = false.
Proof.
  revert seen v o s. induction n as [|n IH]; intros seen v o s H; [done|]. simpl in H.
  destruct v as [p|l]; [destruct p; by simplify_eq|].
  destruct (decide (l ∈ seen)); [by simplify_eq|].
  unfold deref in H. destruct (h !! l) as [ob|] eqn:El; simpl in H; [|by simplify_eq].
  pose proof (lookup_no_bigint h l ob Hsafe El) as Hob.
  destruct ob as [k bs|bs|es|vs|es].
  - simplify_eq. simpl. by apply existsb_prims, typed_elems_numbers.
  - simplify_eq. simpl. apply existsb_prims, view_bytes_numbers.
  - destruct (conv_props _ _ _ _) as [[ps s']|] eqn:E; [|done]. simplify_eq. simpl.
    exact (conv_props_no_bigint _ es [] _ ps s IH eq_refl E).
  - destruct (conv_list _ _ _) as [[os s']|] eqn:E; [|done]. simplify_eq. simpl.
    exact (conv_list_no_bigint _ _ _ _ _ IH E).
  - destruct (conv_props _ _ _ _) as [[ps s']|] eqn:E; [|done]. simplify_eq. simpl.
    exact (conv_props_no_bigint _ es [] _ ps s IH eq_refl E).
Qed.
End json_safe.

Lemma typed_elems_first k bs n :
  typed_length k bs = S n ->
  exists p ps, typed_elems k bs = p :: ps /\
               p = decode_elem k (take (elem_size k) (drop (0 * elem_size k) bs)).
Proof. unfold typed_elems. intros ->. simpl. by do 2 eexists. Qed.



(** ** serialize: arrays of primitives, and serializing again *)

Lemma conv_list_prims h n ps seen :
  conv_list (conv h (S n)) (map VPrim ps) seen
  = Some (map (fun p => TPrim (conv_prim p)) ps, seen).
Proof.
  induction ps as [|p ps IH]; [done|].
  change (map VPrim (p :: ps)) with (VPrim p :: map VPrim ps).
  cbn [conv_list].
  assert (conv h (S n) seen (VPrim p) = Some (TPrim (conv_prim p), seen)) as ->
    by (by destruct p).
  by rewrite IH.
Qed.

Lemma dom_size_pos (h : heap) l ob : h !! l = Some ob -> exists n, size (dom h) = S n.
Proof.
  intros Hl. destruct (size (dom h)) as [|n] eqn:E; [|by eexists].
  apply size_empty_inv in E. apply elem_of_dom_2 in Hl. set_solver.
Qed.

Lemma serialize_prims h l ps :
  h !! l = Some (OArray (map VPrim ps)) ->
  serialize h (VRef l) = Some (TArr (map (fun p => TPrim (conv_prim p)) ps)).
Proof.
  intros Hl. rewrite (serialize_object h l _ Hl).
  destruct (dom_size_pos h l _ Hl) as [n ->]. by rewrite conv_list_prims.
Qed.

Lemma map_conv_prim_id ps :
  Forall (fun p => conv_prim p = p) ps ->
  map (fun p => TPrim (conv_prim p)) ps = map TPrim ps.
Proof. induction 1 as [|p ps Hp _ IH]; simpl; [done|]. by rewrite Hp, IH. Qed.

(** X6: An array of primitives converts element by element: a BigInt to its
    decimal string, any other primitive to itself.  So serializing again what
    a typed array or a [DataView] was converted to gives the same result,
    unless the elements are BigInts. *)
Theorem serialize_again (h : heap) (l l' : loc) :
  (forall ps, h !! l' = Some (OArray (map VPrim ps)) ->
     serialize h (VRef l') = Some (TArr (map (fun p => TPrim (conv_prim p)) ps))) /\
  (forall k bs, h !! l = Some (OTyped k bs) -> bigint_array (OTyped k bs) = false ->
     h !! l' = Some (OArray (map VPrim (typed_elems k bs))) ->
     serialize h (VRef l') = serialize h (VRef l)) /\
  (forall bs, h !! l = Some (ODataView bs) ->
     h !! l' = Some (OArray (map VPrim (view_bytes bs))) ->
     serialize h (VRef l') = serialize h (VRef l)).
Proof.
  split; [|split].
  - apply serialize_prims.
  - intros k bs Hl Hk Hl'.
    rewrite (serialize_prims h l' _ Hl'), (serialize_object h l _ Hl).
    by rewrite map_conv_prim_id by (by apply typed_elems_numbers).
  - intros bs Hl Hl'.
    rewrite (serialize_prims h l' _ Hl'), (serialize_object h l _ Hl).
    by rewrite map_conv_prim_id by apply view_bytes_numbers.
Qed.

Lemma serialize_again_witness :
  serialize heap_uint16 (VRef 1%nat) = serialize heap_uint16 (VRef 0%nat).
Proof.
  apply (proj1 (proj2 (serialize_again heap_uint16 0%nat 1%nat)) Uint16 [Byte.x00; Byte.x01]).
  - vm_compute; reflexivity.
  - reflexivity.
  - vm_compute; reflexivity.
Defined.

(** ** serialize: the property names of a converted object *)

Lemma set_prop_fresh k v acc :
  k <> "__proto__" -> k ∉ (acc.*1) -> set_prop k v acc = acc ++ [(k, v)].
Proof.
  intros Hp. unfold set_prop. destruct (String.eqb_spec k "__proto__"); [done|].
  induction acc as [|[k0 v0] r IH]; simpl; [done|]. intros Hk.
  destruct (String.eqb_spec k k0); [set_solver|]. rewrite IH; [done|set_solver].
Qed.

Lemma conv_props_keys f es acc seen ps seen' :
  conv_props f es acc seen = Some (ps, seen') ->
  (NoDup (acc.*1) -> NoDup (ps.*1)) /\
  (NoDup (acc.*1 ++ es.*1) ->
   ps.*1 = acc.*1 ++ List.filter (fun k => negb (String.eqb k "__proto__")) (es.*1)).
Proof.
  revert acc seen. induction es as [|[k v] r IH]; simpl; intros acc seen H.
  - simplify_eq. split; [done|]. by rewrite app_nil_r.
  - destruct (f seen v) as [[o s1]|] eqn:E1; [|done].
    destruct (IH _ _ H) as (Hnd & Heq). split.
    + intros Hacc. by apply Hnd, set_prop_NoDup.
    + intros Hall.
      assert (Hk : k ∉ (acc.*1)).
      { apply NoDup_app in Hall as (_ & Hd & _). intros Hin. apply (Hd k Hin). set_solver. }
      destruct (String.eqb_spec k "__proto__") as [->|Hp]; simpl.
      * unfold set_prop in Heq. rewrite String.eqb_refl in Heq. apply Heq.
        apply NoDup_app in Hall as (Ha & Hd & Hr%NoDup_cons). apply NoDup_app.
        split; [done|]. split; [|tauto]. intros x Hx. specialize (Hd x Hx). set_solver.
      * rewrite (set_prop_fresh k o acc Hp Hk), fmap_app, <- !app_assoc in Heq. by apply Heq.
Qed.

(** X7: A plain object and a Map convert to an object whose property names are
    pairwise distinct and are those of the entries other than [__proto__],
    which names no property of the result; when the entries have distinct
    names, as those of a Map and of an object do, none of them an array
    index, the names come out in the order of the entries. *)
Theorem serialize_object_keys (h : heap) (l : loc) (es : list (string * value)) :
  h !! l = Some (OObject es) \/ h !! l = Some (OMap es) ->
  exists ps, serialize h (VRef l) = Some (TObj ps) /\
    NoDup (ps.*1) /\ (forall k, k ∈ (ps.*1) <-> k ∈ (es.*1) /\ k <> "__proto__") /\
    (NoDup (es.*1) -> no_index_names es = true ->
     ps.*1 = List.filter (fun k => negb (String.eqb k "__proto__")) (es.*1)).
Proof.
  intros Hl. destruct (serialize_returns h (VRef l)) as [t Ht].
  assert (Hc : TObj <$> (fst <$> conv_props (conv h (size (dom h))) es [] {[l]}) = Some t).
  { destruct Hl as [Hl|Hl]; by rewrite (serialize_object h l _ Hl) in Ht. }
  destruct (conv_props _ es [] _) as [[ps s]|] eqn:E; [|done]. simpl in Hc. simplify_eq.
  exists ps. split; [done|].
  destruct (conv_props_keys _ _ _ _ _ _ E) as (Hnd & Heq).
  split; [apply Hnd; constructor|]. split; [|by intros ? _; apply Heq].
  intros k. rewrite (conv_props_names _ _ _ _ _ _ k E). set_solver.
Qed.

Lemma serialize_object_keys_witness :
  exists ps, serialize heap_proto (VRef 0%nat) = Some (TObj ps) /\ ps.*1 = ["a"; "b"].
Proof.
  destruct (serialize_object_keys heap_proto 0%nat
              [("a", VRef 1%nat); ("__proto__", VRef 1%nat); ("b", VRef 1%nat)])
    as (ps & Hs & _ & _ & Heq).
  - right. vm_compute; reflexivity.
  - exists ps. split; [exact Hs|]. apply Heq.
    + apply NoDup_cons. split.
      * intros H. apply list_elem_of_In in H. simpl in H.
        destruct H as [H|[H|H]]; [discriminate H|discriminate H|exact H].
      * apply NoDup_cons. split.
        -- intros H. apply list_elem_of_singleton in H. discriminate H.
        -- apply NoDup_singleton.
    + reflexivity.
Defined.

(** ** The prev-hash prefetch: what is found *)

Lemma byte_val_of_Z z : 0 <= z <= 255 -> byte_val (byte_of_Z z) = z.
Proof.
  intros Hz. unfold byte_val, byte_of_Z. rewrite Z.mod_small by lia.
  destruct (Byte.of_N (Z.to_N z)) as [b|] eqn:E; simpl.
  - rewrite (Byte.to_of_N _ E). lia.
  - apply Byte.of_N_None_iff in E. lia.
Qed.

Lemma byte_number_kept v :
  is_byte_number v = true -> VPrim (PNum (NInt (byte_val (ToUint8 v)))) = v.
Proof.
  destruct v as [[| | |[z| | |]| | |]|]; try done. simpl.
  intros [H1%Z.leb_le H2%Z.leb_le]%andb_true_iff. by rewrite byte_val_of_Z.
Qed.

Lemma byte_numbers_kept vs :
  forallb is_byte_number vs = true ->
  map (fun b => VPrim (PNum (NInt (byte_val b)))) (map ToUint8 vs) = vs.
Proof.
  induction vs as [|v vs IH]; simpl; [done|].
  intros [Hv Hvs]%andb_true_iff. by rewrite (byte_number_kept v Hv), IH.
Qed.

(** X8: A new [Uint8Array] made from an array holds the numbers of that array,
    unchanged and in order. *)
Theorem accept_last_array_values (rt : runtime) (last : value) (bytes : list Byte.byte) :
  accept_last rt last = Some (U8New bytes) ->
  exists l, last = VRef l /\
    deref (rt_heap rt) l = OArray (map (fun b => VPrim (PNum (NInt (byte_val b)))) bytes).
Proof.
  intros H.
  destruct (accept_last_shape rt last _ H)
    as (l & -> & [(bs & _ & _ & ?)|(vs & Hl & _ & Hall & Hp)]); [done|].
  exists l. split; [done|]. injection Hp as ->. by rewrite byte_numbers_kept.
Qed.

Lemma accept_last_array_values_witness :
  exists l, VRef 0%nat = VRef l /\
    deref (rt_heap rt_array32) l
    = OArray (map (fun b => VPrim (PNum (NInt (byte_val b)))) (replicate 32%nat Byte.x07)).
Proof.
  apply (accept_last_array_values rt_array32 (VRef 0%nat) (replicate 32%nat Byte.x07)).
  vm_compute. reflexivity.
Defined.

(** X9: For an ok response whose decoded body is a Map, the prefetch makes two
    calls, the query builder and the send, and returns what [accept_last]
    makes of the [lastTxHash] of the entry under the base pod; it finds no
    hash when the Map has no such entry. *)
Theorem fetchPrev_reads_base_pod (rt : runtime) (connection : value) (address : text)
    (w : world) (tx res : value) (d : loc) (es : list (string * value)) :
  rt_build rt (w_calls w) getLastTxHash [AString address] = Return tx ->
  rt_send rt (w_calls w ++ [CBuild getLastTxHash [AString address]]) connection tx
    = Return res ->
  truthy (get_opt (rt_heap rt) res "ok") = true ->
  nonzero_number (get_opt (rt_heap rt) res "executionStatus") = false ->
  nonzero_number (get_opt (rt_heap rt) res "abortCode") = false ->
  get_opt (rt_heap rt) res "decoded" = VRef d -> deref (rt_heap rt) d = OMap es ->
  fetchPrevTxHashFromNetwork rt connection address w
  = (Return (accept_last rt
               (get_opt (rt_heap rt) (default undefined (prop_lookup BASE_POD_HEX es))
                  "lastTxHash")),
     {| w_calls := w_calls w ++ [CBuild getLastTxHash [AString address]; CSend connection tx];
        w_stdout := w_stdout w; w_stderr := w_stderr w; w_exitCode := w_exitCode w |}) /\
  (prop_lookup BASE_POD_HEX es = None ->
   (fetchPrevTxHashFromNetwork rt connection address w).1 = Return None).
Proof.
  intros Hb Hs Hok Hex Hab Hdec Hd.
  assert (E : fetchPrevTxHashFromNetwork rt connection address w
    = (Return (accept_last rt
                 (get_opt (rt_heap rt) (default undefined (prop_lookup BASE_POD_HEX es))
                    "lastTxHash")),
       {| w_calls := w_calls w ++ [CBuild getLastTxHash [AString address]; CSend connection tx];
          w_stdout := w_stdout w; w_stderr := w_stderr w; w_exitCode := w_exitCode w |})).
  { unfold fetchPrevTxHashFromNetwork. msimpl. rewrite Hb. msimpl. rewrite Hs. msimpl.
    rewrite Hok, Hex, Hab. simpl.
    assert (get_prop (rt_heap rt) res "decoded" = Return (VRef d)) as ->.
    { unfold get_prop. rewrite <- Hdec. by destruct res as [[]|]. }
    unfold decoded_get. rewrite Hd. msimpl. by rewrite <- app_assoc. }
  split; [exact E|]. intros Hnone. by rewrite E, Hnone.
Qed.

Lemma fetchPrev_reads_base_pod_witness :
  (fetchPrevTxHashFromNetwork rt_found (VPrim (PStr "connection")) (Lit "lea1abc") world0).1
  = Return (accept_last rt_found
              (get_opt (rt_heap rt_found)
                 (default undefined (prop_lookup BASE_POD_HEX [(BASE_POD_HEX, VRef 2%nat)]))
                 "lastTxHash")).
Proof.
  exact (f_equal fst
    (proj1 (fetchPrev_reads_base_pod rt_found (VPrim (PStr "connection")) (Lit "lea1abc")
              world0 (VPrim (PStr "tx")) (VRef 0%nat) 1%nat [(BASE_POD_HEX, VRef 2%nat)]
              eq_refl eq_refl eq_refl eq_refl eq_refl eq_refl eq_refl))).
Defined.

(** ** Addresses and signers *)

Lemma isJsonPath_nonempty input : isJsonPath input = true -> String.eqb input "" = false.
Proof. by destruct (String.eqb_spec input "") as [->|]. Qed.





(** ** Reporting: failures and invariants *)

(** X12: When the send throws, [sendAndReport] does not: it prints the error as
    [{ error }] to stdout and to the outfile, if there is one and it can be
    written, writes the error message to stderr unless quiet, and sets the
    exit code to 1. *)
Theorem sendAndReport_send_fails (rt : runtime) (connection tx : value)
    (outfile : option string) (quiet : bool) (w : world) (e : exn) :
  rt_send rt (w_calls w) connection tx = Throw e ->
  (str_truthy outfile = true ->
   rt_writeFile rt (w_calls w ++ [CSend connection tx]) (default "" outfile) (LJsonError e)
   = Return tt) ->
  sendAndReport rt connection tx outfile quiet w
  = (Return tt,
     {| w_calls := w_calls w ++ CSend connection tx ::
          (if str_truthy outfile then [CWriteFile (default "" outfile) (LJsonError e)] else []);
        w_stdout := w_stdout w ++ [LJsonError e];
        w_stderr := w_stderr w ++ (if quiet then [] else [LErrorMsg e]);
        w_exitCode := Some 1 |}).
Proof.
  intros Hsend Hwrite. unfold sendAndReport. msimpl. rewrite Hsend.
  destruct quiet, (str_truthy outfile); msimpl; rewrite ?(Hwrite eq_refl);
    by rewrite ?app_nil_r, <- ?app_assoc.
Qed.

Lemma sendAndReport_send_fails_witness :
  sendAndReport rt_offline (VPrim (PStr "connection")) (VPrim (PStr "tx")) (Some "out.json")
    true world0
  = (Return tt,
     {| w_calls := [CSend (VPrim (PStr "connection")) (VPrim (PStr "tx"));
                    CWriteFile "out.json" (LJsonError (Error "ECONNREFUSED"))];
        w_stdout := [LJsonError (Error "ECONNREFUSED")];
        w_stderr := [];
        w_exitCode := Some 1 |}).
Proof.
  apply (sendAndReport_send_fails rt_offline (VPrim (PStr "connection")) (VPrim (PStr "tx"))
           (Some "out.json") true world0 (Error "ECONNREFUSED")).
  - reflexivity.
  - intros _. reflexivity.
Defined.

Ltac report_leaf :=
  cbn [fst snd w_calls w_stdout w_stderr w_exitCode];
  split;
    [intros Hret;
     first [discriminate Hret
           |eexists; split;
            [reflexivity|intros Ho; first [discriminate Ho|eexists; reflexivity]]]|];
  split;
    [intros ? Hthr;
     first [discriminate Hthr
           |injection Hthr as <-;
            split; [reflexivity|]; split; [reflexivity|]; split; [reflexivity|];
            do 2 eexists; split; [reflexivity|eassumption]]|];
  split; [intros Hq; first [discriminate Hq|reflexivity]|];
  intros Ho;
  first [discriminate Ho
        |apply new_calls_app; cbn [w_calls]; rewrite <- ?app_assoc; reflexivity].

(** X13: Whatever the environment answers, a [sendAndReport] that returns has
    written exactly one line to stdout, and that line is the content of the
    last write of the outfile when there is one.  One that throws has written
    nothing to stdout and has left the exit code alone; what it throws is the
    error of a failed write of the outfile.  With [quiet] nothing goes to
    stderr, and without an outfile the send is the only call. *)
Theorem sendAndReport_output (rt : runtime) (connection tx : value)
    (outfile : option string) (quiet : bool) (w : world) :
  ((sendAndReport rt connection tx outfile quiet w).1 = Return tt ->
   exists l,
     w_stdout (sendAndReport rt connection tx outfile quiet w).2 = w_stdout w ++ [l] /\
     (str_truthy outfile = true ->
      exists cs, w_calls (sendAndReport rt connection tx outfile quiet w).2
                 = cs ++ [CWriteFile (default "" outfile) l])) /\
  (forall e, (sendAndReport rt connection tx outfile quiet w).1 = Throw e ->
     w_stdout (sendAndReport rt connection tx outfile quiet w).2 = w_stdout w /\
     w_exitCode (sendAndReport rt connection tx outfile quiet w).2 = w_exitCode w /\
     str_truthy outfile = true /\
     exists cs l, w_calls (sendAndReport rt connection tx outfile quiet w).2
                  = cs ++ [CWriteFile (default "" outfile) l] /\
                  rt_writeFile rt cs (default "" outfile) l = Throw e) /\
  (quiet = true -> w_stderr (sendAndReport rt connection tx outfile quiet w).2 = w_stderr w) /\
  (str_truthy outfile = false ->
   new_calls w (sendAndReport rt connection tx outfile quiet w).2 = [CSend connection tx]).
Proof.
  unfold sendAndReport, status_line, serialize_step, JSON_line. msimpl.
  destruct (rt_send rt (w_calls w) connection tx) as [res|e] eqn:Hs; msimpl.
  - destruct (get_prop (rt_heap rt) res "ok") as [ok|e] eqn:Hok.
    + rewrite (get_prop_elsewhere _ _ _ _ "decoded" Hok).
      destruct quiet; msimpl; rewrite ?Hok; msimpl;
        repeat (branch; msimpl); report_leaf.
    + assert (Hdec : get_prop (rt_heap rt) res "decoded" = Throw e).
      { unfold get_prop in *. destruct res as [[]|]; by simplify_eq. }
      rewrite Hdec.
      destruct quiet; msimpl; rewrite ?Hok; msimpl;
        repeat (branch; msimpl); report_leaf.
  - destruct quiet; msimpl; repeat (branch; msimpl); report_leaf.
Qed.

Lemma sendAndReport_output_witness :
  exists l,
    w_stdout (sendAndReport rt_ok (VPrim (PStr "connection")) (VPrim (PStr "tx"))
                (Some "out.json") false world0).2 = w_stdout world0 ++ [l] /\
    (str_truthy (Some "out.json") = true ->
     exists cs, w_calls (sendAndReport rt_ok (VPrim (PStr "connection")) (VPrim (PStr "tx"))
                           (Some "out.json") false world0).2
                = cs ++ [CWriteFile (default "" (Some "out.json")) l]).
Proof.
  apply (proj1 (sendAndReport_output rt_ok (VPrim (PStr "connection")) (VPrim (PStr "tx"))
                  (Some "out.json") false world0)).
  vm_compute. reflexivity.
Defined.

(** ** Errors before the report *)

(** X14: An error thrown while the transaction of a command is built (a missing
    key or address, a bad amount, a failed builder) is caught by [main]: it
    prints [{ error }] to stdout and to the outfile, writes nothing to stderr
    and exits with 1.  An error thrown by [Connection] is not caught: [main]
    throws it, having written nothing. *)
Theorem main_reports_build_error (rt : runtime) (argv : list string) (w : world)
    (command : option string) (opts : options) :
  is_keygen argv = false -> parseArgs argv = (command, opts) ->
  negb (str_truthy command) || o_help opts = false ->
  (forall e, rt_Connection rt (w_calls w) (cluster_of opts) = Throw e ->
     main rt argv w
     = (Throw e,
        {| w_calls := w_calls w ++ [CConnection (cluster_of opts)]; w_stdout := w_stdout w;
           w_stderr := w_stderr w; w_exitCode := w_exitCode w |})) /\
  (forall connection build e w2,
     rt_Connection rt (w_calls w) (cluster_of opts) = Return connection ->
     build_tx rt connection (default "" command) opts = Some build ->
     build {| w_calls := w_calls w ++ [CConnection (cluster_of opts)]; w_stdout := w_stdout w;
              w_stderr := w_stderr w; w_exitCode := w_exitCode w |} = (Throw e, w2) ->
     (str_truthy (o_outfile opts) = true ->
      rt_writeFile rt (w_calls w2) (default "" (o_outfile opts)) (LJsonError e) = Return tt) ->
     main rt argv w
     = (Return tt,
        {| w_calls := w_calls w2 ++
             (if str_truthy (o_outfile opts)
              then [CWriteFile (default "" (o_outfile opts)) (LJsonError e)] else []);
           w_stdout := w_stdout w ++ [LJsonError e];
           w_stderr := w_stderr w;
           w_exitCode := Some 1 |})).
Proof.
  intros Hk Hp Hg. unfold main, dispatch. rewrite Hk, Hp, Hg. split.
  - intros e He. msimpl. by rewrite He.
  - intros connection build e w2 Hconn Hb Hbuild Hwrite.
    destruct (silent_build_tx rt _ _ _ _ Hb
                {| w_calls := w_calls w ++ [CConnection (cluster_of opts)];
                   w_stdout := w_stdout w; w_stderr := w_stderr w;
                   w_exitCode := w_exitCode w |}) as (Hout & Herr & _).
    rewrite Hbuild in Hout, Herr. cbn [snd w_stdout w_stderr] in Hout, Herr.
    msimpl. rewrite Hconn. unfold handler. rewrite Hb. msimpl. rewrite Hbuild.
    destruct (str_truthy (o_outfile opts)); msimpl.
    + rewrite (Hwrite eq_refl). by rewrite Hout, Herr.
    + by rewrite Hout, Herr, app_nil_r.
Qed.

Lemma main_reports_build_error_witness :
  main rt_not_ok ["get-balance"; "-o"; "out.json"] world0
  = (Return tt,
     {| w_calls := [CConnection "mainnet-beta";
                    CWriteFile "out.json" (LJsonError (Error "Address is required"))];
        w_stdout := [LJsonError (Error "Address is required")];
        w_stderr := [];
        w_exitCode := Some 1 |}).
Proof.
  refine (proj2 (main_reports_build_error rt_not_ok ["get-balance"; "-o"; "out.json"] world0
                   (Some "get-balance") (set_opt FOutfile (Some "out.json") opts0)
                   eq_refl eq_refl eq_refl)
            (VPrim (PStr "connection")) _ (Error "Address is required") _
            eq_refl eq_refl eq_refl _).
  intros _. reflexivity.
Defined.

Section build_calls.
Variable rt : runtime.

Lemma readSigner_calls keyfile w :
  exists cs, w_calls (readSigner rt keyfile w).2 = w_calls w ++ cs /\
             forallb is_read cs = true.
Proof.
  unfold readSigner. destruct keyfile as [keyfile|]; [|by exists []; rewrite app_nil_r].
  destruct (_ || _); [by exists []; rewrite app_nil_r|]. msimpl.
  exists [CReadJson keyfile]. split; [|done].
  repeat (branch; msimpl); done.
Qed.

Lemma resolveAddress_calls input w :
  exists cs, w_calls (resolveAddress rt input w).2 = w_calls w ++ cs /\
             forallb is_read cs = true.
Proof.
  unfold resolveAddress. destruct input as [input|]; [|by exists []; rewrite app_nil_r].
  destruct (String.eqb input ""); [by exists []; rewrite app_nil_r|].
  destruct (isJsonPath input); [|by exists []; rewrite app_nil_r]. msimpl.
  exists [CReadJson input]. split; [|done].
  repeat (branch; msimpl); done.
Qed.

(** The steps before the prefetch of a signed command. *)
Lemma inputs_then_throw {A} (m : signer -> text -> Z -> M A) key to amount e w :
  toBigInt amount = Throw e ->
  exists e' cs,
    ((let* signer := readSigner rt key in
      let* toAddr := resolveAddress rt to in
      let* amount := lift (toBigInt amount) in
      m signer toAddr amount) w).1 = Throw e' /\
    w_calls ((let* signer := readSigner rt key in
              let* toAddr := resolveAddress rt to in
              let* amount := lift (toBigInt amount) in
              m signer toAddr amount) w).2 = w_calls w ++ cs /\
    forallb is_read cs = true.
Proof.
  intros Ha. destruct (readSigner_calls key w) as (cs1 & Hc1 & Hr1).
  unfold bind at 1 4. destruct (readSigner rt key w) as [[s|e1] w1]; simpl in *;
    [|by exists e1, cs1].
  destruct (resolveAddress_calls to w1) as (cs2 & Hc2 & Hr2).
  unfold bind at 1 3. destruct (resolveAddress rt to w1) as [[t|e2] w2]; simpl in *.
  - unfold bind, lift. rewrite Ha. simpl. exists e, (cs1 ++ cs2).
    split; [done|]. split; [by rewrite Hc2, Hc1, app_assoc|].
    by rewrite forallb_app, Hr1, Hr2.
  - exists e2, (cs1 ++ cs2). split; [done|]. split; [by rewrite Hc2, Hc1, app_assoc|].
    by rewrite forallb_app, Hr1, Hr2.
Qed.
End build_calls.

(** X15: A command that takes an amount never reaches the network when the amount
    is not an integer (or is missing): building its transaction throws, and
    the only calls made until then read key files. *)
Theorem bad_amount_stops_early (rt : runtime) (connection : value) (command : string)
    (opts : options) (e : exn) :
  In command amount_commands ->
  toBigInt (amount_arg (o_amount opts)) = Throw e ->
  exists build,
    build_tx rt connection command opts = Some build /\
    forall w, exists e' cs,
      (build w).1 = Throw e' /\ w_calls (build w).2 = w_calls w ++ cs /\
      forallb is_read cs = true.
Proof.
  intros Hin Ha. simpl in Hin.
  destruct Hin as [<-|[<-|[<-|[<-|[]]]]]; (eexists; split; [reflexivity|]); intros w.
  - by eapply inputs_then_throw.
  - by eapply inputs_then_throw.
  - destruct (readSigner_calls rt (o_key opts) w) as (cs1 & Hc1 & Hr1).
    unfold bind at 1 3. destruct (readSigner rt (o_key opts) w) as [[s|e1] w1]; simpl in *;
      [|by exists e1, cs1].
    unfold bind, lift. rewrite Ha. simpl. by exists e, cs1.
  - by eapply inputs_then_throw.
Qed.

Lemma bad_amount_stops_early_witness :
  exists build,
    build_tx rt_not_ok undefined "transfer"
      (set_opt FKey (Some "alice.json") (set_opt FTo (Some "lea1xyz") opts0)) = Some build /\
    forall w, exists e' cs,
      (build w).1 = Throw e' /\ w_calls (build w).2 = w_calls w ++ cs /\
      forallb is_read cs = true.
Proof.
  apply (bad_amount_stops_early rt_not_ok undefined "transfer"
           (set_opt FKey (Some "alice.json") (set_opt FTo (Some "lea1xyz") opts0))
           (InvalidAmount PUndef)).
  - right. left. reflexivity.
  - reflexivity.
Defined.



(** ** The keygen proxy passes everything on *)

Section keygen_calls.
Variable rt : runtime.

Lemma tier1_calls args w :
  exists cs,
    w_calls (try_catch (keygen_installed rt args) (fun _ => ret false) w).2 = w_calls w ++ cs /\
    Forall (keygen_call rt args) cs.
Proof.
  unfold keygen_installed. msimpl.
  destruct (rt_resolve rt _ _) as [pkgPath|e]; msimpl;
    [|by eexists; split; [reflexivity|repeat constructor]].
  destruct (rt_require rt _ _) as [keygenPkg|e]; msimpl; rewrite <- ?app_assoc;
    [|by eexists; split; [reflexivity|repeat constructor]].
  destruct (tree_truthy _); [|by eexists; split; [reflexivity|repeat constructor]].
  destruct (relBin_of _) as [[| | | | |s|]|ts|ps]; msimpl;
    try (by eexists; split; [reflexivity|repeat constructor]).
  rewrite spawnAndWait_run. msimpl. rewrite <- ?app_assoc.
  assert (Hk : Forall (keygen_call rt args)
            [CResolve "@getlea/keygen/package.json"; CRequire pkgPath;
             CSpawn (rt_execPath rt) (rt_binPath rt pkgPath s :: args) false]).
  { repeat constructor; [by exists [rt_binPath rt pkgPath s]|done]. }
  destruct (spawn_result _) as [[]|e]; msimpl; by eexists.
Qed.
End keygen_calls.

(** X17: [lea keygen ...] only locates and runs the keygen tool: every call is a
    lookup of the package or a spawn whose arguments end with the arguments
    that followed [keygen], unchanged, and a shell is used on Windows only;
    nothing is written to stdout or stderr by the proxy itself, whatever the
    tiers answer. *)
Theorem keygen_passes_arguments_on (rt : runtime) (args : list string) (w : world) :
  w_stdout (main rt ("keygen" :: args) w).2 = w_stdout w /\
  w_stderr (main rt ("keygen" :: args) w).2 = w_stderr w /\
  exists cs, w_calls (main rt ("keygen" :: args) w).2 = w_calls w ++ cs /\
             Forall (keygen_call rt args) cs.
Proof.
  change (main rt ("keygen" :: args) w) with (runKeygen rt args w).
  destruct (tier1_run rt args w) as (d1 & w1 & ? & E1 & _ & Hout & Herr & _).
  destruct (tier1_calls rt args w) as (cs & Hcs & Hall). rewrite E1 in Hcs. simpl in Hcs.
  destruct (runKeygen_run rt args w) as (done1 & w1' & cs1 & E & _ & _ & H1 & H2).
  rewrite E1 in E. simplify_eq.
  assert (H2k : keygen_call rt args (tier2_call rt args)) by (split; [by exists []|done]).
  assert (H3k : keygen_call rt args (tier3_call rt args))
    by (split; [by exists ["-y"; "@getlea/keygen"]|done]).
  destruct done1.
  - rewrite (H1 eq_refl). simpl. split; [done|]. split; [done|]. by exists cs.
  - destruct (H2 eq_refl) as [Ha Hb].
    destruct (exited (spawn_answer rt (w_calls w1') (tier2_call rt args))).
    + rewrite (Ha eq_refl). simpl. split; [done|]. split; [done|].
      exists (cs ++ [tier2_call rt args]). rewrite Hcs, app_assoc. split; [done|].
      apply Forall_app. split; [done|]. constructor; [done|constructor].
    + rewrite (Hb eq_refl). simpl. split; [done|]. split; [done|].
      exists (cs ++ [tier2_call rt args; tier3_call rt args]). rewrite Hcs, app_assoc.
      split; [done|]. apply Forall_app. split; [done|].
      do 2 (constructor; [done|]). constructor.
Qed.

(** ** Argument parsing *)

(** Induction for a loop that takes one or two elements at a time. *)
Lemma list_ind_pairs {A} (P : list A -> Prop) :
  P [] -> (forall a rest, P rest -> P (tail rest) -> P (a :: rest)) -> forall l, P l.
Proof.
  intros Hnil Hcons l. assert (H : P l /\ P (tail l)); [|tauto].
  induction l as [|a l [IH1 IH2]]; simpl; [tauto|]. split; [by apply Hcons|done].
Qed.

Lemma parse_loop_cons a rest command opts :
  parse_loop (a :: rest) command opts =
  match classify a with
  | FQuiet => parse_loop rest command (set_opt FQuiet None opts)
  | FHelp => parse_loop rest command (set_opt FHelp None opts)
  | FOther => parse_loop rest (if str_truthy command then command else Some a) opts
  | f =>
      match rest with
      | v :: rest' => parse_loop rest' command (set_opt f (Some v) opts)
      | [] => (command, set_opt f None opts)
      end
  end.
Proof. done. Qed.

Lemma parse_loop_command args command opts :
  str_truthy command = true -> (parse_loop args command opts).1 = command.
Proof.
  revert command opts. induction args as [|a rest IH1 IH2] using list_ind_pairs;
    intros command opts Hc; [done|].
  rewrite parse_loop_cons.
  destruct (classify a); cbv zeta;
    try (destruct rest as [|v rest']; [done|by apply IH2]);
    rewrite ?Hc; by apply IH1.
Qed.

Lemma set_opt_other f f' v o :
  f' <> f ->
  opt_value f (set_opt f' v o) = opt_value f o /\
  opt_switch f (set_opt f' v o) = opt_switch f o.
Proof. by destruct f, f'. Qed.

Lemma parse_loop_untouched f args command opts :
  Forall (fun a => classify a <> f) args ->
  opt_value f (parse_loop args command opts).2 = opt_value f opts /\
  opt_switch f (parse_loop args command opts).2 = opt_switch f opts.
Proof.
  revert command opts. induction args as [|a rest IH1 IH2] using list_ind_pairs;
    intros command opts Hall; [done|].
  apply Forall_cons in Hall as [Ha Hrest].
  assert (Htail : Forall (fun a => classify a <> f) (tail rest)).
  { destruct rest; [done|]. by apply Forall_cons in Hrest as [_ ?]. }
  rewrite parse_loop_cons.
  destruct rest as [|v rest']; simpl in IH2, Htail;
    destruct (classify a) eqn:Hf; cbv zeta;
    solve
      [ by apply set_opt_other
      | match goal with
        | |- context [parse_loop ?r ?c ?o] =>
            first [destruct (IH1 c o Hrest) as [-> ->]|destruct (IH2 c o Htail) as [-> ->]]
        end; first [by apply set_opt_other|done] ].
Qed.

Lemma set_opt_help f v o : o_help o = true -> o_help (set_opt f v o) = true.
Proof. by destruct f. Qed.

Lemma parse_loop_help args command opts :
  o_help opts = true -> o_help (parse_loop args command opts).2 = true.
Proof.
  revert command opts. induction args as [|a rest IH1 IH2] using list_ind_pairs;
    intros command opts Hh; [done|].
  rewrite parse_loop_cons.
  destruct (classify a); cbv zeta;
    try (destruct rest as [|v rest']; [by apply set_opt_help|by apply IH2, set_opt_help]);
    by apply IH1, set_opt_help || by apply IH1.
Qed.

(** X18: The first argument, when it is not empty and does not start with a dash,
    is the command, whatever follows it. *)
Theorem parseArgs_command (a : string) (rest : list string) :
  startsWith a "-" = false -> a <> "" -> (parseArgs (a :: rest)).1 = Some a.
Proof.
  intros Hd Ha. unfold parseArgs. rewrite Hd. apply parse_loop_command.
  simpl. by destruct (String.eqb_spec a "").
Qed.

Lemma parseArgs_command_witness :
  (parseArgs ["transfer"; "stray"; "--to"; "lea1abc"; "mint"]).1 = Some "transfer".
Proof.
  apply (parseArgs_command "transfer" ["stray"; "--to"; "lea1abc"; "mint"]).
  - reflexivity.
  - discriminate.
Defined.

(** X19: An option keeps its initial value when no argument is its flag: without
    [--cluster] the cluster is [mainnet-beta], without [-o] and [--outfile]
    there is no outfile, and so on for every flag. *)
Theorem parseArgs_untouched (f : flag) (argv : list string) :
  Forall (fun a => classify a <> f) argv ->
  opt_value f (parseArgs argv).2 = opt_value f opts0 /\
  opt_switch f (parseArgs argv).2 = opt_switch f opts0.
Proof.
  intros Hall. unfold parseArgs. destruct argv as [|a rest].
  - by apply parse_loop_untouched.
  - destruct (startsWith a "-"); apply parse_loop_untouched; [done|].
    by apply Forall_cons in Hall as [_ ?].
Qed.

Lemma parseArgs_untouched_witness :
  o_cluster (parseArgs ["get-balance"; "--address"; "lea1abc"; "--quiet"]).2
  = Some "mainnet-beta".
Proof.
  apply (parseArgs_untouched FCluster ["get-balance"; "--address"; "lea1abc"; "--quiet"]).
  repeat constructor; discriminate.
Defined.

(** ** Help and unknown commands *)

Section help_facts.
Variable rt : runtime.

Lemma dispatch_help argv :
  o_help (parseArgs argv).2 = true -> forall w, dispatch rt argv w = (Return tt, help_printed w).
Proof.
  intros Hh w. unfold dispatch. destruct (parseArgs argv) as [command opts].
  simpl in Hh. rewrite Hh, orb_true_r. done.
Qed.
End help_facts.

(** X20: Without arguments, with [--help] or [-h] as the first argument, or as the
    argument that follows the command, [main] writes the help text to stdout
    and does nothing else: it calls nothing of its environment, writes nothing
    to stderr and leaves the exit code alone. *)
Theorem main_help (rt : runtime) (argv : list string) (w : world) :
  argv = [] \/
  (exists a rest, argv = a :: rest /\ (a = "--help" \/ a = "-h")) \/
  (exists c a rest, argv = c :: a :: rest /\ startsWith c "-" = false /\ c <> "keygen" /\
     (a = "--help" \/ a = "-h")) ->
  main rt argv w = (Return tt, help_printed w).
Proof.
  intros [->|[(a & rest & -> & Ha)|(c & a & rest & -> & Hc & Hk & Ha)]].
  - done.
  - unfold main. assert (is_keygen (a :: rest) = false) as -> by (by destruct Ha as [->| ->]).
    apply dispatch_help.
    destruct Ha as [->| ->]; unfold parseArgs; simpl; by apply parse_loop_help.
  - unfold main. assert (is_keygen (c :: a :: rest) = false) as ->.
    { simpl. by destruct (String.eqb_spec c "keygen"). }
    apply dispatch_help. unfold parseArgs. rewrite Hc.
    destruct Ha as [->| ->]; simpl; by apply parse_loop_help.
Qed.

Lemma main_help_witness :
  main rt_not_ok ["mint"; "-h"; "--key"; "k.json"] world0 = (Return tt, help_printed world0).
Proof.
  apply (main_help rt_not_ok ["mint"; "-h"; "--key"; "k.json"] world0).
  right. right. exists "mint", "-h", ["--key"; "k.json"].
  split; [reflexivity|]. split; [reflexivity|]. split; [discriminate|]. right. reflexivity.
Defined.

Lemma build_tx_known rt connection command opts :
  is_Some (build_tx rt connection command opts) <-> In command known_commands.
Proof.
  unfold build_tx, known_commands. cbv zeta.
  repeat match goal with
         | |- context [String.eqb command ?s] =>
             destruct (String.eqb_spec command s) as [->|?];
             [split; [intros _; simpl; tauto|intros _; by eexists]|]
         end.
  split; [by intros [? ?]|]. intros H. simpl in H.
  repeat (destruct H as [<-|H]; [done|]). done.
Qed.

(** X21: The commands [main] has a case for are the nine of the help text, each of
    which, like [keygen], the help text lists. *)
Theorem commands_documented (rt : runtime) (connection : value) (command : string)
    (opts : options) :
  (is_Some (build_tx rt connection command opts) <-> In command known_commands) /\
  (In command ("keygen" :: known_commands) ->
   includes helpText (newline ++ "  " ++ command) = true).
Proof.
  split; [apply build_tx_known|].
  intros H. repeat (destruct H as [<-|H]; [vm_compute; reflexivity|]). done.
Qed.

Lemma commands_documented_witness :
  includes helpText (newline ++ "  " ++ "get-last-tx-hash") = true.
Proof.
  apply (proj2 (commands_documented rt_not_ok undefined "get-last-tx-hash" opts0)).
  do 6 right. left. reflexivity.
Defined.

(** X22: A command that is none of the nine opens the connection and then only
    writes: the name of the unknown command to stderr and the help text to
    stdout, with exit code 1.  This is also what [keygen] gets when it is not
    the first argument. *)
Theorem unknown_command (rt : runtime) (argv : list string) (w : world)
    (command : string) (opts : options) (connection : value) :
  is_keygen argv = false -> parseArgs argv = (Some command, opts) ->
  command <> "" -> o_help opts = false -> ~ In command known_commands ->
  rt_Connection rt (w_calls w) (cluster_of opts) = Return connection ->
  main rt argv w
  = (Return tt,
     {| w_calls := w_calls w ++ [CConnection (cluster_of opts)];
        w_stdout := w_stdout w ++ [LText (helpText ++ newline)];
        w_stderr := w_stderr w ++ [LText ("Unknown command: " ++ command ++ newline ++ newline)];
        w_exitCode := Some 1 |}).
Proof.
  intros Hk Hp Hc Hh Hun Hconn. unfold main, dispatch. rewrite Hk, Hp.
  assert (str_truthy (Some command) = true) as ->
    by (simpl; by destruct (String.eqb_spec command "")).
  rewrite Hh. cbn [negb orb].
  assert (Hb : build_tx rt connection command opts = None).
  { destruct (build_tx rt connection command opts) eqn:Hb; [|done].
    exfalso. apply Hun. apply (build_tx_known rt connection command opts). by eexists. }
  msimpl. rewrite Hconn. unfold handler.
  change (default "" (Some command)) with command. rewrite Hb. done.
Qed.

Lemma unknown_command_witness :
  main rt_not_ok ["--quiet"; "keygen"] world0
  = (Return tt,
     {| w_calls := [CConnection "mainnet-beta"];
        w_stdout := [LText (helpText ++ newline)];
        w_stderr := [LText ("Unknown command: " ++ "keygen" ++ newline ++ newline)];
        w_exitCode := Some 1 |}).
Proof.
  apply (unknown_command rt_not_ok ["--quiet"; "keygen"] world0 "keygen"
           (set_opt FQuiet None opts0) (VPrim (PStr "connection"))).
  - reflexivity.
  - reflexivity.
  - discriminate.
  - reflexivity.
  - intros H. repeat (destruct H as [H|H]; [discriminate|]). exact H.
  - reflexivity.
Defined.

(** ** A command from the command line to its output *)



Section unwritable.
Variable rt : runtime.

Lemma sendAndReport_unwritable connection tx outfile quiet w e :
  str_truthy outfile = true ->
  (forall cs l, rt_writeFile rt cs (default "" outfile) l = Throw e) ->
  (sendAndReport rt connection tx outfile quiet w).1 = Throw e /\
  w_stdout (sendAndReport rt connection tx outfile quiet w).2 = w_stdout w.
Proof.
  intros Ho Hwrite.
  unfold sendAndReport, status_line, serialize_step, JSON_line. rewrite Ho. msimpl.
  destruct (rt_send rt (w_calls w) connection tx) as [res|e1]; msimpl.
  - destruct quiet; msimpl;
      repeat (rewrite ?Hwrite; msimpl; try branch); done.
  - destruct quiet; msimpl; by rewrite Hwrite.
Qed.
End unwritable.

(** X24: When the outfile cannot be written, a known command prints nothing at
    all to stdout: the failed write makes [sendAndReport], or the handler of
    an earlier error, throw, and the write of the error in the [catch] block
    of [main] fails in turn, so that [main] throws. *)
Theorem unwritable_outfile (rt : runtime) (argv : list string) (w : world)
    (command : option string) (opts : options) (connection : value) (e : exn) :
  is_keygen argv = false -> parseArgs argv = (command, opts) ->
  negb (str_truthy command) || o_help opts = false ->
  In (default "" command) known_commands ->
  str_truthy (o_outfile opts) = true ->
  rt_Connection rt (w_calls w) (cluster_of opts) = Return connection ->
  (forall cs l, rt_writeFile rt cs (default "" (o_outfile opts)) l = Throw e) ->
  (main rt argv w).1 = Throw e /\ w_stdout (main rt argv w).2 = w_stdout w /\
  exit_status (main rt argv w) = 1.
Proof.
  intros Hk Hp Hg Hin Ho Hconn Hwrite.
  destruct (proj2 (build_tx_known rt connection (default "" command) opts) Hin) as [build Hb].
  destruct (silent_build_tx rt _ _ _ _ Hb
              {| w_calls := w_calls w ++ [CConnection (cluster_of opts)];
                 w_stdout := w_stdout w; w_stderr := w_stderr w;
                 w_exitCode := w_exitCode w |}) as (Hout & _ & _).
  assert (E : (main rt argv w).1 = Throw e /\ w_stdout (main rt argv w).2 = w_stdout w).
  { unfold main, dispatch. rewrite Hk, Hp, Hg, Ho. msimpl. rewrite Hconn.
    unfold handler. rewrite Hb. msimpl.
    destruct (build _) as [[tx|e1] w2]; cbn [snd w_stdout] in Hout.
    - destruct (sendAndReport_unwritable rt connection tx (o_outfile opts) (o_quiet opts) w2 e
                  Ho Hwrite) as [H1 H2].
      destruct (sendAndReport rt connection tx (o_outfile opts) (o_quiet opts) w2)
        as [[[]|e2] w3]; simpl in *; [done|].
      rewrite Hwrite. simpl. split; [done|congruence].
    - rewrite Hwrite. simpl. by split. }
  destruct E as [E1 E2]. split; [done|]. split; [done|].
  unfold exit_status. by destruct (main rt argv w) as [[[]|?] ?].
Qed.

Lemma unwritable_outfile_witness :
  (main rt_unwritable ["get-current-supply"; "-o"; "out.json"] world0).1
    = Throw (Error "EACCES") /\
  w_stdout (main rt_unwritable ["get-current-supply"; "-o"; "out.json"] world0).2
    = w_stdout world0 /\
  exit_status (main rt_unwritable ["get-current-supply"; "-o"; "out.json"] world0) = 1.
Proof.
  apply (unwritable_outfile rt_unwritable ["get-current-supply"; "-o"; "out.json"] world0
           (Some "get-current-supply") (set_opt FOutfile (Some "out.json") opts0)
           (VPrim (PStr "connection")) (Error "EACCES")).
  - reflexivity.
  - reflexivity.
  - reflexivity.
  - do 7 right. left. reflexivity.
  - reflexivity.
  - reflexivity.
  - intros cs l. reflexivity.
Defined.

(** ** The keygen proxy: the installed package *)

(** X25: When the keygen package is installed and names an executable, the proxy
    runs it with Node, without a shell, on the path of the executable followed
    by the forwarded arguments; when that child exits, nothing else is tried
    and its exit code, unless 0, becomes the exit code.  Of a [bin] object the
    entry named [lea-keygen] is the executable, wherever it stands. *)
Theorem keygen_runs_installed_bin (rt : runtime) (args : list string) (w : world)
    (pkgPath : string) (pkg : tree) (s : string) (code : Z) (signal : option string) :
  rt_resolve rt (w_calls w) "@getlea/keygen/package.json" = Return pkgPath ->
  rt_require rt (w_calls w ++ [tier1_call]) pkgPath = Return pkg ->
  bin_field pkg = TPrim (PStr s) \/
  (exists ps, bin_field pkg = TObj ps /\ prop_lookup "lea-keygen" ps = Some (TPrim (PStr s))) ->
  s <> "" ->
  rt_spawn rt (w_calls w ++ [tier1_call; CRequire pkgPath]) (rt_execPath rt)
    (rt_binPath rt pkgPath s :: args) false = SpawnClose (Some code) signal ->
  runKeygen rt args w
  = (Return tt,
     {| w_calls := w_calls w ++
          [tier1_call; CRequire pkgPath;
           CSpawn (rt_execPath rt) (rt_binPath rt pkgPath s :: args) false];
        w_stdout := w_stdout w; w_stderr := w_stderr w;
        w_exitCode := if code =? 0 then w_exitCode w else Some code |}).
Proof.
  intros Hres Hreq Hbin Hs Hsp.
  assert (Hrel : relBin_of (bin_field pkg) = TPrim (PStr s)).
  { destruct Hbin as [->|(ps & -> & Hl)]; [done|]. simpl. rewrite Hl. simpl.
    by destruct (String.eqb_spec s ""). }
  unfold runKeygen, keygen_installed. msimpl. rewrite Hres. msimpl.
  unfold tier1_call in *. rewrite Hreq. msimpl. rewrite Hrel. simpl.
  destruct (String.eqb_spec s ""); [done|]. simpl.
  rewrite spawnAndWait_run. msimpl. rewrite <- !app_assoc. simpl.
  rewrite Hsp. done.
Qed.

Lemma keygen_runs_installed_bin_witness :
  runKeygen rt_installed ["new"; "--out"; "k.json"] world0
  = (Return tt,
     {| w_calls := [tier1_call; CRequire "node_modules/@getlea/keygen/package.json";
                    CSpawn "node" ["dist/cli.js"; "new"; "--out"; "k.json"] false];
        w_stdout := []; w_stderr := []; w_exitCode := Some 3 |}).
Proof.
  apply (keygen_runs_installed_bin rt_installed ["new"; "--out"; "k.json"] world0
           "node_modules/@getlea/keygen/package.json"
           (TObj [("name", TPrim (PStr "@getlea/keygen"));
                  ("bin", TObj [("keygen", TPrim (PStr "dist/old.js"));
                                ("lea-keygen", TPrim (PStr "dist/cli.js"))])])
           "dist/cli.js" 3 None).
  - reflexivity.
  - reflexivity.
  - right. eexists. split; reflexivity.
  - discriminate.
  - reflexivity.
Defined.

(** ** The calls of a transaction command *)

Section only_facts.
Variable P : call -> Prop.

Lemma only_ret {A} (a : A) : only P (ret a).
Proof. intros w. exists []. by rewrite app_nil_r. Qed.

Lemma only_throw {A} (e : exn) : only P (@throw A e).
Proof. intros w. exists []. by rewrite app_nil_r. Qed.

Lemma only_lift {A} (c : completion A) : only P (lift c).
Proof. intros w. exists []. by rewrite app_nil_r. Qed.

Lemma only_stdout_write l : only P (stdout_write l).
Proof. intros w. exists []. by rewrite app_nil_r. Qed.

Lemma only_stderr_write l : only P (stderr_write l).
Proof. intros w. exists []. by rewrite app_nil_r. Qed.

Lemma only_set_exitCode c : only P (set_exitCode c).
Proof. intros w. exists []. by rewrite app_nil_r. Qed.

Lemma only_call_env {A} (c : call) (f : list call -> completion A) :
  P c -> only P (call_env c f).
Proof. intros Hc w. exists [c]. split; [done|by constructor]. Qed.

Lemma only_bind {A B} (m : M A) (k : A -> M B) :
  only P m -> (forall a, only P (k a)) -> only P (bind m k).
Proof.
  intros Hm Hk w. unfold bind. destruct (Hm w) as (cs1 & E1 & H1).
  destruct (m w) as [[a|e] w1]; simpl in *; [|by exists cs1].
  destruct (Hk a w1) as (cs2 & E2 & H2). exists (cs1 ++ cs2).
  split; [by rewrite E2, E1, app_assoc|by apply Forall_app].
Qed.

Lemma only_try_catch {A} (m : M A) (k : exn -> M A) :
  only P m -> (forall e, only P (k e)) -> only P (try_catch m k).
Proof.
  intros Hm Hk w. unfold try_catch. destruct (Hm w) as (cs1 & E1 & H1).
  destruct (m w) as [[a|e] w1]; simpl in *; [by exists cs1|].
  destruct (Hk e w1) as (cs2 & E2 & H2). exists (cs1 ++ cs2).
  split; [by rewrite E2, E1, app_assoc|by apply Forall_app].
Qed.

Lemma only_when (b : bool) (m : M unit) : (b = true -> only P m) -> only P (when b m).
Proof. destruct b; simpl; [auto|intros _; apply only_ret]. Qed.
End only_facts.

Ltac only_steps :=
  repeat first
    [ apply only_ret | apply only_throw | apply only_lift | apply only_set_exitCode
    | apply only_stdout_write | apply only_stderr_write
    | apply only_call_env; solve [simpl; auto]
    | apply only_when; intros ?
    | apply only_bind; [|intros ?]
    | apply only_try_catch; [|intros ?] ].

Section client_call_facts.
Variable rt : runtime.
Variable outfile : option string.

Lemma only_fetchPrev connection address :
  only (client_call outfile) (fetchPrevTxHashFromNetwork rt connection address).
Proof.
  intros w. destruct (fetchPrev_calls rt connection address w) as (cs & E & H).
  exists cs. split; [done|]. eapply Forall_impl; [exact H|].
  intros [] Hc; simpl in *; done.
Qed.

Lemma only_readSigner keyfile : only (client_call outfile) (readSigner rt keyfile).
Proof.
  unfold readSigner. destruct keyfile as [keyfile|]; [|apply only_throw].
  destruct (_ || _); [apply only_throw|]. unfold readJson.
  only_steps. destruct (_ || _); only_steps.
Qed.

Lemma only_resolveAddress input : only (client_call outfile) (resolveAddress rt input).
Proof.
  unfold resolveAddress. destruct input as [input|]; [|apply only_throw].
  destruct (String.eqb input ""); [apply only_throw|].
  destruct (isJsonPath input); [|apply only_ret]. unfold readJson.
  only_steps. destruct (negb _); only_steps.
Qed.

Lemma only_buildWithPrevHash connection b args address :
  only (client_call outfile)
    (buildWithPrevHash rt connection (SystemProgram rt b) args address).
Proof.
  unfold buildWithPrevHash, SystemProgram.
  apply only_bind; [apply only_fetchPrev|]. intros prev. only_steps.
Qed.

Lemma only_build_tx connection command opts build :
  build_tx rt connection command opts = Some build -> only (client_call outfile) build.
Proof.
  unfold build_tx. intros H.
  repeat (destruct (String.eqb command _); [injection H as <-|]); try done;
    unfold SystemProgram;
    repeat first
      [ apply only_buildWithPrevHash | apply only_readSigner | apply only_resolveAddress
      | apply only_lift | apply only_call_env; solve [simpl; auto]
      | apply only_bind; [|intros ?] ].
Qed.

Lemma only_sendAndReport connection tx quiet :
  only (client_call outfile) (sendAndReport rt connection tx outfile quiet).
Proof.
  unfold sendAndReport, sendTransaction, status_line, serialize_step, writeFile.
  only_steps. destruct (serialize _ _); only_steps.
Qed.
End client_call_facts.

(** A transaction command writes exactly one line to stdout when it returns
    and none when it throws. *)
Lemma sendAndReport_stdout rt connection tx outfile quiet w :
  ((sendAndReport rt connection tx outfile quiet w).1 = Return tt ->
   exists l, w_stdout (sendAndReport rt connection tx outfile quiet w).2 = w_stdout w ++ [l]) /\
  (forall e, (sendAndReport rt connection tx outfile quiet w).1 = Throw e ->
     w_stdout (sendAndReport rt connection tx outfile quiet w).2 = w_stdout w).
Proof.
  unfold sendAndReport, status_line, serialize_step, JSON_line. msimpl.
  destruct (rt_send rt (w_calls w) connection tx) as [res|e] eqn:Hs; msimpl.
  - destruct (get_prop (rt_heap rt) res "ok") as [ok|e] eqn:Hok.
    + rewrite (get_prop_elsewhere _ _ _ _ "decoded" Hok).
      destruct quiet; msimpl; rewrite ?Hok; msimpl;
        repeat (branch; msimpl); cbn [fst snd w_stdout];
        (split; [intros Hr; first [discriminate Hr|by eexists]
                |intros ? Ht; first [discriminate Ht|reflexivity]]).
    + assert (Hdec : get_prop (rt_heap rt) res "decoded" = Throw e).
      { unfold get_prop in *. destruct res as [[]|]; by simplify_eq. }
      rewrite Hdec.
      destruct quiet; msimpl; rewrite ?Hok; msimpl;
        repeat (branch; msimpl); cbn [fst snd w_stdout];
        (split; [intros Hr; first [discriminate Hr|by eexists]
                |intros ? Ht; first [discriminate Ht|reflexivity]]).
  - destruct quiet; msimpl; repeat (branch; msimpl); cbn [fst snd w_stdout];
      (split; [intros Hr; first [discriminate Hr|by eexists]
              |intros ? Ht; first [discriminate Ht|reflexivity]]).
Qed.

(** X26: Every run of [main] on a command other than [keygen] writes exactly
    one line to stdout when it returns, whatever the environment answers, and
    nothing when it throws. *)
Theorem main_one_line (rt : runtime) (argv : list string) (w : world) :
  is_keygen argv = false ->
  ((main rt argv w).1 = Return tt ->
   exists l, w_stdout (main rt argv w).2 = w_stdout w ++ [l]) /\
  (forall e, (main rt argv w).1 = Throw e -> w_stdout (main rt argv w).2 = w_stdout w).
Proof.
  intros Hk. unfold main, dispatch. rewrite Hk.
  destruct (parseArgs argv) as [command opts].
  destruct (negb (str_truthy command) || o_help opts).
  { split; [intros _; by eexists|done]. }
  msimpl. destruct (rt_Connection rt _ _) as [connection|e0]; [|done].
  unfold handler.
  destruct (build_tx rt connection (default "" command) opts) as [build|] eqn:Hb.
  - destruct (silent_build_tx rt _ _ _ _ Hb
                {| w_calls := w_calls w ++ [CConnection (cluster_of opts)];
                   w_stdout := w_stdout w; w_stderr := w_stderr w;
                   w_exitCode := w_exitCode w |}) as (Hout & _ & _).
    msimpl. destruct (build _) as [[tx|e1] w2]; cbn [snd w_stdout] in Hout.
    + destruct (sendAndReport_stdout rt connection tx (o_outfile opts) (o_quiet opts) w2)
        as [Hret Hthr].
      destruct (sendAndReport rt connection tx (o_outfile opts) (o_quiet opts) w2)
        as [[[]|e2] w3]; cbn [fst snd] in *.
      * destruct (Hret eq_refl) as [l Hl]. split; [|done]. intros _. exists l. congruence.
      * specialize (Hthr e2 eq_refl).
        destruct (str_truthy (o_outfile opts)); msimpl;
          [destruct (rt_writeFile rt _ _ _)|]; cbn [fst snd w_stdout];
          (split; [intros Hr; first [discriminate Hr|eexists; by rewrite Hthr, Hout]
                  |intros ? Ht; first [discriminate Ht|congruence]]).
    + destruct (str_truthy (o_outfile opts)); msimpl;
        [destruct (rt_writeFile rt _ _ _)|]; cbn [fst snd w_stdout];
        (split; [intros Hr; first [discriminate Hr|eexists; by rewrite Hout]
                |intros ? Ht; first [discriminate Ht|congruence]]).
  - msimpl. split; [intros _; by eexists|done].
Qed.

Lemma main_one_line_witness :
  exists l, w_stdout (main rt_unwritable ["frobnicate"] world0).2 = w_stdout world0 ++ [l].
Proof.
  apply (proj1 (main_one_line rt_unwritable ["frobnicate"] world0 eq_refl)).
  reflexivity.
Defined.

Lemma cluster_of_nonempty opts : cluster_of opts <> "".
Proof.
  unfold cluster_of. destruct (o_cluster opts) as [c|]; simpl; [|done].
  by destruct (String.eqb_spec c "").
Qed.

(** X27: A command other than [keygen], unless it only prints the help text,
    first opens the connection, to the cluster given by [--cluster] or to
    [mainnet-beta] when that is missing or empty; every call after that reads
    a file, builds or sends a transaction, calls a user-defined [get], or
    writes the outfile: no second connection is opened, no other file is
    written, no module is loaded and no process is started. *)
Theorem client_calls (rt : runtime) (argv : list string) (w : world)
    (command : option string) (opts : options) :
  is_keygen argv = false -> parseArgs argv = (command, opts) ->
  negb (str_truthy command) || o_help opts = false ->
  cluster_of opts <> "" /\
  (forall c, o_cluster opts = Some c -> c <> "" -> cluster_of opts = c) /\
  exists cs,
    w_calls (main rt argv w).2 = w_calls w ++ CConnection (cluster_of opts) :: cs /\
    Forall (client_call (o_outfile opts)) cs.
Proof.
  intros Hk Hp Hg. split; [apply cluster_of_nonempty|]. split.
  { intros c Hc Hne. unfold cluster_of. rewrite Hc. simpl.
    by destruct (String.eqb_spec c ""). }
  unfold main, dispatch. rewrite Hk, Hp, Hg. unfold bind at 1. unfold Connection, call_env.
  cbn [fst snd w_calls].
  destruct (rt_Connection rt (w_calls w) (cluster_of opts)) as [connection|e].
  2:{ exists []. by split. }
  match goal with
  | |- context [try_catch ?m ?k ?w1] =>
      assert (Ho : only (client_call (o_outfile opts)) (try_catch m k))
  end.
  { apply only_try_catch.
    - unfold handler.
      destruct (build_tx rt connection (default "" command) opts) as [build|] eqn:Hb.
      + apply only_bind; [by eapply only_build_tx|]. intros tx. apply only_sendAndReport.
      + only_steps.
    - intros err. unfold writeFile. only_steps. }
  match goal with
  | |- context [try_catch ?m ?k ?w1] => destruct (Ho w1) as (cs & E & H)
  end.
  exists cs. split; [|done]. rewrite E. cbn [w_calls]. by rewrite <- app_assoc.
Qed.

Lemma client_calls_witness :
  exists cs,
    w_calls (main rt_not_ok ["get-current-supply"; "--cluster"; ""] world0).2
    = w_calls world0 ++ CConnection "mainnet-beta" :: cs /\
    Forall (client_call None) cs.
Proof.
  exact (proj2 (proj2 (client_calls rt_not_ok ["get-current-supply"; "--cluster"; ""] world0
                         (Some "get-current-supply") (set_opt FCluster (Some "") opts0)
                         eq_refl eq_refl eq_refl))).
Defined.

(** X28: [mint], [transfer] and [mint-whitelist] with a readable key file, a
    recipient and an amount run the prefetch for the address of the signer,
    not of the recipient, and then call their builder once, with the signer,
    the recipient, the amount and the options object, in this order; what the
    builder answers is the transaction. *)
Theorem signed_command_builds (rt : runtime) (connection : value) (command : string)
    (opts : options) (b : builder) (w w1 w2 : world) (s : signer) (toAddr : text) (amount : Z) :
  signed_builder command = Some b ->
  readSigner rt (o_key opts) w = (Return s, w1) ->
  resolveAddress rt (o_to opts) w1 = (Return toAddr, w2) ->
  toBigInt (amount_arg (o_amount opts)) = Return amount ->
  exists build prev w3,
    build_tx rt connection command opts = Some build /\
    fetchPrevTxHashFromNetwork rt connection (address s) w2 = (Return prev, w3) /\
    build w
    = (rt_build rt (w_calls w3) b
         [signer_arg s; AString toAddr; ABigInt amount; AOptions (prev_options prev)],
       {| w_calls := w_calls w3 ++
            [CBuild b [signer_arg s; AString toAddr; ABigInt amount;
                       AOptions (prev_options prev)]];
          w_stdout := w_stdout w; w_stderr := w_stderr w; w_exitCode := w_exitCode w |}).
Proof.
  intros Hb Hs Ht Ha.
  destruct (fetchPrev_returns rt connection (address s) w2) as (prev & w3 & E & Ho & He & Hx).
  destruct (silent_readSigner rt (o_key opts) w) as (Ho1 & He1 & Hx1).
  destruct (silent_resolveAddress rt (o_to opts) w1) as (Ho2 & He2 & Hx2).
  rewrite Hs in Ho1, He1, Hx1. rewrite Ht in Ho2, He2, Hx2. simpl in *.
  assert (Hrun : forall b',
    (let* signer := readSigner rt (o_key opts) in
     let* toAddr := resolveAddress rt (o_to opts) in
     let* amount := lift (toBigInt (amount_arg (o_amount opts))) in
     buildWithPrevHash rt connection (SystemProgram rt b')
       [signer_arg signer; AString toAddr; ABigInt amount] (address signer)) w
    = (rt_build rt (w_calls w3) b'
         [signer_arg s; AString toAddr; ABigInt amount; AOptions (prev_options prev)],
       {| w_calls := w_calls w3 ++
            [CBuild b' [signer_arg s; AString toAddr; ABigInt amount;
                        AOptions (prev_options prev)]];
          w_stdout := w_stdout w; w_stderr := w_stderr w; w_exitCode := w_exitCode w |})).
  { intros b'. unfold bind at 1. rewrite Hs. unfold bind at 1. rewrite Ht.
    unfold bind at 1, lift. rewrite Ha. unfold buildWithPrevHash, bind. rewrite E.
    unfold SystemProgram, call_env. simpl.
    by rewrite Ho, Ho2, Ho1, He, He2, He1, Hx, Hx2, Hx1. }
  unfold signed_builder in Hb.
  destruct (String.eqb_spec command "mint") as [->|_];
    [injection Hb as <-; eexists _, prev, w3; split; [reflexivity|]; split; [done|apply Hrun]|].
  destruct (String.eqb_spec command "transfer") as [->|_];
    [injection Hb as <-; eexists _, prev, w3; split; [reflexivity|]; split; [done|apply Hrun]|].
  destruct (String.eqb_spec command "mint-whitelist") as [->|_]; [|done].
  injection Hb as <-. eexists _, prev, w3. split; [reflexivity|]. split; [done|apply Hrun].
Qed.

Lemma signed_command_builds_witness :
  exists build prev w3,
    build_tx rt_not_ok (VPrim (PStr "connection")) "transfer"
      (set_opt FAmount (Some "5")
         (set_opt FTo (Some "lea1xyz") (set_opt FKey (Some "alice.json") opts0))) = Some build /\
    fetchPrevTxHashFromNetwork rt_not_ok (VPrim (PStr "connection")) (Lit "lea1abc")
      {| w_calls := [CReadJson "alice.json"]; w_stdout := []; w_stderr := [];
         w_exitCode := None |} = (Return prev, w3) /\
    (build world0).1 = Return (VPrim (PStr "tx")).
Proof.
  destruct (signed_command_builds rt_not_ok (VPrim (PStr "connection")) "transfer"
              (set_opt FAmount (Some "5")
                 (set_opt FTo (Some "lea1xyz") (set_opt FKey (Some "alice.json") opts0)))
              transfer world0 _ _ _ (Lit "lea1xyz") 5 eq_refl eq_refl eq_refl eq_refl)
    as (build & prev & w3 & Hb & E & Hrun).
  exists build, prev, w3. split; [exact Hb|]. split; [exact E|].
  rewrite Hrun. reflexivity.
Defined.
